(** * Tic-Tac-Toe (Parts A, B and C): a shallow embedding and its properties

    The three Python programs share one data model: a [Board] whose field
    [c] is a list of three lists of three one-character strings, and a
    [Game] holding the board and the string [turn].  Python mutates the
    board in place; here every function that writes to the board takes the
    board and returns the board it leaves behind.  Python exceptions are
    the [Raise] outcome of [result]; the recursion of [minimax] is cut by a
    fuel argument whose exhaustion is the [OutOfFuel] outcome. *)

From Stdlib Require Import String Ascii.
From Stdlib Require Import List ZArith Bool Lia Arith.
From Stdlib Require DecimalString DecimalZ DecimalPos.
Import ListNotations.

Set Implicit Arguments.

(** ** Outcomes of Python code *)

Inductive exn := IndexError | ValueError | EOFError.

Inductive result (A : Type) : Type :=
| Ok (a : A)
| Raise (e : exn)
| OutOfFuel.

Arguments Ok {A} a.
Arguments Raise {A} e.
Arguments OutOfFuel {A}.

Definition bind {A B} (m : result A) (k : A -> result B) : result B :=
  match m with
  | Ok a => k a
  | Raise e => Raise e
  | OutOfFuel => OutOfFuel
  end.

Declare Scope py_scope.
Delimit Scope py_scope with py.
Notation "x <- m ;; k" := (bind m (fun x => k))
  (at level 100, m at next level, right associativity) : py_scope.
Notation "' p <- m ;; k" := (bind m (fun p => k))
  (at level 100, p pattern, m at next level, right associativity) : py_scope.
Open Scope py_scope.

(** [for x in l: s = body(x, s)], stopping at the first exception. *)
Fixpoint for_each {A S} (body : A -> S -> result S) (l : list A) (s : S)
  : result S :=
  match l with
  | [] => Ok s
  | x :: t => s' <- body x s ;; for_each body t s'
  end.

(** [all(f(x) for x in l)]: the generator is consumed up to the first
    false item, so later items are not evaluated. *)
Fixpoint all_gen {A} (f : A -> result bool) (l : list A) : result bool :=
  match l with
  | [] => Ok true
  | x :: t => v <- f x ;; if v then all_gen f t else Ok false
  end.

(** [for x in l: if f(x): return True], falling through with [false]. *)
Fixpoint return_true_if {A} (f : A -> result bool) (l : list A)
  : result bool :=
  match l with
  | [] => Ok false
  | x :: t => v <- f x ;; if v then Ok true else return_true_if f t
  end.

(** [range(3)] *)
Definition range3 : list nat := [0; 1; 2]%nat.

(** ** Cells and boards *)

(** The strings written to the board and to [turn]: [" "], ["X"], ["O"]. *)
Inductive mark := Blank | X | O.

Definition mark_eqb (a b : mark) : bool :=
  match a, b with
  | Blank, Blank | X, X | O, O => true
  | _, _ => false
  end.

Definition board := list (list mark).

(** [Board.__init__] *)
Definition Board_init : board :=
  map (fun _ => map (fun _ => Blank) range3) range3.

(** [l[i]] for a non-negative index. *)
Definition getitem {A} (l : list A) (i : nat) : result A :=
  match nth_error l i with
  | Some x => Ok x
  | None => Raise IndexError
  end.

Fixpoint list_set {A} (l : list A) (i : nat) (v : A) : list A :=
  match l, i with
  | [], _ => []
  | _ :: t, 0%nat => v :: t
  | x :: t, S i' => x :: list_set t i' v
  end.

(** [l[i] = v] for a non-negative index. *)
Definition setitem {A} (l : list A) (i : nat) (v : A) : result (list A) :=
  match nth_error l i with
  | Some _ => Ok (list_set l i v)
  | None => Raise IndexError
  end.

(** [b[i][j]] *)
Definition cell (b : board) (i j : nat) : result mark :=
  row <- getitem b i ;; getitem row j.

(** [b[i][j] = v]: the row object is updated in place, the board keeps
    pointing to it. *)
Definition set_cell (b : board) (i j : nat) (v : mark) : result board :=
  row <- getitem b i ;;
  row' <- setitem row j v ;;
  setitem b i row'.

(** [all(cell != ' ' for row in b for cell in row)] *)
Definition no_blank (b : board) : bool :=
  forallb (fun c => negb (mark_eqb c Blank)) (concat b).

(** The fields of a [Game] object the methods read and write:
    [self.board.c] and [self.turn]. *)
Record Game := { board_c : board; turn : mark }.

(** [Game.__init__]: an empty board, X starts. *)
Definition Game_init : Game := {| board_c := Board_init; turn := X |}.

(** What the game loop announces when it stops. *)
Inductive verdict := Winner (t : mark) | Draw.

(** How one pass of the [while True] loop ends: back to the loop head
    ([continue] or falling off the end of the body) or [break]. *)
Inductive flow := Continue (g : Game) | Break (v : verdict) (g : Game).

(** What the human move source delivers to one prompt: [None] when the
    text does not parse as two integers separated by a comma (the
    [except] branch), the two integers otherwise. *)
Definition entry := option (Z * Z).

(** [0 <= row < 3 and 0 <= col < 3] *)
Definition in_range (row col : Z) : bool :=
  ((0 <=? row) && (row <? 3) && ((0 <=? col) && (col <? 3)))%Z.

(** ** Part A: two human players *)

Module PartA.

(** [Game.switchPlayer] *)
Definition switchPlayer (g : Game) : Game :=
  if mark_eqb (turn g) X then {| board_c := board_c g; turn := O |}
  else {| board_c := board_c g; turn := X |}.

(** [Game.validateEntry] *)
Definition validateEntry (g : Game) (row col : Z) : result bool :=
  if in_range row col then
    c <- cell (board_c g) (Z.to_nat row) (Z.to_nat col) ;;
    if mark_eqb c Blank then Ok true else Ok false
  else Ok false.

(** [Game.checkFull] *)
Definition checkFull (g : Game) : bool := no_blank (board_c g).

(** [Game.checkWin] *)
Definition checkWin (g : Game) : result bool :=
  let b := board_c g in
  let t := turn g in
  r <- return_true_if
         (fun row => Ok (forallb (fun c => mark_eqb c t) row)) b ;;
  if r then Ok true else
  c <- return_true_if
         (fun col =>
            all_gen (fun r => x <- cell b r col ;; Ok (mark_eqb x t)) range3)
         range3 ;;
  if c then Ok true else
  d <- all_gen (fun i => x <- cell b i i ;; Ok (mark_eqb x t)) range3 ;;
  if d then Ok true else
  a <- all_gen (fun i => x <- cell b i (2 - i) ;; Ok (mark_eqb x t)) range3 ;;
  if a then Ok true else Ok false.

(** [Game.checkEnd] *)
Definition checkEnd (g : Game) : result bool :=
  w <- checkWin g ;; if w then Ok true else Ok (checkFull g).

(** One pass of the loop of [Game.playGame], from the prompt to the
    switch of players. *)
Definition turn_body (inp : entry) (g : Game) : result flow :=
  match inp with
  | None => Ok (Continue g)
  | Some (row, col) =>
      ok <- validateEntry g row col ;;
      if negb ok then Ok (Continue g)
      else
        b' <- set_cell (board_c g) (Z.to_nat row) (Z.to_nat col) (turn g) ;;
        let g' := {| board_c := b'; turn := turn g |} in
        w <- checkWin g' ;;
        if w then Ok (Break (Winner (turn g')) g')
        else if checkFull g' then Ok (Break Draw g')
        else Ok (Continue (switchPlayer g'))
  end.

(** The loop of [Game.playGame] over the entries typed in; [input()] at
    the end of the input raises [EOFError].  The replay prompt after the
    loop is not part of the model. *)
Fixpoint play_loop (inputs : list entry) (g : Game)
  : result (verdict * Game) :=
  match inputs with
  | [] => Raise EOFError
  | inp :: rest =>
      f <- turn_body inp g ;;
      match f with
      | Continue g' => play_loop rest g'
      | Break v g' => Ok (v, g')
      end
  end.

End PartA.

(** ** Part B: human against minimax *)

Module PartB.

(** [Game.switchPlayer] *)
Definition switchPlayer (g : Game) : Game :=
  {| board_c := board_c g;
     turn := if mark_eqb (turn g) X then O else X |}.

(** [Game.validateEntry] *)
Definition validateEntry (g : Game) (row col : Z) : result bool :=
  if in_range row col then
    c <- cell (board_c g) (Z.to_nat row) (Z.to_nat col) ;;
    Ok (mark_eqb c Blank)
  else Ok false.

(** [Game.checkFull] *)
Definition checkFull (g : Game) : bool := no_blank (board_c g).

(** [Game.checkWin] *)
Definition checkWin (g : Game) : result bool :=
  let b := board_c g in
  let t := turn g in
  r <- return_true_if
         (fun i =>
            h <- all_gen (fun j => x <- cell b i j ;; Ok (mark_eqb x t))
                   range3 ;;
            if h then Ok true
            else all_gen (fun j => x <- cell b j i ;; Ok (mark_eqb x t))
                   range3)
         range3 ;;
  if r then Ok true else
  d <- all_gen (fun i => x <- cell b i i ;; Ok (mark_eqb x t)) range3 ;;
  if d then Ok true else
  a <- all_gen (fun i => x <- cell b i (2 - i) ;; Ok (mark_eqb x t)) range3 ;;
  if a then Ok true else Ok false.

(** [Game.checkEnd] *)
Definition checkEnd (g : Game) : result bool :=
  w <- checkWin g ;; if w then Ok true else Ok (checkFull g).

(** [Game.checkWinState] *)
Definition checkWinState (b : board) (player : mark) : result bool :=
  r <- return_true_if
         (fun row => Ok (forallb (fun c => mark_eqb c player) row)) b ;;
  if r then Ok true else
  c <- return_true_if
         (fun col =>
            all_gen (fun r => x <- cell b r col ;; Ok (mark_eqb x player))
                    range3)
         range3 ;;
  if c then Ok true else
  d <- all_gen (fun i => x <- cell b i i ;; Ok (mark_eqb x player)) range3 ;;
  if d then Ok true else
  a <- all_gen (fun i => x <- cell b i (2 - i) ;; Ok (mark_eqb x player))
         range3 ;;
  if a then Ok true else Ok false.

(** The values [best_score] and [score] range over: the integers returned
    for terminal boards and the two float sentinels. *)
Inductive score := NegInf | Fin (z : Z) | PosInf.

(** [a < b] on scores *)
Definition score_ltb (a b : score) : bool :=
  match a, b with
  | NegInf, NegInf => false
  | NegInf, _ => true
  | Fin _, NegInf => false
  | Fin x, Fin y => (x <? y)%Z
  | Fin _, PosInf => true
  | PosInf, _ => false
  end.

(** Python's [max(a, b)]: the first argument unless the second is
    strictly greater. *)
Definition score_max (a b : score) : score :=
  if score_ltb a b then b else a.

(** Python's [min(a, b)]: the first argument unless the second is
    strictly smaller. *)
Definition score_min (a b : score) : score :=
  if score_ltb b a then b else a.

(** One pass of the inner loop body of [minimax]: the cell test, the
    placement of [who], the recursive call [rec], the undo and the update
    of [best_score] with [pick]. *)
Definition minimax_try (rec : board -> result (score * board))
    (who : mark) (pick : score -> score -> score) (i j : nat)
    (st : score * board) : result (score * board) :=
  let '(best_score, b) := st in
  c <- cell b i j ;;
  if mark_eqb c Blank then
    b1 <- set_cell b i j who ;;
    '(sc, b2) <- rec b1 ;;
    b3 <- set_cell b2 i j Blank ;;
    Ok (pick best_score sc, b3)
  else Ok (best_score, b).

(** The two nested [range(3)] loops of one branch of [minimax], from the
    initial [best_score] to the [return best_score]. *)
Definition search (rec : board -> result (score * board)) (who : mark)
    (pick : score -> score -> score) (init : score) (b : board)
  : result (score * board) :=
  for_each
    (fun i => for_each (fun j => minimax_try rec who pick i j) range3)
    range3 (init, b).

(** [Game.minimax].  The result pairs the returned score with the board
    as the call leaves it. *)
Fixpoint minimax (fuel : nat) (b : board) (is_maximizing : bool)
  : result (score * board) :=
  match fuel with
  | 0%nat => OutOfFuel
  | S n =>
    wo <- checkWinState b O ;;
    if wo then Ok (Fin 1, b) else
    wx <- checkWinState b X ;;
    if wx then Ok (Fin (-1), b) else
    if no_blank b then Ok (Fin 0, b) else
    if is_maximizing
    then search (fun b' => minimax n b' false) O score_max NegInf b
    else search (fun b' => minimax n b' true) X score_min PosInf b
  end.

(** The loop body of [getComputerMove]; the state is
    [(best_score, best_move, board)]. *)
Definition computer_try (fuel : nat) (i j : nat)
    (st : score * option (nat * nat) * board)
  : result (score * option (nat * nat) * board) :=
  let '(best_score, best_move, b) := st in
  c <- cell b i j ;;
  if mark_eqb c Blank then
    b1 <- set_cell b i j O ;;
    '(sc, b2) <- minimax fuel b1 false ;;
    b3 <- set_cell b2 i j Blank ;;
    if score_ltb best_score sc then Ok (sc, Some (i, j), b3)
    else Ok (best_score, best_move, b3)
  else Ok (best_score, best_move, b).

(** [Game.getComputerMove], on the board [self.board.c]: the move
    ([None] is Python's [None]) and the board as the call leaves it. *)
Definition getComputerMove (fuel : nat) (b : board)
  : result (option (nat * nat) * board) :=
  '(_, best_move, b') <-
     for_each (fun i => for_each (fun j => computer_try fuel i j) range3)
              range3 (NegInf, None, b) ;;
  Ok (best_move, b').

(** The end-of-turn test of [playGame]: [checkEnd], then [checkWin] to
    tell a win from a draw, else the switch of players. *)
Definition end_of_turn (g : Game) : result flow :=
  e <- checkEnd g ;;
  if e then
    w <- checkWin g ;;
    if w then Ok (Break (Winner (if mark_eqb (turn g) X then X else O)) g)
    else Ok (Break Draw g)
  else Ok (Continue (switchPlayer g)).

(** One pass of the loop of [Game.playGame]: the entries not yet read
    are returned with the flow. *)
Definition turn_body (fuel : nat) (inputs : list entry) (g : Game)
  : result (flow * list entry) :=
  if mark_eqb (turn g) X then
    match inputs with
    | [] => Raise EOFError
    | None :: rest => Ok (Continue g, rest)
    | Some (row, col) :: rest =>
        ok <- validateEntry g row col ;;
        if negb ok then Ok (Continue g, rest)
        else
          b' <- set_cell (board_c g) (Z.to_nat row) (Z.to_nat col) X ;;
          f <- end_of_turn {| board_c := b'; turn := turn g |} ;;
          Ok (f, rest)
    end
  else
    '(move, b1) <- getComputerMove fuel (board_c g) ;;
    b2 <- match move with
          | Some (row, col) => set_cell b1 row col O
          | None => Ok b1
          end ;;
    f <- end_of_turn {| board_c := b2; turn := turn g |} ;;
    Ok (f, inputs).

(** The loop of [Game.playGame]; [passes] bounds the number of passes
    through the loop body. *)
Fixpoint play_loop (fuel passes : nat) (inputs : list entry) (g : Game)
  : result (verdict * Game) :=
  match passes with
  | 0%nat => OutOfFuel
  | S k =>
      '(f, rest) <- turn_body fuel inputs g ;;
      match f with
      | Continue g' => play_loop fuel k rest g'
      | Break v g' => Ok (v, g')
      end
  end.

End PartB.

(** ** Part C: human against a trained predictor *)

Module PartC.

(** [Game.validateEntry] *)
Definition validateEntry (g : Game) (row col : Z) : result bool :=
  if in_range row col then
    c <- cell (board_c g) (Z.to_nat row) (Z.to_nat col) ;;
    Ok (mark_eqb c Blank)
  else Ok false.

(** [Game.encodeBoard] *)
Definition encodeBoard (g : Game) : list Z :=
  flat_map
    (map (fun c => if mark_eqb c X then 1
                   else if mark_eqb c O then (-1) else 0)%Z)
    (board_c g).

(** [[(r, c) for r in range(3) for c in range(3) if b[r][c] == " "]] *)
Definition available (b : board) : result (list (nat * nat)) :=
  for_each
    (fun r => for_each
       (fun c acc =>
          x <- cell b r c ;;
          if mark_eqb x Blank then Ok (acc ++ [(r, c)]) else Ok acc)
       range3)
    range3 [].

(** [random.choice(seq)]: [IndexError] on an empty sequence, else the
    item at the index the random source draws below [len(seq)]. *)
Definition choice {A} (randbelow : nat -> nat) (seq : list A) : result A :=
  match seq with
  | [] => Raise IndexError
  | _ => getitem seq (randbelow (length seq))
  end.

(** The line printed when the prediction is not a valid move. *)
Definition fallback_notice : String.string :=
  "(ML predicted invalid move — choosing a random valid spot.)"%string.

(** [Game.getComputerMove].  [predict] stands for
    [self.model.predict([encoded])[0]] and [randbelow] for the random
    source behind [random.choice]; the result is the returned pair and
    the lines printed. *)
Definition getComputerMove (predict : list Z -> Z) (randbelow : nat -> nat)
    (g : Game) : result ((Z * Z) * list String.string) :=
  let encoded := encodeBoard g in
  let move_index := predict encoded in
  let '(row, col) := (move_index / 3, move_index mod 3)%Z in
  ok <- validateEntry g row col ;;
  if negb ok then
    av <- available (board_c g) ;;
    '(r, c) <- choice randbelow av ;;
    Ok ((Z.of_nat r, Z.of_nat c), [fallback_notice])
  else Ok ((row, col), []).

(** *** The training-data loader *)

(** ASCII characters for which [str.isspace] holds. *)
Definition is_space (c : ascii) : bool :=
  let n := nat_of_ascii c in
  ((9 <=? n) && (n <=? 13) || (28 <=? n) && (n <=? 32))%nat.

(** [s.split()] with no separator: the maximal runs of non-space
    characters. [cur] is the run being read, last character first. *)
Fixpoint split_ws (cur : list ascii) (s : list ascii) : list (list ascii) :=
  match s with
  | [] => match cur with [] => [] | _ => [rev cur] end
  | c :: t =>
      if is_space c then
        match cur with
        | [] => split_ws [] t
        | _ => rev cur :: split_ws [] t
        end
      else split_ws (c :: cur) t
  end.

Fixpoint lstrip (s : list ascii) : list ascii :=
  match s with
  | c :: t => if is_space c then lstrip t else s
  | [] => []
  end.

(** [s.strip()] *)
Definition strip (s : list ascii) : list ascii :=
  rev (lstrip (rev (lstrip s))).

Definition digit_val (c : ascii) : option Z :=
  let n := nat_of_ascii c in
  if ((48 <=? n) && (n <=? 57))%nat then Some (Z.of_nat (n - 48)) else None.

(** Decimal digits, single underscores allowed between two digits. *)
Fixpoint parse_digits (acc : Z) (after_digit : bool) (s : list ascii)
  : option Z :=
  match s with
  | [] => if after_digit then Some acc else None
  | c :: t =>
      match digit_val c with
      | Some d => parse_digits (10 * acc + d) true t
      | None =>
          if (Ascii.eqb c "_" && after_digit)%bool
          then parse_digits acc false t else None
      end
  end.

(** CPython's default limit on the digits of an integer string. *)
Definition max_str_digits : N := 4300.

(** The integer an ASCII token denotes for [int(tok)], if any: an
    optional sign before the digits. *)
Definition parse_int (tok : list ascii) : option Z :=
  if (max_str_digits
      <? N.of_nat
           (length (filter (fun c => match digit_val c with
                                     | Some _ => true | None => false end)
                      tok)))%N
  then None
  else
    match tok with
    | "+"%char :: t => parse_digits 0 false t
    | "-"%char :: t => option_map Z.opp (parse_digits 0 false t)
    | _ => parse_digits 0 false tok
    end.

(** [int(tok)] *)
Definition py_int (tok : list ascii) : result Z :=
  match parse_int tok with
  | Some z => Ok z
  | None => Raise ValueError
  end.

(** [list(map(int, toks))] *)
Fixpoint map_int (toks : list (list ascii)) : result (list Z) :=
  match toks with
  | [] => Ok []
  | t :: rest => z <- py_int t ;; zs <- map_int rest ;; Ok (z :: zs)
  end.

(** [line.strip().split()] *)
Definition parts_of (line : String.string) : list (list ascii) :=
  split_ws [] (strip (String.list_ascii_of_string line)).

(** The body of the loop of [load_dataset] on one line. *)
Definition load_line (line : String.string)
    (acc : list (list Z) * list Z) : result (list (list Z) * list Z) :=
  let '(xs, ys) := acc in
  let parts := parts_of line in
  if (length parts =? 10)%nat then
    features <- map_int (firstn 9 parts) ;;
    tok <- getitem parts 9 ;;
    label <- py_int tok ;;
    Ok (xs ++ [features], ys ++ [label])
  else Ok (xs, ys).

(** [load_dataset], on the lines of the file (ASCII text) in order. *)
Definition load_dataset (lines : list String.string)
  : result (list (list Z) * list Z) :=
  for_each load_line lines ([], []).

(** *** The game loop *)

(** [Game.switchPlayer] *)
Definition switchPlayer (g : Game) : Game :=
  {| board_c := board_c g;
     turn := if mark_eqb (turn g) X then O else X |}.

(** [Game.checkFull] *)
Definition checkFull (g : Game) : bool := no_blank (board_c g).

(** [Game.checkWin] *)
Definition checkWin (g : Game) : result bool :=
  let b := board_c g in
  let t := turn g in
  r <- return_true_if
         (fun i =>
            h <- all_gen (fun j => x <- cell b i j ;; Ok (mark_eqb x t))
                   range3 ;;
            if h then Ok true
            else all_gen (fun j => x <- cell b j i ;; Ok (mark_eqb x t))
                   range3)
         range3 ;;
  if r then Ok true else
  d <- all_gen (fun i => x <- cell b i i ;; Ok (mark_eqb x t)) range3 ;;
  if d then Ok true else
  a <- all_gen (fun i => x <- cell b i (2 - i) ;; Ok (mark_eqb x t)) range3 ;;
  if a then Ok true else Ok false.

(** The end-of-turn test of [playGame]: a win, else a draw on a full
    board, else the switch of players. *)
Definition end_of_turn (g : Game) : result flow :=
  w <- checkWin g ;;
  if w then Ok (Break (Winner (if mark_eqb (turn g) X then X else O)) g)
  else if checkFull g then Ok (Break Draw g)
  else Ok (Continue (switchPlayer g)).

(** One pass of the loop of [Game.playGame]; [randbelow] is the draw the
    random source makes in this pass.  The lines printed are not kept. *)
Definition turn_body (predict : list Z -> Z) (randbelow : nat -> nat)
    (inputs : list entry) (g : Game) : result (flow * list entry) :=
  if mark_eqb (turn g) X then
    match inputs with
    | [] => Raise EOFError
    | None :: rest => Ok (Continue g, rest)
    | Some (row, col) :: rest =>
        ok <- validateEntry g row col ;;
        if negb ok then Ok (Continue g, rest)
        else
          b' <- set_cell (board_c g) (Z.to_nat row) (Z.to_nat col) X ;;
          f <- end_of_turn {| board_c := b'; turn := turn g |} ;;
          Ok (f, rest)
    end
  else
    '((row, col), _) <- getComputerMove predict randbelow g ;;
    b' <- set_cell (board_c g) (Z.to_nat row) (Z.to_nat col) O ;;
    f <- end_of_turn {| board_c := b'; turn := turn g |} ;;
    Ok (f, inputs).

(** The loop of [Game.playGame]: [rand k] is the draw of the random
    source in the pass numbered [k], [passes] bounds the passes. *)
Fixpoint play_loop (predict : list Z -> Z) (rand : nat -> nat -> nat)
    (k passes : nat) (inputs : list entry) (g : Game)
  : result (verdict * Game) :=
  match passes with
  | 0%nat => OutOfFuel
  | S n =>
      '(f, rest) <- turn_body predict (rand k) inputs g ;;
      match f with
      | Continue g' => play_loop predict rand (S k) n rest g'
      | Break v g' => Ok (v, g')
      end
  end.

End PartC.

(** ** Specification-level notions *)

(** The board [Board.__init__] builds, and every board the games reach:
    three rows of three cells. *)
Definition is_3x3 (b : board) : Prop :=
  length b = 3%nat /\ Forall (fun row => length row = 3%nat) b.

(** The cell at [(i, j)], [Blank] outside the board. *)
Definition at_ (b : board) (i j : nat) : mark := nth j (nth i b []) Blank.

(** The board with cell [(i, j)] overwritten. *)
Definition place (b : board) (i j : nat) (v : mark) : board :=
  list_set b i (list_set (nth i b []) j v).

(** Number of cells holding [m]. *)
Definition count_mark (m : mark) (b : board) : nat :=
  length (filter (mark_eqb m) (concat b)).

Definition blanks (b : board) : nat := count_mark Blank b.

(** Row-major scan order of the nested [range(3)] loops. *)
Definition positions : list (nat * nat) := list_prod range3 range3.

(** The eight lines of the board. *)
Definition lines : list (list (nat * nat)) :=
  [ [(0,0); (0,1); (0,2)]; [(1,0); (1,1); (1,2)]; [(2,0); (2,1); (2,2)];
    [(0,0); (1,0); (2,0)]; [(0,1); (1,1); (2,1)]; [(0,2); (1,2); (2,2)];
    [(0,0); (1,1); (2,2)]; [(0,2); (1,1); (2,0)] ]%nat.

(** Player [p] holds the three cells of some row, column or diagonal. *)
Definition has_line (b : board) (p : mark) : Prop :=
  exists l, In l lines /\ forall i j, In (i, j) l -> cell b i j = Ok p.

Definition has_lineb (b : board) (p : mark) : bool :=
  existsb (forallb (fun '(i, j) => mark_eqb (at_ b i j) p)) lines.

(** No cell of the board is blank. *)
Definition full (b : board) : Prop :=
  forall i j, (i < 3)%nat -> (j < 3)%nat -> cell b i j <> Ok Blank.

(** The other player. *)
Definition other (p : mark) : mark :=
  match p with X => O | O => X | Blank => Blank end.

(** The transition of the engine after player [p] has moved and left the
    board [b]: a win of [p] first, then a draw on a full board, else the
    other player is to move. *)
Inductive transition (b : board) (p : mark) : flow -> Prop :=
| to_win :
    has_line b p ->
    transition b p (Break (Winner p) {| board_c := b; turn := p |})
| to_draw :
    ~ has_line b p -> full b ->
    transition b p (Break Draw {| board_c := b; turn := p |})
| to_next :
    ~ has_line b p -> ~ full b ->
    transition b p (Continue {| board_c := b; turn := other p |}).

(** The value of a terminal board for the maximizer O. *)
Inductive terminal_value (b : board) : Z -> Prop :=
| tv_O : has_line b O -> terminal_value b 1
| tv_X : ~ has_line b O -> has_line b X -> terminal_value b (-1)
| tv_full : ~ has_line b O -> ~ has_line b X -> full b ->
            terminal_value b 0.

Module PartB_spec.
Import PartB.

(** The scores of decided games. *)
Definition decided (s : score) : Prop :=
  exists z, s = Fin z /\ (-1 <= z <= 1)%Z.

(** What a search loop computes: [pick] folded over the values [v] of
    the blank cells, in scan order. *)
Definition fold_pick (pick : score -> score -> score) (b : board)
    (v : nat -> nat -> score) (ps : list (nat * nat)) (best : score)
  : score :=
  fold_left
    (fun acc p =>
       if mark_eqb (at_ b (fst p) (snd p)) Blank
       then pick acc (v (fst p) (snd p)) else acc)
    ps best.

(** The score of a returning call. *)
Definition score_of (r : result (score * board)) : score :=
  match r with
  | Ok (s, _) => s
  | _ => NegInf
  end.

(** The value of the move [(i, j)] for O on board [b]: O is placed and
    the position is evaluated with the minimizer to move. *)
Definition move_value (fuel : nat) (b : board) (i j : nat) : result score :=
  b1 <- set_cell b i j O ;;
  '(sc, _) <- minimax fuel b1 false ;;
  Ok sc.

(** One step of the selection of [getComputerMove]: a blank cell whose
    value beats the best score so far becomes the best move. *)
Definition select_step (b : board) (val : nat -> nat -> Z)
    (st : score * option (nat * nat)) (p : nat * nat)
  : score * option (nat * nat) :=
  if mark_eqb (at_ b (fst p) (snd p)) Blank then
    if score_ltb (fst st) (Fin (val (fst p) (snd p)))
    then (Fin (val (fst p) (snd p)), Some p) else st
  else st.

(** What the scan knows after the cells [seen]: nothing yet, or a best
    move that strictly beats every blank cell before it and is not beaten
    by any blank cell after it. *)
Definition selected (b : board) (val : nat -> nat -> Z)
    (seen : list (nat * nat)) (st : score * option (nat * nat)) : Prop :=
  match snd st with
  | None =>
      fst st = NegInf
      /\ forall p, In p seen -> at_ b (fst p) (snd p) <> Blank
  | Some q =>
      fst st = Fin (val (fst q) (snd q))
      /\ at_ b (fst q) (snd q) = Blank
      /\ exists pre post, seen = pre ++ q :: post
         /\ (forall p, In p pre -> at_ b (fst p) (snd p) = Blank ->
              (val (fst p) (snd p) < val (fst q) (snd q))%Z)
         /\ (forall p, In p post -> at_ b (fst p) (snd p) = Blank ->
              (val (fst p) (snd p) <= val (fst q) (snd q))%Z)
  end.

(** The value the evaluator gives to O's move [(i, j)] on [b]. *)
Definition value_at (fuel : nat) (b : board) (i j : nat) : Z :=
  match minimax fuel (place b i j O) false with
  | Ok (Fin z, _) => z
  | _ => 0%Z
  end.

End PartB_spec.

Module SelfPlay.
Import PartB.

(** Modelled from the spec: the repository has no minimax policy for X
    (X is the human in Part B).  Section 4.3 asks of [bestMove] that it
    evaluate every legal move of the player to act and pick the move
    with the best value for that player, the minimum for X, the first
    such move in row-major scan order: the mirror image of
    [getComputerMove]. *)
Definition best_try_X (fuel : nat) (i j : nat)
    (st : score * option (nat * nat) * board)
  : result (score * option (nat * nat) * board) :=
  let '(best_score, best_move, b) := st in
  c <- cell b i j ;;
  if mark_eqb c Blank then
    b1 <- set_cell b i j X ;;
    '(sc, b2) <- minimax fuel b1 true ;;
    b3 <- set_cell b2 i j Blank ;;
    if score_ltb sc best_score then Ok (sc, Some (i, j), b3)
    else Ok (best_score, best_move, b3)
  else Ok (best_score, best_move, b).

(** Modelled from the spec: [bestMove] for X, absent from the
    repository; the scan of Section 4.3 with [best_try_X] as its body,
    from the initial best score plus infinity to the move returned. *)
Definition bestMoveX (fuel : nat) (b : board)
  : result (option (nat * nat) * board) :=
  '(_, best_move, b') <-
     for_each (fun i => for_each (fun j => best_try_X fuel i j) range3)
              range3 (PosInf, None, b) ;;
  Ok (best_move, b').

(** Modelled from the spec: the MinimaxPolicy of Section 4.4 in the seat
    of X, absent from the repository; what it enters at the prompt of
    Part B's loop when X is to move. *)
Definition entry_X (fuel : nat) (g : Game) : result (list entry) :=
  if mark_eqb (turn g) X then
    '(mv, _) <- bestMoveX fuel (board_c g) ;;
    Ok [option_map (fun p => (Z.of_nat (fst p), Z.of_nat (snd p))) mv]
  else Ok [].

(** Modelled from the spec: the self-play of Section 8, absent from
    the repository; the loop of Part B's [playGame] with X's entries
    supplied by the policy, the games after each pass recorded. *)
Fixpoint self_play (fuel passes : nat) (g : Game)
  : result (verdict * list Game) :=
  match passes with
  | 0%nat => OutOfFuel
  | S k =>
      inputs <- entry_X fuel g ;;
      '(f, _) <- turn_body fuel inputs g ;;
      match f with
      | Continue g' =>
          '(v, trace) <- self_play fuel k g' ;; Ok (v, g' :: trace)
      | Break v g' => Ok (v, [g'])
      end
  end.

(** One step of the selection of [bestMoveX]: a blank cell whose value
    is below the best score so far becomes the best move. *)
Definition select_step_X (b : board) (val : nat -> nat -> Z)
    (st : score * option (nat * nat)) (p : nat * nat)
  : score * option (nat * nat) :=
  if mark_eqb (at_ b (fst p) (snd p)) Blank then
    if score_ltb (Fin (val (fst p) (snd p))) (fst st)
    then (Fin (val (fst p) (snd p)), Some p) else st
  else st.

(** The value the evaluator gives to X's move [(i, j)] on [b]. *)
Definition value_at_X (fuel : nat) (b : board) (i j : nat) : Z :=
  match minimax fuel (place b i j X) true with
  | Ok (Fin z, _) => z
  | _ => 0%Z
  end.

End SelfPlay.

(** The nine positions of the game the two minimax policies play. *)
Definition draw_game : list Game :=
  [ {| board_c := [[X; Blank; Blank]; [Blank; Blank; Blank];
                   [Blank; Blank; Blank]]; turn := O |};
    {| board_c := [[X; Blank; Blank]; [Blank; O; Blank];
                   [Blank; Blank; Blank]]; turn := X |};
    {| board_c := [[X; X; Blank]; [Blank; O; Blank];
                   [Blank; Blank; Blank]]; turn := O |};
    {| board_c := [[X; X; O]; [Blank; O; Blank];
                   [Blank; Blank; Blank]]; turn := X |};
    {| board_c := [[X; X; O]; [Blank; O; Blank];
                   [X; Blank; Blank]]; turn := O |};
    {| board_c := [[X; X; O]; [O; O; Blank];
                   [X; Blank; Blank]]; turn := X |};
    {| board_c := [[X; X; O]; [O; O; X]; [X; Blank; Blank]]; turn := O |};
    {| board_c := [[X; X; O]; [O; O; X]; [X; O; Blank]]; turn := X |};
    {| board_c := [[X; X; O]; [O; O; X]; [X; O; X]]; turn := X |} ].

(** The games at the head of the loop of Part A's [playGame]. *)
Inductive awaiting : Game -> Prop :=
| aw_init : awaiting Game_init
| aw_next g inp g' :
    awaiting g -> PartA.turn_body inp g = Ok (Continue g') -> awaiting g'.

(** The games Part A's engine reaches: those at the head of the loop and
    those at which it stops. *)
Definition reached (g : Game) : Prop :=
  awaiting g
  \/ exists g0 inp v, awaiting g0 /\ PartA.turn_body inp g0 = Ok (Break v g).

(** The flow the specification's transition prescribes. *)
Definition next_flow (b : board) (p : mark) : flow :=
  if has_lineb b p then Break (Winner p) {| board_c := b; turn := p |}
  else if no_blank b then Break Draw {| board_c := b; turn := p |}
  else Continue {| board_c := b; turn := other p |}.

(** What holds at the head of the loop: X is to move on a board with as
    many X as O, or O is to move on a board with one X more. *)
Definition balanced (g : Game) : Prop :=
  is_3x3 (board_c g)
  /\ ((turn g = X /\ count_mark X (board_c g) = count_mark O (board_c g))
      \/ (turn g = O
          /\ count_mark X (board_c g) = S (count_mark O (board_c g)))).

(** The blank cells in scan order. *)
Definition blank_cells (b : board) : list (nat * nat) :=
  filter (fun p => mark_eqb (at_ b (fst p) (snd p)) Blank) positions.

(** The loader keeps the lines of ten fields. *)
Definition kept (line : string) : bool :=
  (length (PartC.parts_of line) =? 10)%nat.

(** The integer a token denotes, 0 for a token that denotes none. *)
Definition int_of (tok : list ascii) : Z :=
  match PartC.parse_int tok with
  | Some z => z
  | None => 0%Z
  end.

Definition features_of (line : string) : list Z :=
  map int_of (firstn 9 (PartC.parts_of line)).

Definition label_of (line : string) : Z :=
  int_of (nth 9 (PartC.parts_of line) []).

(** Every field of the line is an integer literal. *)
Definition integer_fields (line : string) : Prop :=
  Forall (fun tok => PartC.parse_int tok <> None) (PartC.parts_of line).

Definition integer_fieldsb (line : string) : bool :=
  forallb (fun tok => match PartC.parse_int tok with
                      | Some _ => true | None => false end)
    (PartC.parts_of line).

(** A line of ten fields whose last field is not an integer. *)
Definition bad_line : string := "0 0 0 0 1 0 0 0 -1 x".

(** ** Notions for the games as played *)

(** The value [minimax] gives a board, with fuel for ten levels. *)
Definition game_value (b : board) (m : bool) : Z :=
  match PartB.minimax 10 b m with
  | Ok (PartB.Fin z, _) => z
  | _ => 0%Z
  end.

(** What a verdict is worth to O, on the scale of [minimax]. *)
Definition verdict_value (v : verdict) : Z :=
  match v with
  | Winner O => 1
  | Draw => 0
  | Winner _ => -1
  end.

(** A game in progress: nobody holds a line and a blank cell is left. *)
Definition in_play (b : board) : Prop :=
  is_3x3 b /\ ~ has_line b X /\ ~ has_line b O /\ ~ full b.

(** The value of the position for the player to move: O maximizes. *)
Definition position_value (g : Game) : Z :=
  game_value (board_c g) (mark_eqb (turn g) O).

(** The order of scores, as [<=]. *)
Definition score_le (a c : PartB.score) : Prop := PartB.score_ltb c a = false.

Definition in_playb (b : board) : bool :=
  negb (has_lineb b X) && negb (has_lineb b O) && negb (no_blank b).

(** What is left to do in Part B's loop: two passes for each entry not
    yet read, and one more when the computer is to move. *)
Definition passes_left (inputs : list entry) (g : Game) : nat :=
  2 * length inputs + (if mark_eqb (turn g) O then 1 else 0).

(** The marks on a board. *)
Definition marks (b : board) : nat := count_mark X b + count_mark O b.

(** A verdict fits the game it is announced on: the winner is the player
    who has just moved and holds a line while the other player holds
    none; a draw is a full board on which nobody holds a line. *)
Definition verdict_fits (v : verdict) (g : Game) : Prop :=
  match v with
  | Winner t =>
      (t = X \/ t = O) /\ turn g = t
      /\ has_line (board_c g) t /\ ~ has_line (board_c g) (other t)
  | Draw =>
      full (board_c g)
      /\ ~ has_line (board_c g) X /\ ~ has_line (board_c g) O
  end.

(** An entry Part A's loop turns down on game [g]: text that does not
    parse, a coordinate out of range, a cell already taken. *)
Definition rejected (g : Game) (inp : entry) : Prop :=
  match inp with
  | None => True
  | Some (row, col) =>
      ~ ((0 <= row < 3)%Z /\ (0 <= col < 3)%Z
         /\ cell (board_c g) (Z.to_nat row) (Z.to_nat col) = Ok Blank)
  end.

(** What holds at the head of Part A's loop. *)
Definition at_head (g : Game) : Prop :=
  in_play (board_c g) /\ balanced g.

(** The integer [encodeBoard] writes for a cell. *)
Definition code (m : mark) : Z :=
  match m with X => 1 | O => -1 | Blank => 0 end.

(** A line the loader stops on: ten fields, one of them no integer. *)
Definition faulty (line : string) : Prop :=
  kept line = true /\ ~ integer_fields line.

(** Two results of the loader, one after the other. *)
Definition append_loads (r1 r2 : result (list (list Z) * list Z))
  : result (list (list Z) * list Z) :=
  '(x1, y1) <- r1 ;; '(x2, y2) <- r2 ;; Ok (x1 ++ x2, y1 ++ y2).

(** ** The entries typed at the prompt *)

Module Prompt.
Import PartC.

(** [s.split(",")]; [cur] is the piece being read, last character
    first. *)
Fixpoint split_comma (cur s : list ascii) : list (list ascii) :=
  match s with
  | [] => [rev cur]
  | c :: t =>
      if Ascii.eqb c "," then rev cur :: split_comma [] t
      else split_comma (c :: cur) t
  end.

(** [int(s)] for a string that may carry white space around the
    literal. *)
Definition int_of_text (s : list ascii) : result Z := py_int (strip s).

(** The [try] block of [playGame] on the text typed at the prompt:
    [move = input().strip()], [row_str, col_str = move.split(",")],
    [row, col = int(row_str), int(col_str)]; the [except] branch, taken
    on [ValueError], gives [None]. *)
Definition read_entry (text : string) : entry :=
  match split_comma [] (strip (list_ascii_of_string text)) with
  | [row_str; col_str] =>
      match int_of_text row_str, int_of_text col_str with
      | Ok row, Ok col => Some (row, col)
      | _, _ => None
      end
  | _ => None
  end.

End Prompt.



(** The number of commas of a text. *)
Definition commas (s : list ascii) : nat :=
  length (filter (fun c => Ascii.eqb c ",") s).




(** ** The display of the board *)

Module Display.

(** The one-character string a cell holds. *)
Definition mark_text (m : mark) : string :=
  match m with Blank => " " | X => "X" | O => "O" end%string.

(** [sep.join(items)] *)
Fixpoint join (sep : string) (items : list string) : string :=
  match items with
  | [] => ""%string
  | [x] => x
  | x :: rest => (x ++ sep ++ join sep rest)%string
  end.

(** [f"{i}"] for a row number. *)
Definition index_text (i : nat) : string :=
  DecimalString.NilEmpty.string_of_uint (Nat.to_uint i).

(** The first line printed: a line feed, then the column numbers. *)
Definition header : string := String (ascii_of_nat 10) "   0   1   2".

Definition rule : string := "  -----------".

(** [Board.printBoard], the same in the three parts: the arguments of
    the calls of [print], in order. *)
Definition printBoard (b : board) : result (list string) :=
  out <- for_each
           (fun i out =>
              row <- getitem b i ;;
              let line := (index_text i ++ "  "
                           ++ join " | " (map mark_text row))%string in
              if (i <? 2)%nat then Ok (out ++ [line; rule])
              else Ok (out ++ [line]))
           range3 [header] ;;
  Ok (out ++ [""%string]).

End Display.

(** ** Basic facts *)

Lemma mark_eqb_eq (a b : mark) : mark_eqb a b = true <-> a = b.
Proof. destruct a, b; simpl; split; congruence. Qed.

Lemma mark_eqb_refl (a : mark) : mark_eqb a a = true.
Proof. now destruct a. Qed.

Lemma is_3x3_inv (b : board) :
  is_3x3 b ->
  exists a0 a1 a2 b0 b1 b2 c0 c1 c2,
    b = [[a0; a1; a2]; [b0; b1; b2]; [c0; c1; c2]].
Proof.
  intros [Hl Hr].
  destruct b as [|r0 [|r1 [|r2 [|]]]]; try discriminate.
  inversion Hr as [|? ? H0 Hr1]; subst.
  inversion Hr1 as [|? ? H1 Hr2]; subst.
  inversion Hr2 as [|? ? H2 _]; subst.
  destruct r0 as [|? [|? [|? [|]]]]; try discriminate.
  destruct r1 as [|? [|? [|? [|]]]]; try discriminate.
  destruct r2 as [|? [|? [|? [|]]]]; try discriminate.
  repeat eexists.
Qed.

Lemma is_3x3_intro a0 a1 a2 b0 b1 b2 c0 c1 c2 :
  is_3x3 [[a0; a1; a2]; [b0; b1; b2]; [c0; c1; c2]].
Proof. split; [reflexivity | repeat constructor]. Qed.

(** Destructs a well-formed board into its nine cells. *)
Ltac board9 H :=
  let a0 := fresh "a0" in let a1 := fresh "a1" in let a2 := fresh "a2" in
  let b0 := fresh "b0" in let b1 := fresh "b1" in let b2 := fresh "b2" in
  let c0 := fresh "c0" in let c1 := fresh "c1" in let c2 := fresh "c2" in
  destruct (is_3x3_inv H)
    as (a0 & a1 & a2 & b0 & b1 & b2 & c0 & c1 & c2 & ->).

(** Enumerates an index below three. *)
Ltac below3 i H :=
  destruct i as [|[|[|i]]]; [ | | | exfalso; lia ]; clear H.

Lemma cell_at (b : board) (i j : nat) :
  is_3x3 b -> (i < 3)%nat -> (j < 3)%nat -> cell b i j = Ok (at_ b i j).
Proof.
  intros Hb Hi Hj. board9 Hb. below3 i Hi; below3 j Hj; reflexivity.
Qed.

Lemma set_cell_place (b : board) (i j : nat) (v : mark) :
  is_3x3 b -> (i < 3)%nat -> (j < 3)%nat ->
  set_cell b i j v = Ok (place b i j v).
Proof.
  intros Hb Hi Hj. board9 Hb. below3 i Hi; below3 j Hj; reflexivity.
Qed.

Lemma place_3x3 (b : board) (i j : nat) (v : mark) :
  is_3x3 b -> is_3x3 (place b i j v).
Proof.
  intros Hb. board9 Hb.
  destruct i as [|[|[|i]]]; destruct j as [|[|[|j]]];
    cbn; apply is_3x3_intro.
Qed.

Lemma place_undo (b : board) (i j : nat) (v : mark) :
  is_3x3 b -> at_ b i j = Blank -> place (place b i j v) i j Blank = b.
Proof.
  intros Hb. board9 Hb.
  destruct i as [|[|[|i]]]; destruct j as [|[|[|j]]];
    cbn; intros E; rewrite <- ?E; try reflexivity.
Qed.

Lemma at_place_same (b : board) (i j : nat) (v : mark) :
  is_3x3 b -> (i < 3)%nat -> (j < 3)%nat -> at_ (place b i j v) i j = v.
Proof.
  intros Hb Hi Hj. board9 Hb. below3 i Hi; below3 j Hj; reflexivity.
Qed.

Lemma length_filter_cons {A} (f : A -> bool) (x : A) (l : list A) :
  length (filter f (x :: l)) = ((if f x then 1 else 0) + length (filter f l))%nat.
Proof. simpl. now destruct (f x). Qed.

Lemma count_mark_9 m a0 a1 a2 b0 b1 b2 c0 c1 c2 :
  count_mark m [[a0; a1; a2]; [b0; b1; b2]; [c0; c1; c2]]
  = ((if mark_eqb m a0 then 1 else 0) + (if mark_eqb m a1 then 1 else 0)
     + (if mark_eqb m a2 then 1 else 0) + (if mark_eqb m b0 then 1 else 0)
     + (if mark_eqb m b1 then 1 else 0) + (if mark_eqb m b2 then 1 else 0)
     + (if mark_eqb m c0 then 1 else 0) + (if mark_eqb m c1 then 1 else 0)
     + (if mark_eqb m c2 then 1 else 0))%nat.
Proof.
  unfold count_mark.
  change (concat [[a0; a1; a2]; [b0; b1; b2]; [c0; c1; c2]])
    with [a0; a1; a2; b0; b1; b2; c0; c1; c2].
  rewrite !length_filter_cons. simpl. lia.
Qed.

Lemma count_place (b : board) (i j : nat) (v m : mark) :
  is_3x3 b -> (i < 3)%nat -> (j < 3)%nat ->
  (count_mark m (place b i j v)
     + (if mark_eqb m (at_ b i j) then 1 else 0)
   = count_mark m b + (if mark_eqb m v then 1 else 0))%nat.
Proof.
  intros Hb Hi Hj. board9 Hb.
  below3 i Hi; below3 j Hj; cbn [place list_set nth at_];
    rewrite !count_mark_9; lia.
Qed.

Lemma blanks_place (b : board) (i j : nat) (v : mark) :
  is_3x3 b -> (i < 3)%nat -> (j < 3)%nat ->
  at_ b i j = Blank -> v <> Blank ->
  S (blanks (place b i j v)) = blanks b.
Proof.
  intros Hb Hi Hj E Hv. unfold blanks.
  pose proof (count_place v Blank Hb Hi Hj) as H.
  rewrite E in H. simpl in H.
  destruct v; simpl in H; try congruence; lia.
Qed.

Lemma lines_in_range l i j :
  In l lines -> In (i, j) l -> (i < 3)%nat /\ (j < 3)%nat.
Proof.
  unfold lines. simpl.
  intros Hl Hp.
  repeat (destruct Hl as [<- | Hl];
          [ simpl in Hp;
            repeat (destruct Hp as [Hp | Hp];
                    [ inversion Hp; subst; lia | ]);
            contradiction | ]).
  contradiction.
Qed.

Lemma has_lineb_spec (b : board) (p : mark) :
  is_3x3 b -> (has_lineb b p = true <-> has_line b p).
Proof.
  intros Hb. unfold has_lineb, has_line. rewrite existsb_exists.
  split; intros (l & Hl & H); exists l; split; trivial.
  - rewrite forallb_forall in H. intros i j Hij.
    destruct (@lines_in_range l i j Hl Hij) as [Hi Hj].
    rewrite (cell_at Hb Hi Hj). f_equal.
    apply mark_eqb_eq. exact (H (i, j) Hij).
  - apply forallb_forall. intros [i j] Hij.
    destruct (@lines_in_range l i j Hl Hij) as [Hi Hj].
    specialize (H i j Hij). rewrite (cell_at Hb Hi Hj) in H.
    apply mark_eqb_eq. congruence.
Qed.

Lemma positions_in_range :
  Forall (fun p => (fst p < 3)%nat /\ (snd p < 3)%nat) positions.
Proof. repeat constructor. Qed.

Lemma in_positions (i j : nat) :
  (i < 3)%nat -> (j < 3)%nat -> In (i, j) positions.
Proof.
  intros Hi Hj. below3 i Hi; below3 j Hj; simpl; tauto.
Qed.

Lemma no_blank_false (b : board) :
  is_3x3 b -> no_blank b = false ->
  exists p, In p positions /\ at_ b (fst p) (snd p) = Blank.
Proof.
  intros Hb. board9 Hb. unfold no_blank.
  change (concat [[a0; a1; a2]; [b0; b1; b2]; [c0; c1; c2]])
    with [a0; a1; a2; b0; b1; b2; c0; c1; c2].
  intros H.
  assert (E : exists x, In x [a0; a1; a2; b0; b1; b2; c0; c1; c2]
                        /\ x = Blank).
  { destruct (existsb (fun c => mark_eqb c Blank)
                [a0; a1; a2; b0; b1; b2; c0; c1; c2]) eqn:Ex.
    - apply existsb_exists in Ex. destruct Ex as (x & Hx & Hm).
      exists x. split; trivial. now apply mark_eqb_eq.
    - exfalso.
      assert (forallb (fun c => negb (mark_eqb c Blank))
                [a0; a1; a2; b0; b1; b2; c0; c1; c2] = true) as F.
      { apply forallb_forall. intros x Hx.
        destruct (mark_eqb x Blank) eqn:Em; trivial.
        assert (existsb (fun c => mark_eqb c Blank)
                  [a0; a1; a2; b0; b1; b2; c0; c1; c2] = true)
          by (apply existsb_exists; eauto).
        congruence. }
      congruence. }
  destruct E as (x & Hx & ->). simpl in Hx.
  decompose [or] Hx; try contradiction; subst;
    [ exists (0,0) | exists (0,1) | exists (0,2)
    | exists (1,0) | exists (1,1) | exists (1,2)
    | exists (2,0) | exists (2,1) | exists (2,2) ];
    (split; [ simpl; tauto | reflexivity ]).
Qed.

Lemma no_blank_true (b : board) (i j : nat) :
  is_3x3 b -> (i < 3)%nat -> (j < 3)%nat ->
  no_blank b = true -> at_ b i j <> Blank.
Proof.
  intros Hb Hi Hj. board9 Hb. unfold no_blank.
  change (concat [[a0; a1; a2]; [b0; b1; b2]; [c0; c1; c2]])
    with [a0; a1; a2; b0; b1; b2; c0; c1; c2].
  rewrite forallb_forall. intros H E.
  assert (In (at_ [[a0; a1; a2]; [b0; b1; b2]; [c0; c1; c2]] i j)
             [a0; a1; a2; b0; b1; b2; c0; c1; c2]) as Hin
    by (below3 i Hi; below3 j Hj; simpl; tauto).
  specialize (H _ Hin). rewrite E in H. discriminate.
Qed.

(** The nested [range(3)] loops visit [positions] in order. *)
Lemma for_each_positions {S} (f : nat -> nat -> S -> result S) (s : S) :
  for_each (fun i => for_each (fun j => f i j) range3) range3 s
  = for_each (fun p => f (fst p) (snd p)) positions s.
Proof.
  unfold positions, range3. simpl.
  repeat match goal with
         | |- context [bind (f ?i ?j ?t) _] =>
             destruct (f i j t); simpl; try reflexivity
         end.
Qed.

Module PartB_facts.
Import PartB PartB_spec.

Lemma checkWinState_3x3 (b : board) (p : mark) :
  is_3x3 b -> checkWinState b p = Ok (has_lineb b p).
Proof.
  intros Hb. board9 Hb. unfold checkWinState, has_lineb. cbn.
  destruct (mark_eqb a0 p), (mark_eqb a1 p), (mark_eqb a2 p),
    (mark_eqb b0 p), (mark_eqb b1 p), (mark_eqb b2 p),
    (mark_eqb c0 p), (mark_eqb c1 p), (mark_eqb c2 p); reflexivity.
Qed.

Lemma score_max_decided a c :
  a = NegInf \/ decided a -> decided c -> decided (score_max a c).
Proof.
  intros [-> | (x & -> & Hx)] (y & -> & Hy); unfold score_max; simpl.
  - exists y; auto.
  - destruct (x <? y)%Z; [exists y | exists x]; auto.
Qed.

Lemma score_min_decided a c :
  a = PosInf \/ decided a -> decided c -> decided (score_min a c).
Proof.
  intros [-> | (x & -> & Hx)] (y & -> & Hy); unfold score_min; simpl.
  - exists y; auto.
  - destruct (y <? x)%Z; [exists y | exists x]; auto.
Qed.

(** *** The search loop over a board that every recursive call restores *)

Section SearchLoop.

Variable rec : board -> result (score * board).
Variable who : mark.
Variable pick : score -> score -> score.
Variable b : board.
Variable v : nat -> nat -> score.

Hypothesis Hb : is_3x3 b.
Hypothesis Hrec : forall i j, (i < 3)%nat -> (j < 3)%nat ->
  at_ b i j = Blank ->
  rec (place b i j who) = Ok (v i j, place b i j who).

Lemma minimax_try_ok i j best :
  (i < 3)%nat -> (j < 3)%nat ->
  minimax_try rec who pick i j (best, b)
  = Ok (if mark_eqb (at_ b i j) Blank then pick best (v i j) else best, b).
Proof.
  intros Hi Hj. unfold minimax_try.
  rewrite (cell_at Hb Hi Hj). simpl.
  destruct (mark_eqb (at_ b i j) Blank) eqn:E; trivial.
  apply mark_eqb_eq in E.
  rewrite (set_cell_place who Hb Hi Hj). simpl.
  rewrite (Hrec Hi Hj E). simpl.
  rewrite (set_cell_place Blank (place_3x3 i j who Hb) Hi Hj). simpl.
  now rewrite (place_undo i j who Hb E).
Qed.

Lemma search_loop_ok ps :
  Forall (fun p => (fst p < 3)%nat /\ (snd p < 3)%nat) ps ->
  forall best,
    for_each (fun p => minimax_try rec who pick (fst p) (snd p)) ps (best, b)
    = Ok (fold_pick pick b v ps best, b).
Proof.
  induction 1 as [|p ps [Hi Hj] _ IH]; intros best; cbn [for_each]; trivial.
  rewrite (minimax_try_ok best Hi Hj). cbn [bind]. apply IH.
Qed.

Section Decided.

Variable init : score.
Hypothesis Hv : forall i j, (i < 3)%nat -> (j < 3)%nat ->
  at_ b i j = Blank -> decided (v i j).
Hypothesis Hpick : forall a c,
  a = init \/ decided a -> decided c -> decided (pick a c).

Lemma fold_pick_decided ps :
  Forall (fun p => (fst p < 3)%nat /\ (snd p < 3)%nat) ps ->
  forall best, best = init \/ decided best ->
    (fold_pick pick b v ps best = init
     \/ decided (fold_pick pick b v ps best))
    /\ (decided best
        \/ (exists p, In p ps /\ at_ b (fst p) (snd p) = Blank) ->
        decided (fold_pick pick b v ps best)).
Proof.
  induction 1 as [|p ps [Hi Hj] _ IH]; intros best Hbest.
  - simpl. split; trivial. intros [D | (p & [] & _)]; exact D.
  - unfold fold_pick. simpl. fold (fold_pick pick b v ps).
    destruct (mark_eqb (at_ b (fst p) (snd p)) Blank) eqn:E.
    + apply mark_eqb_eq in E.
      assert (decided (pick best (v (fst p) (snd p)))) as D
        by (apply Hpick; auto).
      destruct (IH _ (or_intror D)) as [H1 H2]. split; auto.
    + destruct (IH _ Hbest) as [H1 H2]. split; trivial.
      intros [D | (q & [<- | Hq] & Eq)]; auto.
      * rewrite Eq in E. discriminate.
      * apply H2. right. eauto.
Qed.

End Decided.

End SearchLoop.

Lemma search_fold rec who pick init b :
  is_3x3 b ->
  (forall i j, (i < 3)%nat -> (j < 3)%nat -> at_ b i j = Blank ->
     exists s, rec (place b i j who) = Ok (s, place b i j who)) ->
  search rec who pick init b
  = Ok (fold_pick pick b (fun i j => score_of (rec (place b i j who)))
          positions init, b).
Proof.
  intros Hb Hrec. unfold search.
  rewrite (for_each_positions (fun i j => minimax_try rec who pick i j)).
  apply search_loop_ok; trivial using positions_in_range.
  intros i j Hi Hj E. destruct (Hrec i j Hi Hj E) as (s & ->). reflexivity.
Qed.

Lemma search_decided rec who pick init b :
  is_3x3 b -> no_blank b = false ->
  (forall i j, (i < 3)%nat -> (j < 3)%nat -> at_ b i j = Blank ->
     exists s, rec (place b i j who) = Ok (s, place b i j who)
               /\ decided s) ->
  (forall a c, a = init \/ decided a -> decided c -> decided (pick a c)) ->
  exists s, search rec who pick init b = Ok (s, b) /\ decided s.
Proof.
  intros Hb Hnb Hrec Hpick.
  rewrite search_fold; trivial.
  - eexists; split; [reflexivity|].
    eapply fold_pick_decided with (init := init);
      eauto using positions_in_range.
    + intros i j Hi Hj E. destruct (Hrec i j Hi Hj E) as (s & -> & D).
      exact D.
    + right. now apply no_blank_false.
  - intros i j Hi Hj E. destruct (Hrec i j Hi Hj E) as (s & H & _). eauto.
Qed.

Lemma search_ext rec rec' who pick init b :
  is_3x3 b ->
  (forall i j, (i < 3)%nat -> (j < 3)%nat -> at_ b i j = Blank ->
     exists s, rec (place b i j who) = Ok (s, place b i j who)) ->
  (forall i j, (i < 3)%nat -> (j < 3)%nat -> at_ b i j = Blank ->
     rec' (place b i j who) = rec (place b i j who)) ->
  search rec' who pick init b = search rec who pick init b.
Proof.
  intros Hb Hrec Hext. unfold search.
  rewrite (for_each_positions (fun i j => minimax_try rec who pick i j)).
  rewrite (for_each_positions (fun i j => minimax_try rec' who pick i j)).
  set (v := fun i j => score_of (rec (place b i j who))).
  rewrite (@search_loop_ok rec who pick b v);
    trivial using positions_in_range.
  - rewrite (@search_loop_ok rec' who pick b v);
      trivial using positions_in_range.
    intros i j Hi Hj E. rewrite (Hext i j Hi Hj E).
    destruct (Hrec i j Hi Hj E) as (s & H). unfold v. now rewrite H.
  - intros i j Hi Hj E.
    destruct (Hrec i j Hi Hj E) as (s & H). unfold v. now rewrite H.
Qed.

Lemma minimax_unfold n b m :
  minimax (S n) b m =
  (wo <- checkWinState b O ;;
   if wo then Ok (Fin 1, b) else
   wx <- checkWinState b X ;;
   if wx then Ok (Fin (-1), b) else
   if no_blank b then Ok (Fin 0, b) else
   if m then search (fun b' => minimax n b' false) O score_max NegInf b
   else search (fun b' => minimax n b' true) X score_min PosInf b).
Proof. reflexivity. Qed.

Lemma minimax_3x3 n b m :
  is_3x3 b ->
  minimax (S n) b m =
  if has_lineb b O then Ok (Fin 1, b) else
  if has_lineb b X then Ok (Fin (-1), b) else
  if no_blank b then Ok (Fin 0, b) else
  if m then search (fun b' => minimax n b' false) O score_max NegInf b
  else search (fun b' => minimax n b' true) X score_min PosInf b.
Proof.
  intros Hb. rewrite minimax_unfold, !checkWinState_3x3 by trivial.
  cbn [bind]. destruct (has_lineb b O); trivial.
Qed.

(** With more fuel than blank cells, [minimax] returns a decided score,
    leaves the board as it found it, and more fuel changes nothing. *)
Lemma minimax_main n :
  forall b m, is_3x3 b -> (blanks b < n)%nat ->
    (exists s, minimax n b m = Ok (s, b) /\ decided s)
    /\ minimax (S n) b m = minimax n b m.
Proof.
  induction n as [|n IH]; intros b m Hb Hn; [lia|].
  assert (Hsub : forall who, who <> Blank ->
            forall i j, (i < 3)%nat -> (j < 3)%nat -> at_ b i j = Blank ->
              is_3x3 (place b i j who)
              /\ (blanks (place b i j who) < n)%nat).
  { intros who Hw i j Hi Hj E. split; [now apply place_3x3|].
    pose proof (blanks_place Hb Hi Hj E Hw). lia. }
  rewrite (minimax_3x3 (S n)), (minimax_3x3 n) by trivial.
  destruct (has_lineb b O).
  { split; trivial. exists (Fin 1). split; trivial.
    exists 1%Z. split; trivial; lia. }
  destruct (has_lineb b X).
  { split; trivial. exists (Fin (-1)). split; trivial.
    exists (-1)%Z. split; trivial; lia. }
  destruct (no_blank b) eqn:Hnb.
  { split; trivial. exists (Fin 0). split; trivial.
    exists 0%Z. split; trivial; lia. }
  destruct m; split.
  - apply search_decided; trivial; [|apply score_max_decided].
    intros i j Hi Hj E.
    destruct (Hsub O ltac:(discriminate) i j Hi Hj E) as [H3 Hlt].
    exact (proj1 (IH _ false H3 Hlt)).
  - apply search_ext; trivial; intros i j Hi Hj E;
      destruct (Hsub O ltac:(discriminate) i j Hi Hj E) as [H3 Hlt];
      destruct (IH _ false H3 Hlt) as [(s & H & _) Hs]; eauto.
  - apply search_decided; trivial; [|apply score_min_decided].
    intros i j Hi Hj E.
    destruct (Hsub X ltac:(discriminate) i j Hi Hj E) as [H3 Hlt].
    exact (proj1 (IH _ true H3 Hlt)).
  - apply search_ext; trivial; intros i j Hi Hj E;
      destruct (Hsub X ltac:(discriminate) i j Hi Hj E) as [H3 Hlt];
      destruct (IH _ true H3 Hlt) as [(s & H & _) Hs]; eauto.
Qed.

Lemma blanks_le_9 b : is_3x3 b -> (blanks b <= 9)%nat.
Proof.
  intros Hb. board9 Hb. unfold blanks. rewrite count_mark_9.
  repeat match goal with
         | |- context [mark_eqb Blank ?x] => destruct (mark_eqb Blank x)
         end; simpl; lia.
Qed.

Lemma minimax_more_fuel n k b m :
  is_3x3 b -> (blanks b < n)%nat -> minimax (k + n) b m = minimax n b m.
Proof.
  intros Hb Hn. induction k as [|k IHk]; trivial.
  simpl plus. rewrite <- IHk. apply minimax_main; trivial. lia.
Qed.

Lemma minimax_fuel_irrelevant n n' b m :
  is_3x3 b -> (blanks b < n)%nat -> (blanks b < n')%nat ->
  minimax n b m = minimax n' b m.
Proof.
  intros Hb Hn Hn'.
  destruct (Nat.le_ge_cases n n') as [H | H].
  - replace n' with ((n' - n) + n)%nat by lia.
    symmetry. now apply minimax_more_fuel.
  - replace n with ((n - n') + n')%nat by lia.
    now apply minimax_more_fuel.
Qed.

(** *** The move-selection loop of [getComputerMove] *)

Lemma selected_step b val seen st p :
  selected b val seen st ->
  selected b val (seen ++ [p]) (select_step b val st p).
Proof.
  unfold select_step, selected.
  destruct st as [best [q|]]; simpl.
  - intros (-> & Eq & pre & post & -> & Hpre & Hpost).
    destruct (mark_eqb (at_ b (fst p) (snd p)) Blank) eqn:E; simpl.
    + apply mark_eqb_eq in E.
      destruct (val (fst q) (snd q) <? val (fst p) (snd p))%Z eqn:L; simpl.
      * apply Z.ltb_lt in L. split; trivial. split; trivial.
        exists (pre ++ q :: post), []. split; [reflexivity|].
        split; [|intros ? []].
        intros r Hr Er. apply in_app_or in Hr.
        destruct Hr as [Hr | [<- | Hr]].
        -- specialize (Hpre r Hr Er). lia.
        -- lia.
        -- specialize (Hpost r Hr Er). lia.
      * apply Z.ltb_ge in L. split; trivial. split; trivial.
        exists pre, (post ++ [p]).
        split; [now rewrite <- app_assoc|]. split; trivial.
        intros r Hr Er. apply in_app_or in Hr.
        destruct Hr as [Hr | [<- | []]]; auto.
    + split; trivial. split; trivial.
      exists pre, (post ++ [p]).
      split; [now rewrite <- app_assoc|]. split; trivial.
      intros r Hr Er. apply in_app_or in Hr.
      destruct Hr as [Hr | [<- | []]]; auto.
      rewrite Er in E. discriminate.
  - intros (-> & Hseen).
    destruct (mark_eqb (at_ b (fst p) (snd p)) Blank) eqn:E; simpl.
    + apply mark_eqb_eq in E. split; trivial. split; trivial.
      exists seen, []. split; trivial. split; [|intros ? []].
      intros r Hr Er. now destruct (Hseen r Hr).
    + split; trivial. intros r Hr. apply in_app_or in Hr.
      destruct Hr as [Hr | [<- | []]]; auto.
      intros Er. rewrite Er in E. discriminate.
Qed.

Lemma selected_fold b val ps :
  forall seen st, selected b val seen st ->
    selected b val (seen ++ ps) (fold_left (select_step b val) ps st).
Proof.
  induction ps as [|p ps IH]; intros seen st H; simpl.
  - now rewrite app_nil_r.
  - replace (seen ++ p :: ps) with ((seen ++ [p]) ++ ps)
      by now rewrite <- app_assoc.
    apply IH. now apply selected_step.
Qed.

Lemma positions_split pre q post :
  positions = pre ++ q :: post ->
  forall i j, (i < 3)%nat -> (j < 3)%nat ->
    ((3 * i + j < 3 * fst q + snd q)%nat -> In (i, j) pre)
    /\ ((3 * fst q + snd q < 3 * i + j)%nat -> In (i, j) post).
Proof.
  unfold positions, range3. simpl. intros H i j Hi Hj.
  do 9 (destruct pre as [|? pre];
        [ injection H as <- <-; below3 i Hi; below3 j Hj; simpl;
          split; intros; try lia; tauto
        | injection H as <- H ]).
  destruct pre; discriminate.
Qed.

Lemma minimax_ok fuel b m :
  is_3x3 b -> (blanks b < fuel)%nat ->
  exists z, minimax fuel b m = Ok (Fin z, b) /\ (-1 <= z <= 1)%Z.
Proof.
  intros Hb Hn.
  destruct (proj1 (minimax_main m Hb Hn)) as (s & H & z & -> & Hz).
  eauto.
Qed.

Section ComputerLoop.

Variable fuel : nat.
Variable b : board.
Variable val : nat -> nat -> Z.

Hypothesis Hb : is_3x3 b.
Hypothesis Hrec : forall i j, (i < 3)%nat -> (j < 3)%nat ->
  at_ b i j = Blank ->
  minimax fuel (place b i j O) false = Ok (Fin (val i j), place b i j O).

Lemma computer_try_ok i j st :
  (i < 3)%nat -> (j < 3)%nat ->
  computer_try fuel i j (st, b) = Ok (select_step b val st (i, j), b).
Proof.
  intros Hi Hj. destruct st as [best mv].
  unfold computer_try, select_step.
  rewrite (cell_at Hb Hi Hj). cbn [bind fst snd].
  destruct (mark_eqb (at_ b i j) Blank) eqn:E; trivial.
  apply mark_eqb_eq in E.
  rewrite (set_cell_place O Hb Hi Hj). cbn [bind].
  rewrite (Hrec Hi Hj E). cbn [bind].
  rewrite (set_cell_place Blank (place_3x3 i j O Hb) Hi Hj). cbn [bind].
  rewrite (place_undo i j O Hb E).
  now destruct (score_ltb best (Fin (val i j))).
Qed.

Lemma computer_loop_ok ps :
  Forall (fun p => (fst p < 3)%nat /\ (snd p < 3)%nat) ps ->
  forall st,
    for_each (fun p => computer_try fuel (fst p) (snd p)) ps (st, b)
    = Ok (fold_left (select_step b val) ps st, b).
Proof.
  induction 1 as [|p ps [Hi Hj] _ IH]; intros st; cbn [for_each fold_left];
    trivial.
  rewrite (computer_try_ok st Hi Hj). cbn [bind].
  destruct p as [i j]. apply IH.
Qed.

Lemma getComputerMove_fold :
  getComputerMove fuel b
  = Ok (snd (fold_left (select_step b val) positions (NegInf, None)), b).
Proof.
  unfold getComputerMove.
  rewrite (for_each_positions (fun i j => computer_try fuel i j)).
  rewrite (computer_loop_ok positions_in_range). cbn [bind].
  now destruct (fold_left (select_step b val) positions (NegInf, None)).
Qed.

End ComputerLoop.

Lemma full_no_blank b : is_3x3 b -> (no_blank b = true <-> full b).
Proof.
  intros Hb. split.
  - intros H i j Hi Hj. rewrite (cell_at Hb Hi Hj). intros E.
    apply (no_blank_true Hb Hi Hj H). congruence.
  - intros F. destruct (no_blank b) eqn:E; trivial.
    destruct (no_blank_false Hb E) as ([i j] & Hin & Hblank).
    pose proof positions_in_range as R.
    rewrite Forall_forall in R. destruct (R _ Hin) as [Hi Hj].
    simpl in *. destruct (F i j Hi Hj).
    rewrite (cell_at Hb Hi Hj). now f_equal.
Qed.

Lemma not_full_blank b :
  is_3x3 b -> ~ full b ->
  exists p, In p positions /\ at_ b (fst p) (snd p) = Blank.
Proof.
  intros Hb F. apply no_blank_false; trivial.
  destruct (no_blank b) eqn:E; trivial.
  destruct F. now apply full_no_blank.
Qed.

Lemma has_line_false b p :
  is_3x3 b -> has_lineb b p = false -> ~ has_line b p.
Proof.
  intros Hb E H. apply (has_lineb_spec p Hb) in H. congruence.
Qed.

Lemma move_value_ok fuel b i j z :
  is_3x3 b -> (i < 3)%nat -> (j < 3)%nat ->
  minimax fuel (place b i j O) false = Ok (Fin z, place b i j O) ->
  move_value fuel b i j = Ok (Fin z).
Proof.
  intros Hb Hi Hj H. unfold move_value.
  rewrite (set_cell_place O Hb Hi Hj). cbn [bind]. now rewrite H.
Qed.

End PartB_facts.

Import PartB PartB_spec PartB_facts.

(** ** Part B: the minimax evaluator and the computer's move *)

(** C1.  On a three-by-three board the evaluator returns the terminal
    value at once, with no fuel spent on recursion: +1 when O holds a
    line, else -1 when X holds a line, else 0 when no cell is blank. *)
Theorem minimax_terminal_value (fuel : nat) (b : board) (m : bool) (z : Z) :
  is_3x3 b -> terminal_value b z ->
  minimax (S fuel) b m = Ok (Fin z, b).
Proof.
  intros Hb T. rewrite minimax_3x3 by trivial.
  destruct T as [HO | HO HX | HO HX F].
  - apply (has_lineb_spec O Hb) in HO. now rewrite HO.
  - destruct (has_lineb b O) eqn:EO;
      [destruct HO; now apply has_lineb_spec|].
    apply (has_lineb_spec X Hb) in HX. now rewrite HX.
  - destruct (has_lineb b O) eqn:EO;
      [destruct HO; now apply has_lineb_spec|].
    destruct (has_lineb b X) eqn:EX;
      [destruct HX; now apply has_lineb_spec|].
    apply (full_no_blank Hb) in F. now rewrite F.
Qed.

Lemma minimax_terminal_value_witness :
  minimax 1 [[O; O; O]; [X; X; Blank]; [Blank; Blank; X]] true
    = Ok (Fin 1, [[O; O; O]; [X; X; Blank]; [Blank; Blank; X]])
  /\ minimax 1 [[X; O; O]; [O; X; Blank]; [Blank; Blank; X]] true
    = Ok (Fin (-1), [[X; O; O]; [O; X; Blank]; [Blank; Blank; X]])
  /\ minimax 1 [[X; O; X]; [X; O; O]; [O; X; X]] true
    = Ok (Fin 0, [[X; O; X]; [X; O; O]; [O; X; X]]).
Proof.
  split; [|split].
  - apply minimax_terminal_value; [apply is_3x3_intro|].
    apply tv_O. apply has_lineb_spec; [apply is_3x3_intro|reflexivity].
  - apply minimax_terminal_value; [apply is_3x3_intro|].
    apply tv_X.
    + apply has_line_false; [apply is_3x3_intro|reflexivity].
    + apply has_lineb_spec; [apply is_3x3_intro|reflexivity].
  - apply minimax_terminal_value; [apply is_3x3_intro|].
    apply tv_full.
    + apply has_line_false; [apply is_3x3_intro|reflexivity].
    + apply has_line_false; [apply is_3x3_intro|reflexivity].
    + apply full_no_blank; [apply is_3x3_intro|reflexivity].
Defined.

(** C9.  On every three-by-three board, with more fuel than blank cells,
    [minimax] returns, and the score it returns is -1, 0 or +1: neither
    infinity sentinel is returned.  Further fuel does not change the
    result. *)
Theorem minimax_returns_decided (fuel : nat) (b : board) (m : bool) :
  is_3x3 b -> (blanks b < fuel)%nat ->
  (exists z b', minimax fuel b m = Ok (Fin z, b')
                /\ (z = -1 \/ z = 0 \/ z = 1)%Z)
  /\ forall fuel', (blanks b < fuel')%nat ->
       minimax fuel' b m = minimax fuel b m.
Proof.
  intros Hb Hn. split.
  - destruct (minimax_ok m Hb Hn) as (z & H & Hz).
    exists z, b. split; trivial. lia.
  - intros fuel' Hn'. now apply minimax_fuel_irrelevant.
Qed.

Lemma minimax_returns_decided_witness :
  (exists z b', minimax 10 Board_init true = Ok (Fin z, b')
                /\ (z = -1 \/ z = 0 \/ z = 1)%Z)
  /\ forall fuel', (blanks Board_init < fuel')%nat ->
       minimax fuel' Board_init true = minimax 10 Board_init true.
Proof.
  apply minimax_returns_decided.
  - apply is_3x3_intro.
  - vm_compute. lia.
Defined.

Lemma value_at_ok fuel b i j :
  is_3x3 b -> (blanks b <= fuel)%nat ->
  (i < 3)%nat -> (j < 3)%nat -> at_ b i j = Blank ->
  minimax fuel (place b i j O) false
  = Ok (Fin (value_at fuel b i j), place b i j O).
Proof.
  intros Hb Hn Hi Hj E. unfold value_at.
  assert (blanks (place b i j O) < fuel)%nat as Hlt.
  { pose proof (@blanks_place b i j O Hb Hi Hj E ltac:(discriminate)). lia. }
  destruct (minimax_ok false (place_3x3 i j O Hb) Hlt) as (z & -> & _).
  reflexivity.
Qed.

(** C4.  On every three-by-three board, with more fuel than blank cells,
    [minimax] and [getComputerMove] return and leave the board equal to
    the board they were called on. *)
Theorem search_leaves_board (fuel : nat) (b : board) :
  is_3x3 b -> (blanks b < fuel)%nat ->
  (forall m, exists s, minimax fuel b m = Ok (s, b))
  /\ (exists mv, getComputerMove fuel b = Ok (mv, b)).
Proof.
  intros Hb Hn. split.
  - intros m. destruct (minimax_ok m Hb Hn) as (z & H & _). eauto.
  - eexists.
    apply (@getComputerMove_fold fuel b (value_at fuel b) Hb).
    intros i j Hi Hj E. apply value_at_ok; trivial. lia.
Qed.

Lemma search_leaves_board_witness :
  (forall m, exists s,
      minimax 9 [[X; Blank; Blank]; [Blank; O; Blank]; [Blank; Blank; X]] m
      = Ok (s, [[X; Blank; Blank]; [Blank; O; Blank]; [Blank; Blank; X]]))
  /\ (exists mv,
        getComputerMove 9
          [[X; Blank; Blank]; [Blank; O; Blank]; [Blank; Blank; X]]
        = Ok (mv, [[X; Blank; Blank]; [Blank; O; Blank]; [Blank; Blank; X]])).
Proof.
  apply search_leaves_board.
  - apply is_3x3_intro.
  - vm_compute. lia.
Defined.

Lemma getComputerMove_selected (fuel : nat) (b : board) :
  is_3x3 b -> (blanks b <= fuel)%nat ->
  exists st,
    getComputerMove fuel b = Ok (snd st, b)
    /\ selected b (value_at fuel b) positions st.
Proof.
  intros Hb Hn.
  assert (Hrec : forall i j, (i < 3)%nat -> (j < 3)%nat ->
            at_ b i j = Blank ->
            minimax fuel (place b i j O) false
            = Ok (Fin (value_at fuel b i j), place b i j O))
    by (intros; now apply value_at_ok).
  exists (fold_left (select_step b (value_at fuel b)) positions
            (NegInf, None)).
  split; [exact (@getComputerMove_fold fuel b _ Hb Hrec)|].
  apply (@selected_fold b (value_at fuel b) positions [] (NegInf, None)).
  split; [reflexivity | intros p []].
Qed.

Lemma getComputerMove_some (fuel : nat) (b : board) :
  is_3x3 b -> (blanks b <= fuel)%nat -> ~ full b ->
  exists i j,
    getComputerMove fuel b = Ok (Some (i, j), b)
    /\ (i < 3)%nat /\ (j < 3)%nat.
Proof.
  intros Hb Hn Hnf.
  destruct (getComputerMove_selected Hb Hn) as ([best [[i j]|]] & M & S);
    unfold selected in S; cbn [fst snd] in S, M.
  - destruct S as (_ & _ & pre & post & Hsplit & _).
    assert (In (i, j) positions) as Hin
      by (rewrite Hsplit; apply in_or_app; right; now left).
    pose proof positions_in_range as R. rewrite Forall_forall in R.
    destruct (R _ Hin) as [Hi Hj]. eauto.
  - destruct S as (_ & Hnone).
    destruct (not_full_blank Hb Hnf) as (p & Hin & Hp).
    destruct (Hnone p Hin Hp).
Qed.

(** C2.  On every three-by-three board with a blank cell,
    [getComputerMove] returns a move: a blank cell in range, accepted by
    [validateEntry], whose value (O placed there, minimizer to move) is
    the greatest among the blank cells and strictly greater than the
    value of every blank cell before it in row-major order. *)
Theorem getComputerMove_first_best (fuel : nat) (g : Game) :
  is_3x3 (board_c g) -> (blanks (board_c g) <= fuel)%nat ->
  ~ full (board_c g) ->
  exists i j z,
    getComputerMove fuel (board_c g) = Ok (Some (i, j), board_c g)
    /\ (i < 3)%nat /\ (j < 3)%nat /\ cell (board_c g) i j = Ok Blank
    /\ validateEntry g (Z.of_nat i) (Z.of_nat j) = Ok true
    /\ move_value fuel (board_c g) i j = Ok (Fin z)
    /\ forall i' j', (i' < 3)%nat -> (j' < 3)%nat ->
         cell (board_c g) i' j' = Ok Blank ->
         exists z', move_value fuel (board_c g) i' j' = Ok (Fin z')
                    /\ (z' <= z)%Z
                    /\ ((3 * i' + j' < 3 * i + j)%nat -> (z' < z)%Z).
Proof.
  destruct g as [b t]. cbn [board_c]. intros Hb Hn Hnf.
  set (val := value_at fuel b).
  assert (Hrec : forall i j, (i < 3)%nat -> (j < 3)%nat ->
            at_ b i j = Blank ->
            minimax fuel (place b i j O) false
            = Ok (Fin (val i j), place b i j O))
    by (intros; now apply value_at_ok).
  destruct (getComputerMove_selected Hb Hn) as ([best [[i j]|]] & -> & S);
    fold val in S; unfold selected in S; cbn [fst snd] in S |- *.
  - destruct S as (-> & E & pre & post & Hsplit & Hpre & Hpost).
    assert (In (i, j) positions) as Hin
      by (rewrite Hsplit; apply in_or_app; right; now left).
    pose proof positions_in_range as R. rewrite Forall_forall in R.
    destruct (R _ Hin) as [Hi Hj]. cbn [fst snd] in Hi, Hj.
    exists i, j, (val i j).
    split; trivial. split; trivial. split; trivial.
    split; [rewrite (cell_at Hb Hi Hj); now f_equal|].
    split.
    { unfold validateEntry, in_range. cbn [board_c].
      replace ((0 <=? Z.of_nat i) && (Z.of_nat i <? 3)
               && ((0 <=? Z.of_nat j) && (Z.of_nat j <? 3)))%Z with true
        by (symmetry; rewrite !andb_true_iff, !Z.leb_le, !Z.ltb_lt; lia).
      rewrite !Nat2Z.id, (cell_at Hb Hi Hj). cbn [bind].
      now rewrite E. }
    split; [now apply move_value_ok; auto|].
    intros i' j' Hi' Hj' Hc.
    rewrite (cell_at Hb Hi' Hj') in Hc.
    assert (at_ b i' j' = Blank) as E' by congruence.
    exists (val i' j'). split; [now apply move_value_ok; auto|].
    destruct (positions_split _ _ _ Hsplit Hi' Hj') as [Hbefore Hafter].
    cbn [fst snd] in Hbefore, Hafter.
    destruct (Nat.lt_trichotomy (3 * i' + j') (3 * i + j)) as [L | [L | L]].
    + specialize (Hpre _ (Hbefore L) E'). cbn [fst snd] in Hpre.
      split; [lia | intros _; exact Hpre].
    + assert (i' = i /\ j' = j) as [-> ->] by lia. split; lia.
    + specialize (Hpost _ (Hafter L) E'). cbn [fst snd] in Hpost.
      split; [exact Hpost | lia].
  - destruct S as (_ & Hnone).
    destruct (not_full_blank Hb Hnf) as (p & Hin & Hp).
    destruct (Hnone p Hin Hp).
Qed.

Lemma getComputerMove_first_best_witness :
  let g := {| board_c := [[X; Blank; Blank]; [Blank; Blank; Blank];
                           [Blank; Blank; Blank]];
              turn := O |} in
  exists i j z,
    getComputerMove 9 (board_c g) = Ok (Some (i, j), board_c g)
    /\ (i < 3)%nat /\ (j < 3)%nat /\ cell (board_c g) i j = Ok Blank
    /\ validateEntry g (Z.of_nat i) (Z.of_nat j) = Ok true
    /\ move_value 9 (board_c g) i j = Ok (Fin z)
    /\ forall i' j', (i' < 3)%nat -> (j' < 3)%nat ->
         cell (board_c g) i' j' = Ok Blank ->
         exists z', move_value 9 (board_c g) i' j' = Ok (Fin z')
                    /\ (z' <= z)%Z
                    /\ ((3 * i' + j' < 3 * i + j)%nat -> (z' < z)%Z).
Proof.
  intros g. apply getComputerMove_first_best.
  - apply is_3x3_intro.
  - vm_compute. lia.
  - intros F. apply (F 0 1)%nat; [lia | lia | reflexivity].
Defined.

(** ** The turn loops of Parts A and B *)

Lemma in_range_spec row col :
  in_range row col = true <-> (0 <= row < 3 /\ 0 <= col < 3)%Z.
Proof.
  unfold in_range. rewrite !andb_true_iff, !Z.leb_le, !Z.ltb_lt. lia.
Qed.

Lemma in_range_nat row col :
  in_range row col = true ->
  (Z.to_nat row < 3)%nat /\ (Z.to_nat col < 3)%nat.
Proof. rewrite in_range_spec. lia. Qed.

Lemma validateEntry_A g row col :
  is_3x3 (board_c g) ->
  PartA.validateEntry g row col
  = Ok (in_range row col
        && mark_eqb (at_ (board_c g) (Z.to_nat row) (Z.to_nat col)) Blank).
Proof.
  intros Hb. unfold PartA.validateEntry.
  destruct (in_range row col) eqn:R; trivial.
  destruct (in_range_nat _ _ R) as [Hi Hj].
  rewrite (cell_at Hb Hi Hj). cbn [bind andb].
  now destruct (mark_eqb _ Blank).
Qed.

Lemma validateEntry_B g row col :
  is_3x3 (board_c g) ->
  PartB.validateEntry g row col
  = Ok (in_range row col
        && mark_eqb (at_ (board_c g) (Z.to_nat row) (Z.to_nat col)) Blank).
Proof.
  intros Hb. unfold PartB.validateEntry.
  destruct (in_range row col) eqn:R; trivial.
  destruct (in_range_nat _ _ R) as [Hi Hj].
  now rewrite (cell_at Hb Hi Hj).
Qed.

Lemma validateEntry_C g row col :
  is_3x3 (board_c g) ->
  PartC.validateEntry g row col
  = Ok (in_range row col
        && mark_eqb (at_ (board_c g) (Z.to_nat row) (Z.to_nat col)) Blank).
Proof.
  intros Hb. unfold PartC.validateEntry.
  destruct (in_range row col) eqn:R; trivial.
  destruct (in_range_nat _ _ R) as [Hi Hj].
  now rewrite (cell_at Hb Hi Hj).
Qed.

(** C7.  On a three-by-three board the three versions of [validateEntry]
    return the same boolean for all integers [row] and [col], and it is
    true exactly when both are at least 0 and below 3 and the cell they
    name is blank. *)
Theorem validateEntry_iff (g : Game) (row col : Z) :
  is_3x3 (board_c g) ->
  exists v,
    PartA.validateEntry g row col = Ok v
    /\ PartB.validateEntry g row col = Ok v
    /\ PartC.validateEntry g row col = Ok v
    /\ (v = true <->
        (0 <= row < 3)%Z /\ (0 <= col < 3)%Z
        /\ cell (board_c g) (Z.to_nat row) (Z.to_nat col) = Ok Blank).
Proof.
  intros Hb. eexists.
  split; [now apply validateEntry_A|].
  split; [now apply validateEntry_B|].
  split; [now apply validateEntry_C|].
  rewrite andb_true_iff, in_range_spec, mark_eqb_eq. split.
  - intros [R E]. assert (in_range row col = true) as R'
      by now apply in_range_spec.
    destruct (in_range_nat _ _ R') as [Hi Hj].
    rewrite (cell_at Hb Hi Hj), E. tauto.
  - intros (Hr & Hc & E). assert (in_range row col = true) as R'
      by now apply in_range_spec.
    destruct (in_range_nat _ _ R') as [Hi Hj].
    rewrite (cell_at Hb Hi Hj) in E. split; [tauto | congruence].
Qed.

Lemma validateEntry_iff_witness :
  let g := {| board_c := [[X; Blank; Blank]; [Blank; O; Blank];
                           [Blank; Blank; Blank]]; turn := X |} in
  (exists v,
     PartA.validateEntry g 3 0 = Ok v /\ PartB.validateEntry g 3 0 = Ok v
     /\ PartC.validateEntry g 3 0 = Ok v
     /\ (v = true <->
         (0 <= 3 < 3)%Z /\ (0 <= 0 < 3)%Z
         /\ cell (board_c g) (Z.to_nat 3) (Z.to_nat 0) = Ok Blank))
  /\ (exists v,
     PartA.validateEntry g (-1) 1 = Ok v
     /\ PartB.validateEntry g (-1) 1 = Ok v
     /\ PartC.validateEntry g (-1) 1 = Ok v
     /\ (v = true <->
         (0 <= -1 < 3)%Z /\ (0 <= 1 < 3)%Z
         /\ cell (board_c g) (Z.to_nat (-1)) (Z.to_nat 1) = Ok Blank))
  /\ (exists v,
     PartA.validateEntry g 2 1 = Ok v /\ PartB.validateEntry g 2 1 = Ok v
     /\ PartC.validateEntry g 2 1 = Ok v
     /\ (v = true <->
         (0 <= 2 < 3)%Z /\ (0 <= 1 < 3)%Z
         /\ cell (board_c g) (Z.to_nat 2) (Z.to_nat 1) = Ok Blank)).
Proof.
  intros g.
  split; [|split]; apply validateEntry_iff; apply is_3x3_intro.
Defined.

Lemma checkWin_A g :
  is_3x3 (board_c g) ->
  PartA.checkWin g = Ok (has_lineb (board_c g) (turn g)).
Proof.
  destruct g as [b p]. cbn [board_c turn]. intros Hb. board9 Hb.
  unfold PartA.checkWin, has_lineb. cbn.
  destruct (mark_eqb a0 p), (mark_eqb a1 p), (mark_eqb a2 p),
    (mark_eqb b0 p), (mark_eqb b1 p), (mark_eqb b2 p),
    (mark_eqb c0 p), (mark_eqb c1 p), (mark_eqb c2 p); reflexivity.
Qed.

Lemma checkWin_B g :
  is_3x3 (board_c g) ->
  PartB.checkWin g = Ok (has_lineb (board_c g) (turn g)).
Proof.
  destruct g as [b p]. cbn [board_c turn]. intros Hb. board9 Hb.
  unfold PartB.checkWin, has_lineb. cbn.
  destruct (mark_eqb a0 p), (mark_eqb a1 p), (mark_eqb a2 p),
    (mark_eqb b0 p), (mark_eqb b1 p), (mark_eqb b2 p),
    (mark_eqb c0 p), (mark_eqb c1 p), (mark_eqb c2 p); reflexivity.
Qed.

Lemma next_flow_transition b p :
  is_3x3 b -> transition b p (next_flow b p).
Proof.
  intros Hb. unfold next_flow.
  destruct (has_lineb b p) eqn:W.
  - apply to_win. now apply has_lineb_spec.
  - pose proof (has_line_false Hb W) as NW.
    destruct (no_blank b) eqn:F.
    + apply to_draw; trivial. now apply full_no_blank.
    + apply to_next; trivial. intros H.
      apply (full_no_blank Hb) in H. congruence.
Qed.

Lemma turn_body_A g row col :
  is_3x3 (board_c g) -> turn g = X \/ turn g = O ->
  PartA.validateEntry g row col = Ok true ->
  PartA.turn_body (Some (row, col)) g
  = Ok (next_flow
          (place (board_c g) (Z.to_nat row) (Z.to_nat col) (turn g))
          (turn g)).
Proof.
  intros Hb Ht V. unfold PartA.turn_body. rewrite V. cbn [bind negb].
  rewrite validateEntry_A in V by trivial.
  injection V as V. apply andb_true_iff in V. destruct V as [R _].
  destruct (in_range_nat _ _ R) as [Hi Hj].
  rewrite (set_cell_place (turn g) Hb Hi Hj). cbn [bind].
  rewrite checkWin_A by (cbn [board_c]; now apply place_3x3).
  cbn [bind board_c turn]. unfold next_flow, PartA.checkFull.
  cbn [board_c].
  destruct (has_lineb _ (turn g)); trivial.
  destruct (no_blank _); trivial.
  unfold PartA.switchPlayer. cbn [board_c turn].
  now destruct Ht as [-> | ->].
Qed.

Lemma end_of_turn_B b p :
  is_3x3 b -> p = X \/ p = O ->
  PartB.end_of_turn {| board_c := b; turn := p |} = Ok (next_flow b p).
Proof.
  intros Hb Ht. unfold PartB.end_of_turn, PartB.checkEnd.
  rewrite checkWin_B by trivial. cbn [bind board_c turn].
  unfold next_flow, PartB.checkFull. cbn [board_c].
  destruct (has_lineb b p) eqn:W.
  - cbn [bind]. now destruct Ht as [-> | ->].
  - cbn [bind]. destruct (no_blank b); trivial.
    unfold PartB.switchPlayer. cbn [board_c turn].
    now destruct Ht as [-> | ->].
Qed.

Lemma turn_body_B_human g row col fuel rest :
  is_3x3 (board_c g) -> turn g = X ->
  PartB.validateEntry g row col = Ok true ->
  PartB.turn_body fuel (Some (row, col) :: rest) g
  = Ok (next_flow (place (board_c g) (Z.to_nat row) (Z.to_nat col) X) X,
        rest).
Proof.
  intros Hb Ht V. unfold PartB.turn_body. rewrite Ht. cbn [mark_eqb].
  rewrite V. cbn [bind negb].
  rewrite validateEntry_B in V by trivial.
  injection V as V. apply andb_true_iff in V. destruct V as [R _].
  destruct (in_range_nat _ _ R) as [Hi Hj].
  rewrite (set_cell_place X Hb Hi Hj). cbn [bind].
  rewrite end_of_turn_B; auto using place_3x3.
Qed.

Lemma turn_body_B_computer g i j fuel inputs :
  is_3x3 (board_c g) -> turn g = O ->
  (i < 3)%nat -> (j < 3)%nat ->
  PartB.getComputerMove fuel (board_c g) = Ok (Some (i, j), board_c g) ->
  PartB.turn_body fuel inputs g
  = Ok (next_flow (place (board_c g) i j O) O, inputs).
Proof.
  intros Hb Ht Hi Hj M. unfold PartB.turn_body. rewrite Ht.
  cbn [mark_eqb]. rewrite M. cbn [bind].
  rewrite (set_cell_place O Hb Hi Hj). cbn [bind].
  rewrite end_of_turn_B; auto using place_3x3.
Qed.

Lemma play_loop_A_more inputs more :
  forall g r, PartA.play_loop inputs g = Ok r ->
              PartA.play_loop (inputs ++ more) g = Ok r.
Proof.
  induction inputs as [|inp inputs IH]; intros g r; cbn [PartA.play_loop app].
  - discriminate.
  - destruct (PartA.turn_body inp g) as [[g'|v g']| |]; cbn [bind];
      try discriminate; auto.
Qed.

Lemma turn_body_B_more fuel inputs more g f rest :
  PartB.turn_body fuel inputs g = Ok (f, rest) ->
  PartB.turn_body fuel (inputs ++ more) g = Ok (f, rest ++ more).
Proof.
  unfold PartB.turn_body.
  destruct (mark_eqb (turn g) X).
  - destruct inputs as [|[[row col]|] inputs]; cbn [app].
    + discriminate.
    + destruct (PartB.validateEntry g row col) as [[|]| |]; cbn [bind negb];
        try discriminate.
      * destruct (set_cell _ _ _ X); cbn [bind]; try discriminate.
        destruct (PartB.end_of_turn _); cbn [bind]; try discriminate.
        now intros [= <- <-].
      * now intros [= <- <-].
    + now intros [= <- <-].
  - destruct (PartB.getComputerMove fuel (board_c g)) as [[mv b1]| |];
      cbn [bind]; try discriminate.
    destruct (match mv with Some (row, col) => set_cell b1 row col O
                          | None => Ok b1 end); cbn [bind]; try discriminate.
    destruct (PartB.end_of_turn _); cbn [bind]; try discriminate.
    now intros [= <- <-].
Qed.

Lemma play_loop_B_more fuel passes k more :
  forall inputs g r,
    PartB.play_loop fuel passes inputs g = Ok r ->
    PartB.play_loop fuel (passes + k) (inputs ++ more) g = Ok r.
Proof.
  induction passes as [|passes IH]; intros inputs g r;
    cbn [PartB.play_loop plus].
  - discriminate.
  - destruct (PartB.turn_body fuel inputs g) as [[f rest]| |] eqn:T;
      cbn [bind]; try discriminate.
    rewrite (@turn_body_B_more fuel inputs more g f rest T). cbn [bind].
    destruct f; auto.
Qed.

(** C5.  One pass of the turn loop that applies a move of player [p]
    makes the engine's transition on the new board: a win of [p] if [p]
    holds a line, else a draw if the board is full, else the other
    player is to move; this holds for both players of Part A, for the
    human and for the computer of Part B.  Once a loop has stopped with
    a verdict, entries that follow are not read and change nothing. *)
Theorem engine_transition :
  (forall g row col,
     is_3x3 (board_c g) -> turn g = X \/ turn g = O ->
     PartA.validateEntry g row col = Ok true ->
     exists f,
       PartA.turn_body (Some (row, col)) g = Ok f
       /\ transition
            (place (board_c g) (Z.to_nat row) (Z.to_nat col) (turn g))
            (turn g) f)
  /\ (forall g row col fuel rest,
        is_3x3 (board_c g) -> turn g = X ->
        PartB.validateEntry g row col = Ok true ->
        exists f,
          PartB.turn_body fuel (Some (row, col) :: rest) g = Ok (f, rest)
          /\ transition
               (place (board_c g) (Z.to_nat row) (Z.to_nat col) X) X f)
  /\ (forall g fuel inputs,
        is_3x3 (board_c g) -> turn g = O ->
        ~ full (board_c g) -> (blanks (board_c g) <= fuel)%nat ->
        exists i j f,
          getComputerMove fuel (board_c g) = Ok (Some (i, j), board_c g)
          /\ PartB.turn_body fuel inputs g = Ok (f, inputs)
          /\ transition (place (board_c g) i j O) O f)
  /\ (forall inputs more g r,
        PartA.play_loop inputs g = Ok r ->
        PartA.play_loop (inputs ++ more) g = Ok r)
  /\ (forall fuel passes k inputs more g r,
        PartB.play_loop fuel passes inputs g = Ok r ->
        PartB.play_loop fuel (passes + k) (inputs ++ more) g = Ok r).
Proof.
  split; [|split; [|split; [|split]]].
  - intros g row col Hb Ht V. eexists. split.
    + now apply turn_body_A.
    + apply next_flow_transition. now apply place_3x3.
  - intros g row col fuel rest Hb Ht V. eexists. split.
    + now apply turn_body_B_human.
    + apply next_flow_transition. now apply place_3x3.
  - intros g fuel inputs Hb Ht Hnf Hn.
    destruct (getComputerMove_some Hb Hn Hnf) as (i & j & M & Hi & Hj).
    exists i, j. eexists. split; trivial. split.
    + exact (@turn_body_B_computer g i j fuel inputs Hb Ht Hi Hj M).
    + apply next_flow_transition. now apply place_3x3.
  - intros inputs more g r. apply play_loop_A_more.
  - intros fuel passes k inputs more g r. apply play_loop_B_more.
Qed.

Lemma engine_transition_witness :
  let g := {| board_c := [[X; X; Blank]; [Blank; O; Blank];
                           [Blank; Blank; O]]; turn := X |} in
  let h := {| board_c := [[X; Blank; Blank]; [Blank; Blank; Blank];
                           [Blank; Blank; Blank]]; turn := O |} in
  (exists f,
     PartA.turn_body (Some (0, 2)%Z) g = Ok f
     /\ transition (place (board_c g) (Z.to_nat 0) (Z.to_nat 2) (turn g))
          (turn g) f)
  /\ (exists f,
        PartB.turn_body 9 [Some (0, 2)%Z] g = Ok (f, [])
        /\ transition (place (board_c g) (Z.to_nat 0) (Z.to_nat 2) X) X f)
  /\ (exists i j f,
        getComputerMove 9 (board_c h) = Ok (Some (i, j), board_c h)
        /\ PartB.turn_body 9 [] h = Ok (f, [])
        /\ transition (place (board_c h) i j O) O f)
  /\ PartA.play_loop ([Some (0, 2)%Z] ++ [Some (1, 0)%Z]) g
     = Ok (Winner X,
           {| board_c := [[X; X; X]; [Blank; O; Blank]; [Blank; Blank; O]];
              turn := X |})
  /\ PartB.play_loop 9 (1 + 1) ([Some (0, 2)%Z] ++ [Some (1, 0)%Z]) g
     = Ok (Winner X,
           {| board_c := [[X; X; X]; [Blank; O; Blank]; [Blank; Blank; O]];
              turn := X |}).
Proof.
  intros g h.
  destruct engine_transition as (HA & HBx & HBo & HlA & HlB).
  split; [|split; [|split; [|split]]].
  - apply HA; [apply is_3x3_intro | now left | reflexivity].
  - apply HBx; [apply is_3x3_intro | reflexivity | reflexivity].
  - apply HBo; [apply is_3x3_intro | reflexivity | | vm_compute; lia].
    intros F. apply (F 0 1)%nat; [lia | lia | reflexivity].
  - apply HlA. reflexivity.
  - apply HlB. reflexivity.
Defined.

(** *** Self-play does not depend on the fuel beyond nine *)

Lemma select_fold_in_range b val ps :
  Forall (fun p => (fst p < 3)%nat /\ (snd p < 3)%nat) ps ->
  forall st,
    match snd st with
    | Some q => (fst q < 3)%nat /\ (snd q < 3)%nat
    | None => True
    end ->
    match snd (fold_left (select_step b val) ps st) with
    | Some q => (fst q < 3)%nat /\ (snd q < 3)%nat
    | None => True
    end.
Proof.
  induction 1 as [|p ps Hp _ IH]; intros st Hst; cbn [fold_left]; trivial.
  apply IH. unfold select_step.
  destruct (mark_eqb _ Blank); trivial.
  destruct (score_ltb _ _); trivial.
Qed.

Lemma getComputerMove_9 fuel b :
  is_3x3 b -> (9 <= fuel)%nat ->
  exists mv,
    getComputerMove fuel b = Ok (mv, b)
    /\ getComputerMove 9 b = Ok (mv, b)
    /\ match mv with
       | Some q => (fst q < 3)%nat /\ (snd q < 3)%nat
       | None => True
       end.
Proof.
  intros Hb Hn. pose proof (blanks_le_9 Hb) as H9.
  assert (H : forall i j, (i < 3)%nat -> (j < 3)%nat ->
            at_ b i j = Blank ->
            minimax 9 (place b i j O) false
            = Ok (Fin (value_at 9 b i j), place b i j O))
    by (intros; apply value_at_ok; trivial).
  assert (H' : forall i j, (i < 3)%nat -> (j < 3)%nat ->
            at_ b i j = Blank ->
            minimax fuel (place b i j O) false
            = Ok (Fin (value_at 9 b i j), place b i j O)).
  { intros i j Hi Hj E. rewrite <- (H i j Hi Hj E).
    pose proof (@blanks_place b i j O Hb Hi Hj E ltac:(discriminate)).
    apply minimax_fuel_irrelevant; [now apply place_3x3 | lia | lia]. }
  eexists. split; [|split].
  - exact (@getComputerMove_fold fuel b (value_at 9 b) Hb H').
  - exact (@getComputerMove_fold 9 b (value_at 9 b) Hb H).
  - apply select_fold_in_range; [apply positions_in_range | exact I].
Qed.

Module SelfPlay_facts.
Import SelfPlay.

Section BestLoopX.

Variable fuel : nat.
Variable b : board.
Variable val : nat -> nat -> Z.

Hypothesis Hb : is_3x3 b.
Hypothesis Hrec : forall i j, (i < 3)%nat -> (j < 3)%nat ->
  at_ b i j = Blank ->
  minimax fuel (place b i j X) true = Ok (Fin (val i j), place b i j X).

Lemma best_try_X_ok i j st :
  (i < 3)%nat -> (j < 3)%nat ->
  best_try_X fuel i j (st, b) = Ok (select_step_X b val st (i, j), b).
Proof.
  intros Hi Hj. destruct st as [best mv].
  unfold best_try_X, select_step_X.
  rewrite (cell_at Hb Hi Hj). cbn [bind fst snd].
  destruct (mark_eqb (at_ b i j) Blank) eqn:E; trivial.
  apply mark_eqb_eq in E.
  rewrite (set_cell_place X Hb Hi Hj). cbn [bind].
  rewrite (Hrec Hi Hj E). cbn [bind].
  rewrite (set_cell_place Blank (place_3x3 i j X Hb) Hi Hj). cbn [bind].
  rewrite (place_undo i j X Hb E).
  now destruct (score_ltb (Fin (val i j)) best).
Qed.

Lemma best_loop_X_ok ps :
  Forall (fun p => (fst p < 3)%nat /\ (snd p < 3)%nat) ps ->
  forall st,
    for_each (fun p => best_try_X fuel (fst p) (snd p)) ps (st, b)
    = Ok (fold_left (select_step_X b val) ps st, b).
Proof.
  induction 1 as [|p ps [Hi Hj] _ IH]; intros st; cbn [for_each fold_left];
    trivial.
  rewrite (best_try_X_ok st Hi Hj). cbn [bind].
  destruct p as [i j]. apply IH.
Qed.

Lemma bestMoveX_fold :
  bestMoveX fuel b
  = Ok (snd (fold_left (select_step_X b val) positions (PosInf, None)), b).
Proof.
  unfold bestMoveX.
  rewrite (for_each_positions (fun i j => best_try_X fuel i j)).
  rewrite (best_loop_X_ok positions_in_range). cbn [bind].
  now destruct (fold_left (select_step_X b val) positions (PosInf, None)).
Qed.

End BestLoopX.

Lemma value_at_X_ok fuel b i j :
  is_3x3 b -> (blanks b <= fuel)%nat ->
  (i < 3)%nat -> (j < 3)%nat -> at_ b i j = Blank ->
  minimax fuel (place b i j X) true
  = Ok (Fin (value_at_X fuel b i j), place b i j X).
Proof.
  intros Hb Hn Hi Hj E. unfold value_at_X.
  assert (blanks (place b i j X) < fuel)%nat as Hlt.
  { pose proof (@blanks_place b i j X Hb Hi Hj E ltac:(discriminate)). lia. }
  destruct (minimax_ok true (place_3x3 i j X Hb) Hlt) as (z & -> & _).
  reflexivity.
Qed.

Lemma bestMoveX_9 fuel b :
  is_3x3 b -> (9 <= fuel)%nat -> bestMoveX fuel b = bestMoveX 9 b.
Proof.
  intros Hb Hn. pose proof (blanks_le_9 Hb) as H9.
  assert (H : forall i j, (i < 3)%nat -> (j < 3)%nat ->
            at_ b i j = Blank ->
            minimax 9 (place b i j X) true
            = Ok (Fin (value_at_X 9 b i j), place b i j X))
    by (intros; apply value_at_X_ok; trivial).
  rewrite (@bestMoveX_fold 9 b (value_at_X 9 b) Hb H).
  apply bestMoveX_fold; trivial.
  intros i j Hi Hj E. rewrite <- (H i j Hi Hj E).
  pose proof (@blanks_place b i j X Hb Hi Hj E ltac:(discriminate)).
  apply minimax_fuel_irrelevant; [now apply place_3x3 | lia | lia].
Qed.

Lemma end_of_turn_board g g' :
  PartB.end_of_turn g = Ok (Continue g') -> board_c g' = board_c g.
Proof.
  unfold PartB.end_of_turn.
  destruct (PartB.checkEnd g) as [[|]| |]; cbn [bind]; try discriminate.
  - destruct (PartB.checkWin g) as [[|]| |]; cbn [bind]; discriminate.
  - now intros [= <-].
Qed.

Lemma turn_body_9 fuel inputs g :
  is_3x3 (board_c g) -> (9 <= fuel)%nat ->
  PartB.turn_body fuel inputs g = PartB.turn_body 9 inputs g
  /\ forall g' rest,
       PartB.turn_body 9 inputs g = Ok (Continue g', rest) ->
       is_3x3 (board_c g').
Proof.
  intros Hb Hn. unfold PartB.turn_body.
  destruct (mark_eqb (turn g) X).
  - split; trivial. intros g' rest.
    destruct inputs as [|[[row col]|] inputs]; [discriminate| |].
    + rewrite validateEntry_B by trivial. cbn [bind].
      destruct (in_range row col
                && mark_eqb (at_ (board_c g) (Z.to_nat row) (Z.to_nat col))
                     Blank) eqn:V; cbn [negb].
      * apply andb_true_iff in V. destruct V as [R _].
        destruct (in_range_nat _ _ R) as [Hi Hj].
        rewrite (set_cell_place X Hb Hi Hj). cbn [bind].
        destruct (PartB.end_of_turn _) as [f| |] eqn:E; cbn [bind];
          try discriminate.
        intros [= -> <-]. rewrite (@end_of_turn_board _ _ E). cbn [board_c].
        now apply place_3x3.
      * now intros [= <- _].
    + now intros [= <- _].
  - destruct (getComputerMove_9 Hb Hn) as (mv & -> & -> & Hmv).
    split; trivial. cbn [bind]. intros g' rest.
    assert (exists b2,
              match mv with
              | Some (row, col) => set_cell (board_c g) row col O
              | None => Ok (board_c g)
              end = Ok b2 /\ is_3x3 b2) as (b2 & -> & H2).
    { destruct mv as [[i j]|]; [|eauto].
      cbn [fst snd] in Hmv. destruct Hmv as [Hi Hj].
      rewrite (set_cell_place O Hb Hi Hj). eauto using place_3x3. }
    cbn [bind].
    destruct (PartB.end_of_turn _) as [f| |] eqn:E; cbn [bind];
      try discriminate.
    intros [= -> <-]. now rewrite (@end_of_turn_board _ _ E).
Qed.

Lemma self_play_9 fuel passes :
  (9 <= fuel)%nat ->
  forall g, is_3x3 (board_c g) ->
            self_play fuel passes g = self_play 9 passes g.
Proof.
  intros Hn. induction passes as [|passes IH]; intros g Hb;
    cbn [self_play]; trivial.
  assert (entry_X fuel g = entry_X 9 g) as ->.
  { unfold entry_X. destruct (mark_eqb (turn g) X); trivial.
    now rewrite bestMoveX_9. }
  destruct (entry_X 9 g) as [inputs| |]; cbn [bind]; trivial.
  destruct (@turn_body_9 fuel inputs g Hb Hn) as [-> H3].
  destruct (PartB.turn_body 9 inputs g) as [[[g'|v g'] rest]| |];
    cbn [bind]; trivial.
  rewrite IH; trivial. eapply H3; reflexivity.
Qed.

Lemma self_play_more_passes fuel passes k :
  forall g r, self_play fuel passes g = Ok r ->
              self_play fuel (k + passes) g = Ok r.
Proof.
  induction passes as [|passes IH]; intros g r; [discriminate|].
  rewrite Nat.add_succ_r. cbn [self_play].
  destruct (entry_X fuel g) as [inputs| |]; cbn [bind]; try discriminate.
  destruct (PartB.turn_body fuel inputs g) as [[[g'|v g'] rest]| |];
    cbn [bind]; try discriminate; trivial.
  destruct (self_play fuel passes g') as [[v trace]| |] eqn:E;
    cbn [bind]; try discriminate.
  now rewrite (@IH _ _ E).
Qed.

End SelfPlay_facts.

Lemma self_play_run :
  SelfPlay.self_play 9 9 Game_init = Ok (Draw, draw_game).
Proof. vm_compute. reflexivity. Qed.

(** C3.  From the empty board, with X and O both moving by the minimax
    rule, given fuel for nine levels of search and nine passes of the
    loop or more, the game stops after nine moves with the verdict of a
    draw: the last board is full, and on no board of the game does X or O
    hold a row, a column or a diagonal. *)
Theorem self_play_draw (fuel passes : nat) :
  (9 <= fuel)%nat -> (9 <= passes)%nat ->
  exists trace final,
    SelfPlay.self_play fuel passes Game_init = Ok (Draw, trace)
    /\ length trace = 9%nat
    /\ last trace Game_init = final
    /\ full (board_c final)
    /\ forall g, In g trace ->
         is_3x3 (board_c g)
         /\ ~ has_line (board_c g) X /\ ~ has_line (board_c g) O.
Proof.
  intros Hf Hp.
  exists draw_game, (last draw_game Game_init).
  split.
  { rewrite SelfPlay_facts.self_play_9 by (trivial; apply is_3x3_intro).
    replace passes with ((passes - 9) + 9)%nat by lia.
    apply SelfPlay_facts.self_play_more_passes. exact self_play_run. }
  split; [reflexivity|]. split; [reflexivity|].
  split; [apply full_no_blank; [apply is_3x3_intro | reflexivity]|].
  intros g Hg. unfold draw_game in Hg. cbn [In] in Hg.
  decompose [or] Hg; try contradiction; subst g; cbn [board_c];
    (split; [apply is_3x3_intro|]);
    split; apply has_line_false; try apply is_3x3_intro; reflexivity.
Qed.

Lemma self_play_draw_witness :
  exists trace final,
    SelfPlay.self_play 9 9 Game_init = Ok (Draw, trace)
    /\ length trace = 9%nat
    /\ last trace Game_init = final
    /\ full (board_c final)
    /\ forall g, In g trace ->
         is_3x3 (board_c g)
         /\ ~ has_line (board_c g) X /\ ~ has_line (board_c g) O.
Proof. apply (@self_play_draw 9 9); lia. Defined.

(** *** The marks on the boards of Part A *)

Lemma turn_body_A_cases g inp f :
  balanced g -> PartA.turn_body inp g = Ok f ->
  f = Continue g
  \/ exists i j, (i < 3)%nat /\ (j < 3)%nat
       /\ at_ (board_c g) i j = Blank
       /\ f = next_flow (place (board_c g) i j (turn g)) (turn g).
Proof.
  intros (Hb & Ht) T.
  destruct inp as [[row col]|]; [|left; cbn in T; congruence].
  destruct (in_range row col
            && mark_eqb (at_ (board_c g) (Z.to_nat row) (Z.to_nat col))
                 Blank) eqn:V.
  - right. pose proof (validateEntry_A g row col Hb) as VA.
    rewrite V in VA.
    rewrite turn_body_A in T; trivial; [|tauto].
    apply andb_true_iff in V. destruct V as [R E].
    destruct (in_range_nat _ _ R) as [Hi Hj]. apply mark_eqb_eq in E.
    exists (Z.to_nat row), (Z.to_nat col). repeat split; trivial.
    congruence.
  - left. unfold PartA.turn_body in T.
    rewrite validateEntry_A, V in T by trivial. cbn in T. congruence.
Qed.

Lemma place_counts b i j t :
  is_3x3 b -> (i < 3)%nat -> (j < 3)%nat -> at_ b i j = Blank ->
  count_mark X (place b i j t)
  = (count_mark X b + if mark_eqb X t then 1 else 0)%nat
  /\ count_mark O (place b i j t)
     = (count_mark O b + if mark_eqb O t then 1 else 0)%nat.
Proof.
  intros Hb Hi Hj E.
  pose proof (count_place t X Hb Hi Hj) as HX.
  pose proof (count_place t O Hb Hi Hj) as HO.
  rewrite E in HX, HO.
  change (mark_eqb X Blank) with false in HX.
  change (mark_eqb O Blank) with false in HO.
  cbv iota in HX, HO. lia.
Qed.

Lemma awaiting_balanced g : awaiting g -> balanced g.
Proof.
  induction 1 as [|g inp g' _ IH T].
  - split; [apply is_3x3_intro | left; split; reflexivity].
  - destruct (@turn_body_A_cases g inp _ IH T)
      as [[= ->] | (i & j & Hi & Hj & E & F)]; trivial.
    destruct IH as (Hb & Ht).
    destruct (place_counts (turn g) Hb Hi Hj E) as [CX CO].
    unfold next_flow in F.
    destruct (has_lineb _ _); [discriminate|].
    destruct (no_blank _); [discriminate|].
    injection F as ->. split; cbn [board_c turn].
    + now apply place_3x3.
    + destruct Ht as [[Ht C] | [Ht C]]; rewrite Ht in *;
        cbn [mark_eqb other] in *; [right | left]; split; trivial; lia.
Qed.

Lemma reached_counts g :
  reached g ->
  is_3x3 (board_c g)
  /\ (count_mark X (board_c g) = count_mark O (board_c g)
      \/ count_mark X (board_c g) = S (count_mark O (board_c g))).
Proof.
  intros [A | (g0 & inp & v & A & T)].
  - destruct (awaiting_balanced A) as (Hb & [[_ C] | [_ C]]); auto.
  - pose proof (awaiting_balanced A) as IH.
    destruct (@turn_body_A_cases g0 inp _ IH T)
      as [[=] | (i & j & Hi & Hj & E & F)].
    destruct IH as (Hb & Ht).
    destruct (place_counts (turn g0) Hb Hi Hj E) as [CX CO].
    unfold next_flow in F.
    assert (board_c g = place (board_c g0) i j (turn g0)) as ->.
    { destruct (has_lineb _ _); [now injection F as _ ->|].
      destruct (no_blank _); [now injection F as _ ->|discriminate]. }
    split; [now apply place_3x3|].
    destruct Ht as [[Ht C] | [Ht C]]; rewrite Ht in *;
      cbn [mark_eqb] in *; lia.
Qed.

(** C6.  On every board Part A's engine reaches from the empty board,
    at the head of its loop or when it stops, the nine cells are in
    place, each holding one mark, and the number of X is the number of O
    or one more. *)
Theorem reached_mark_counts (g : Game) :
  reached g ->
  is_3x3 (board_c g)
  /\ (forall i j, (i < 3)%nat -> (j < 3)%nat ->
        exists m, cell (board_c g) i j = Ok m)
  /\ (count_mark X (board_c g) = count_mark O (board_c g)
      \/ count_mark X (board_c g) = S (count_mark O (board_c g))).
Proof.
  intros R. destruct (reached_counts R) as [Hb C].
  split; trivial. split; trivial.
  intros i j Hi Hj. exists (at_ (board_c g) i j). now apply cell_at.
Qed.

Lemma reached_mark_counts_witness :
  let g := {| board_c := [[X; Blank; Blank]; [Blank; O; Blank];
                           [Blank; Blank; Blank]]; turn := X |} in
  is_3x3 (board_c g)
  /\ (forall i j, (i < 3)%nat -> (j < 3)%nat ->
        exists m, cell (board_c g) i j = Ok m)
  /\ (count_mark X (board_c g) = count_mark O (board_c g)
      \/ count_mark X (board_c g) = S (count_mark O (board_c g))).
Proof.
  intros g. apply reached_mark_counts. left.
  apply aw_next with
    (g := {| board_c := [[X; Blank; Blank]; [Blank; Blank; Blank];
                         [Blank; Blank; Blank]]; turn := O |})
    (inp := Some (1, 1)%Z); [|reflexivity].
  apply aw_next with (g := Game_init) (inp := Some (0, 0)%Z);
    [apply aw_init | reflexivity].
Defined.

(** ** Part C: the fallback of the predicted move *)

Lemma available_3x3 b :
  is_3x3 b -> PartC.available b = Ok (blank_cells b).
Proof.
  intros Hb. board9 Hb. unfold PartC.available, blank_cells. cbn.
  destruct (mark_eqb a0 Blank), (mark_eqb a1 Blank), (mark_eqb a2 Blank),
    (mark_eqb b0 Blank), (mark_eqb b1 Blank), (mark_eqb b2 Blank),
    (mark_eqb c0 Blank), (mark_eqb c1 Blank), (mark_eqb c2 Blank);
    reflexivity.
Qed.

Lemma blank_cells_spec b i j :
  is_3x3 b ->
  (In (i, j) (blank_cells b)
   <-> (i < 3)%nat /\ (j < 3)%nat /\ cell b i j = Ok Blank).
Proof.
  intros Hb. unfold blank_cells. rewrite filter_In. cbn [fst snd].
  rewrite mark_eqb_eq. split.
  - intros [Hin E]. pose proof positions_in_range as R.
    rewrite Forall_forall in R. destruct (R _ Hin) as [Hi Hj].
    cbn [fst snd] in Hi, Hj. rewrite (cell_at Hb Hi Hj), E. tauto.
  - intros (Hi & Hj & E). rewrite (cell_at Hb Hi Hj) in E.
    split; [now apply in_positions | congruence].
Qed.

Lemma choice_in {A} (randbelow : nat -> nat) (l : list A) :
  (forall n, (0 < n)%nat -> (randbelow n < n)%nat) ->
  l <> [] -> exists x, PartC.choice randbelow l = Ok x /\ In x l.
Proof.
  intros Hr Hl. destruct l as [|a l]; [congruence|].
  unfold PartC.choice, getitem.
  assert (randbelow (length (a :: l)) < length (a :: l))%nat as H
    by (apply Hr; simpl; lia).
  destruct (nth_error (a :: l) (randbelow (length (a :: l)))) eqn:E.
  - exists a0. split; trivial. eapply nth_error_In; eauto.
  - apply nth_error_None in E. lia.
Qed.

Lemma getComputerMove_C_fallback predict randbelow g :
  is_3x3 (board_c g) -> ~ full (board_c g) ->
  (forall n, (0 < n)%nat -> (randbelow n < n)%nat) ->
  PartC.validateEntry g (predict (PartC.encodeBoard g) / 3)
    (predict (PartC.encodeBoard g) mod 3) = Ok false ->
  exists r c,
    PartC.getComputerMove predict randbelow g
    = Ok ((Z.of_nat r, Z.of_nat c), [PartC.fallback_notice])
    /\ In (r, c) (blank_cells (board_c g)).
Proof.
  intros Hb Hnf Hr V. unfold PartC.getComputerMove.
  rewrite V. cbn [bind negb].
  rewrite (available_3x3 Hb). cbn [bind].
  assert (blank_cells (board_c g) <> []) as Hne.
  { destruct (not_full_blank Hb Hnf) as ([i j] & Hin & E).
    assert (In (i, j) (blank_cells (board_c g))) as H.
    { unfold blank_cells. apply filter_In. split; trivial.
      now apply mark_eqb_eq. }
    intros N. now rewrite N in H. }
  destruct (choice_in randbelow Hr Hne) as ([r c] & -> & Hin).
  cbn [bind]. eauto.
Qed.

(** C8.  On a three-by-three board with a blank cell, with a random
    source that draws below its bound: a predicted index whose cell is a
    valid move is returned as it is and nothing is printed; a predicted
    index whose cell is not a valid move is replaced by a cell drawn from
    the list of the blank cells, which holds exactly the blank cells of
    the board, and the notice of the fallback is printed.  The cell
    returned is a valid move and differs from the rejected prediction. *)
Theorem predicted_move_fallback (predict : list Z -> Z)
    (randbelow : nat -> nat) (g : Game) :
  is_3x3 (board_c g) -> ~ full (board_c g) ->
  (forall n, (0 < n)%nat -> (randbelow n < n)%nat) ->
  let idx := predict (PartC.encodeBoard g) in
  (PartC.validateEntry g (idx / 3) (idx mod 3) = Ok true ->
   PartC.getComputerMove predict randbelow g
   = Ok ((idx / 3, idx mod 3)%Z, []))
  /\ (PartC.validateEntry g (idx / 3) (idx mod 3) = Ok false ->
      exists r c av,
        PartC.getComputerMove predict randbelow g
        = Ok ((Z.of_nat r, Z.of_nat c), [PartC.fallback_notice])
        /\ PartC.available (board_c g) = Ok av
        /\ In (r, c) av
        /\ (forall r' c', In (r', c') av <->
              (r' < 3)%nat /\ (c' < 3)%nat
              /\ cell (board_c g) r' c' = Ok Blank)
        /\ PartC.validateEntry g (Z.of_nat r) (Z.of_nat c) = Ok true
        /\ (Z.of_nat r, Z.of_nat c) <> (idx / 3, idx mod 3)%Z).
Proof.
  intros Hb Hnf Hr idx. split; intros V.
  - unfold PartC.getComputerMove. fold idx. now rewrite V.
  - destruct (@getComputerMove_C_fallback predict randbelow g Hb Hnf Hr V)
      as (r & c & M & Hin).
    exists r, c, (blank_cells (board_c g)).
    split; trivial. split; [now apply available_3x3|].
    split; trivial.
    split; [intros; now apply blank_cells_spec|].
    assert (PartC.validateEntry g (Z.of_nat r) (Z.of_nat c) = Ok true)
      as V'.
    { apply (blank_cells_spec r c Hb) in Hin.
      destruct Hin as (Hi & Hj & E).
      rewrite validateEntry_C by trivial. f_equal.
      apply andb_true_iff. split.
      - apply in_range_spec. lia.
      - rewrite !Nat2Z.id. apply mark_eqb_eq.
        rewrite (cell_at Hb Hi Hj) in E. congruence. }
    split; trivial.
    intros [= E1 E2]. fold idx in V. rewrite <- E1, <- E2 in V.
    congruence.
Qed.

Lemma predicted_move_fallback_witness :
  let g := {| board_c := [[X; Blank; Blank]; [Blank; Blank; Blank];
                           [Blank; Blank; Blank]]; turn := O |} in
  let predict := fun _ : list Z => 0%Z in
  let randbelow := fun n : nat => (n - 1)%nat in
  let idx := predict (PartC.encodeBoard g) in
  (PartC.validateEntry g (idx / 3) (idx mod 3) = Ok true ->
   PartC.getComputerMove predict randbelow g
   = Ok ((idx / 3, idx mod 3)%Z, []))
  /\ (PartC.validateEntry g (idx / 3) (idx mod 3) = Ok false ->
      exists r c av,
        PartC.getComputerMove predict randbelow g
        = Ok ((Z.of_nat r, Z.of_nat c), [PartC.fallback_notice])
        /\ PartC.available (board_c g) = Ok av
        /\ In (r, c) av
        /\ (forall r' c', In (r', c') av <->
              (r' < 3)%nat /\ (c' < 3)%nat
              /\ cell (board_c g) r' c' = Ok Blank)
        /\ PartC.validateEntry g (Z.of_nat r) (Z.of_nat c) = Ok true
        /\ (Z.of_nat r, Z.of_nat c) <> (idx / 3, idx mod 3)%Z).
Proof.
  intros g predict randbelow.
  apply (@predicted_move_fallback predict randbelow g).
  - apply is_3x3_intro.
  - intros F. apply (F 0 1)%nat; [lia | lia | reflexivity].
  - intros n Hn. unfold randbelow. lia.
Defined.

(** ** Part C: the loader of the training data *)

Lemma map_int_ok toks :
  Forall (fun tok => PartC.parse_int tok <> None) toks ->
  PartC.map_int toks = Ok (map int_of toks).
Proof.
  induction 1 as [|tok toks Htok _ IH]; cbn [PartC.map_int map]; trivial.
  unfold PartC.py_int, int_of at 1.
  destruct (PartC.parse_int tok); [|congruence].
  cbn [bind]. now rewrite IH.
Qed.

Lemma Forall_firstn_of {A} (P : A -> Prop) (n : nat) (l : list A) :
  Forall P l -> Forall P (firstn n l).
Proof.
  intros H. rewrite <- (firstn_skipn n l) in H.
  now apply Forall_app in H.
Qed.

Lemma integer_fieldsb_ok line :
  integer_fieldsb line = true -> integer_fields line.
Proof.
  unfold integer_fieldsb, integer_fields. rewrite forallb_forall.
  intros H. apply Forall_forall. intros tok Htok.
  specialize (H tok Htok). now destruct (PartC.parse_int tok).
Qed.

Lemma load_line_kept line xs ys :
  kept line = true -> integer_fields line ->
  PartC.load_line line (xs, ys)
  = Ok (xs ++ [features_of line], ys ++ [label_of line]).
Proof.
  unfold kept, integer_fields, PartC.load_line, features_of, label_of.
  intros K F. rewrite K. apply Nat.eqb_eq in K.
  rewrite map_int_ok by now apply Forall_firstn_of.
  cbn [bind]. unfold getitem.
  destruct (nth_error (PartC.parts_of line) 9) as [tok|] eqn:E.
  - cbn [bind]. rewrite (nth_error_nth _ _ [] E).
    unfold PartC.py_int, int_of.
    rewrite Forall_forall in F.
    pose proof (F tok (nth_error_In _ _ E)) as Htok.
    destruct (PartC.parse_int tok); [reflexivity | congruence].
  - apply nth_error_None in E. lia.
Qed.

Lemma load_line_skipped line acc :
  kept line = false -> PartC.load_line line acc = Ok acc.
Proof.
  unfold kept, PartC.load_line. intros K. destruct acc as [xs ys].
  now rewrite K.
Qed.

Lemma load_loop_ok lines :
  (forall line, In line lines -> kept line = true -> integer_fields line) ->
  forall xs ys,
    for_each PartC.load_line lines (xs, ys)
    = Ok (xs ++ map features_of (filter kept lines),
          ys ++ map label_of (filter kept lines)).
Proof.
  induction lines as [|line lines IH]; intros H xs ys;
    cbn [for_each filter map].
  - now rewrite !app_nil_r.
  - destruct (kept line) eqn:K.
    + rewrite load_line_kept
        by solve [assumption | apply H; [now left | assumption]].
      cbn [bind map].
      rewrite IH by (intros l Hl; apply H; now right).
      now rewrite <- !app_assoc.
    + rewrite load_line_skipped by trivial. cbn [bind].
      apply IH. intros l Hl. apply H. now right.
Qed.

Lemma load_loop_skip lines :
  forall acc,
    for_each PartC.load_line (filter kept lines) acc
    = for_each PartC.load_line lines acc.
Proof.
  induction lines as [|line lines IH]; intros acc;
    cbn [for_each filter]; trivial.
  destruct (kept line) eqn:K.
  - cbn [for_each]. destruct (PartC.load_line line acc); cbn [bind]; auto.
  - rewrite load_line_skipped by trivial. cbn [bind]. apply IH.
Qed.

(** C10, as claimed, fails: on a file holding one line of ten fields of
    which one is not an integer literal, [load_dataset] raises
    [ValueError] and returns nothing. *)
Lemma load_dataset_raises :
  length (PartC.parts_of bad_line) = 10%nat
  /\ PartC.load_dataset [bad_line] = Raise ValueError
  /\ ~ exists r, PartC.load_dataset [bad_line] = Ok r.
Proof.
  split; [reflexivity|]. split; [reflexivity|].
  intros [r H]. vm_compute in H. discriminate.
Qed.

(** C10, amended.  On every file whose lines of ten fields hold integer
    literals only, [load_dataset] returns, for the lines of ten fields in
    their order, the nine integers of the first fields and the integer of
    the tenth; the lines with another number of fields are skipped
    without an exception, whatever they hold, and the result is the one
    of the file without them. *)
Theorem load_dataset_kept_lines (lines : list string) :
  (forall line, In line lines -> kept line = true -> integer_fields line) ->
  PartC.load_dataset lines
  = Ok (map features_of (filter kept lines),
        map label_of (filter kept lines))
  /\ PartC.load_dataset (filter kept lines) = PartC.load_dataset lines
  /\ Forall (fun f => length f = 9%nat)
       (map features_of (filter kept lines)).
Proof.
  intros H. unfold PartC.load_dataset. split; [|split].
  - now rewrite load_loop_ok.
  - apply load_loop_skip.
  - apply Forall_forall. intros f Hf. apply in_map_iff in Hf.
    destruct Hf as (line & <- & Hl). apply filter_In in Hl.
    destruct Hl as [_ K]. unfold kept in K. apply Nat.eqb_eq in K.
    unfold features_of. rewrite length_map, length_firstn, K. reflexivity.
Qed.

Lemma load_dataset_kept_lines_witness :
  let lines := ["1 0 -1 0 0 0 0 0 0 4"; ""; "x y z";
                "0 0 0 0 1 0 0 0 -1 8"]%string in
  PartC.load_dataset lines
  = Ok (map features_of (filter kept lines),
        map label_of (filter kept lines))
  /\ PartC.load_dataset (filter kept lines) = PartC.load_dataset lines
  /\ Forall (fun f => length f = 9%nat)
       (map features_of (filter kept lines)).
Proof.
  intros lines. apply load_dataset_kept_lines.
  intros line [<- | [<- | [<- | [<- | []]]]] K.
  - apply integer_fieldsb_ok. vm_compute. reflexivity.
  - vm_compute in K. discriminate K.
  - vm_compute in K. discriminate K.
  - apply integer_fieldsb_ok. vm_compute. reflexivity.
Defined.

(** ** Part B: what the computer's play guarantees *)

Module PartB_play.

Lemma game_value_ok b m fuel :
  is_3x3 b -> (blanks b < fuel)%nat ->
  minimax fuel b m = Ok (Fin (game_value b m), b)
  /\ (-1 <= game_value b m <= 1)%Z.
Proof.
  intros Hb Hn. pose proof (blanks_le_9 Hb) as H9.
  assert (blanks b < 10)%nat as H10 by lia.
  destruct (minimax_ok m Hb H10) as (z & E & Hz).
  unfold game_value. rewrite E. split; trivial.
  rewrite <- E. now apply minimax_fuel_irrelevant.
Qed.

Lemma game_value_child b i j who m fuel :
  is_3x3 b -> (blanks b <= fuel)%nat ->
  (i < 3)%nat -> (j < 3)%nat -> at_ b i j = Blank -> who <> Blank ->
  minimax fuel (place b i j who) m
  = Ok (Fin (game_value (place b i j who) m), place b i j who).
Proof.
  intros Hb Hn Hi Hj E Hw.
  apply game_value_ok; [now apply place_3x3|].
  pose proof (blanks_place Hb Hi Hj E Hw). lia.
Qed.

Lemma has_lineb_place_other b i j t p :
  is_3x3 b -> (i < 3)%nat -> (j < 3)%nat -> at_ b i j = Blank ->
  p <> Blank -> p <> t ->
  has_lineb (place b i j t) p = has_lineb b p.
Proof.
  intros Hb Hi Hj E Hp Hpt. board9 Hb.
  destruct p; try congruence; destruct t; try congruence;
    below3 i Hi; below3 j Hj; cbn in E; subst; reflexivity.
Qed.

Lemma score_le_trans a c d : score_le a c -> score_le c d -> score_le a d.
Proof.
  unfold score_le. destruct a, c, d; simpl; trivial; try discriminate.
  rewrite !Z.ltb_ge. lia.
Qed.

Lemma score_le_refl a : score_le a a.
Proof. unfold score_le. destruct a; simpl; trivial. apply Z.ltb_irrefl. Qed.

Lemma score_max_bounds a c :
  score_le a (score_max a c) /\ score_le c (score_max a c)
  /\ (score_max a c = a \/ score_max a c = c).
Proof.
  unfold score_max, score_le.
  destruct (score_ltb a c) eqn:E.
  - split; [|split; [apply score_le_refl | now right]].
    destruct a, c; simpl in *; trivial; try discriminate.
    apply Z.ltb_lt in E. apply Z.ltb_ge. lia.
  - split; [apply score_le_refl | split; [trivial | now left]].
Qed.

Lemma score_min_bounds a c :
  score_le (score_min a c) a /\ score_le (score_min a c) c
  /\ (score_min a c = a \/ score_min a c = c).
Proof.
  unfold score_min, score_le.
  destruct (score_ltb c a) eqn:E.
  - split; [|split; [apply score_le_refl | now right]].
    destruct a, c; simpl in *; trivial; try discriminate.
    apply Z.ltb_lt in E. apply Z.ltb_ge. lia.
  - split; [apply score_le_refl | split; [trivial | now left]].
Qed.

Lemma fold_pick_cons pick b v q ps best :
  fold_pick pick b v (q :: ps) best
  = fold_pick pick b v ps
      (if mark_eqb (at_ b (fst q) (snd q)) Blank
       then pick best (v (fst q) (snd q)) else best).
Proof. reflexivity. Qed.

Lemma fold_pick_max b v ps :
  forall best,
    score_le best (fold_pick score_max b v ps best)
    /\ (forall p, In p ps -> at_ b (fst p) (snd p) = Blank ->
          score_le (v (fst p) (snd p)) (fold_pick score_max b v ps best))
    /\ (fold_pick score_max b v ps best = best
        \/ exists p, In p ps /\ at_ b (fst p) (snd p) = Blank
             /\ fold_pick score_max b v ps best = v (fst p) (snd p)).
Proof.
  induction ps as [|q ps IH]; intros best.
  - split; [apply score_le_refl|]. split; [intros p []|now left].
  - rewrite fold_pick_cons.
    destruct (mark_eqb (at_ b (fst q) (snd q)) Blank) eqn:E.
    + apply mark_eqb_eq in E.
      destruct (IH (score_max best (v (fst q) (snd q)))) as (H1 & H2 & H3).
      destruct (score_max_bounds best (v (fst q) (snd q)))
        as (B1 & B2 & B3).
      split; [eapply score_le_trans; eauto|].
      split.
      * intros p [<- | Hp] Ep; [eapply score_le_trans; eauto | auto].
      * destruct H3 as [-> | (p & Hp & Ep & ->)].
        -- destruct B3 as [-> | ->]; [now left|].
           right. exists q. split; [now left | auto].
        -- right. exists p. split; [now right | auto].
    + destruct (IH best) as (H1 & H2 & H3). split; trivial. split.
      * intros p [<- | Hp] Ep; [rewrite Ep in E; discriminate | auto].
      * destruct H3 as [-> | (p & Hp & Ep & ->)]; [now left|].
        right. exists p. split; [now right | auto].
Qed.

Lemma fold_pick_min b v ps :
  forall best,
    score_le (fold_pick score_min b v ps best) best
    /\ (forall p, In p ps -> at_ b (fst p) (snd p) = Blank ->
          score_le (fold_pick score_min b v ps best) (v (fst p) (snd p)))
    /\ (fold_pick score_min b v ps best = best
        \/ exists p, In p ps /\ at_ b (fst p) (snd p) = Blank
             /\ fold_pick score_min b v ps best = v (fst p) (snd p)).
Proof.
  induction ps as [|q ps IH]; intros best.
  - split; [apply score_le_refl|]. split; [intros p []|now left].
  - rewrite fold_pick_cons.
    destruct (mark_eqb (at_ b (fst q) (snd q)) Blank) eqn:E.
    + apply mark_eqb_eq in E.
      destruct (IH (score_min best (v (fst q) (snd q)))) as (H1 & H2 & H3).
      destruct (score_min_bounds best (v (fst q) (snd q)))
        as (B1 & B2 & B3).
      split; [eapply score_le_trans; eauto|].
      split.
      * intros p [<- | Hp] Ep; [eapply score_le_trans; eauto | auto].
      * destruct H3 as [-> | (p & Hp & Ep & ->)].
        -- destruct B3 as [-> | ->]; [now left|].
           right. exists q. split; [now left | auto].
        -- right. exists p. split; [now right | auto].
    + destruct (IH best) as (H1 & H2 & H3). split; trivial. split.
      * intros p [<- | Hp] Ep; [rewrite Ep in E; discriminate | auto].
      * destruct H3 as [-> | (p & Hp & Ep & ->)]; [now left|].
        right. exists p. split; [now right | auto].
Qed.

Lemma game_value_terminal b m :
  is_3x3 b ->
  game_value b m
  = (if has_lineb b O then 1
     else if has_lineb b X then -1
     else if no_blank b then 0 else game_value b m)%Z.
Proof.
  intros Hb. destruct (has_lineb b O) eqn:EO;
    [|destruct (has_lineb b X) eqn:EX; [|destruct (no_blank b) eqn:EF]];
    trivial; unfold game_value;
    rewrite (minimax_3x3 9 m Hb), EO; try rewrite EX; try rewrite EF;
    reflexivity.
Qed.

Section Children.

Variable b : board.
Hypothesis Hb : is_3x3 b.
Hypothesis HO : has_lineb b O = false.
Hypothesis HX : has_lineb b X = false.
Hypothesis HF : no_blank b = false.

Lemma game_value_search m who pick init :
  who <> Blank ->
  search (fun b' => minimax 9 b' m) who pick init b
  = Ok (fold_pick pick b
          (fun i j => Fin (game_value (place b i j who) m)) positions init,
        b).
Proof.
  intros Hw. unfold search.
  rewrite (for_each_positions
             (fun i j => minimax_try (fun b' => minimax 9 b' m) who pick i j)).
  apply search_loop_ok; trivial using positions_in_range.
  intros i j Hi Hj E. apply game_value_child; trivial.
  now apply blanks_le_9.
Qed.

Lemma game_value_max :
  (forall i j, (i < 3)%nat -> (j < 3)%nat -> at_ b i j = Blank ->
     (game_value (place b i j O) false <= game_value b true)%Z)
  /\ exists i j, (i < 3)%nat /\ (j < 3)%nat /\ at_ b i j = Blank
       /\ game_value (place b i j O) false = game_value b true.
Proof.
  pose proof (blanks_le_9 Hb) as H9.
  destruct (@game_value_ok b true 10 Hb ltac:(lia)) as [E _].
  rewrite (minimax_3x3 9 true Hb), HO, HX, HF in E.
  destruct (fold_pick_max b
              (fun i j => Fin (game_value (place b i j O) false))
              positions NegInf) as (_ & H2 & H3).
  assert (Er : fold_pick score_max b
                 (fun i j => Fin (game_value (place b i j O) false))
                 positions NegInf = Fin (game_value b true)).
  { rewrite game_value_search in E by discriminate. congruence. }
  rewrite Er in H2, H3. clear Er E. split.
  - intros i j Hi Hj Eb.
    specialize (H2 (i, j) (in_positions Hi Hj) Eb).
    unfold score_le in H2. cbn in H2. now apply Z.ltb_ge in H2.
  - destruct H3 as [H3 | ([i j] & Hin & Eb & H3)]; [discriminate|].
    pose proof positions_in_range as R. rewrite Forall_forall in R.
    destruct (R _ Hin) as [Hi Hj]. cbn [fst snd] in *.
    exists i, j. injection H3 as H3. auto.
Qed.

Lemma game_value_min :
  (forall i j, (i < 3)%nat -> (j < 3)%nat -> at_ b i j = Blank ->
     (game_value b false <= game_value (place b i j X) true)%Z)
  /\ exists i j, (i < 3)%nat /\ (j < 3)%nat /\ at_ b i j = Blank
       /\ game_value (place b i j X) true = game_value b false.
Proof.
  pose proof (blanks_le_9 Hb) as H9.
  destruct (@game_value_ok b false 10 Hb ltac:(lia)) as [E _].
  rewrite (minimax_3x3 9 false Hb), HO, HX, HF in E.
  destruct (fold_pick_min b
              (fun i j => Fin (game_value (place b i j X) true))
              positions PosInf) as (_ & H2 & H3).
  assert (Er : fold_pick score_min b
                 (fun i j => Fin (game_value (place b i j X) true))
                 positions PosInf = Fin (game_value b false)).
  { rewrite game_value_search in E by discriminate. congruence. }
  rewrite Er in H2, H3. clear Er E. split.
  - intros i j Hi Hj Eb.
    specialize (H2 (i, j) (in_positions Hi Hj) Eb).
    unfold score_le in H2. cbn in H2. now apply Z.ltb_ge in H2.
  - destruct H3 as [H3 | ([i j] & Hin & Eb & H3)]; [discriminate|].
    pose proof positions_in_range as R. rewrite Forall_forall in R.
    destruct (R _ Hin) as [Hi Hj]. cbn [fst snd] in *.
    exists i, j. injection H3 as H3. auto.
Qed.

End Children.

Lemma in_play_iff b :
  in_play b
  <-> is_3x3 b /\ has_lineb b X = false /\ has_lineb b O = false
      /\ no_blank b = false.
Proof.
  unfold in_play. split.
  - intros (Hb & HX & HO & HF). split; trivial.
    split; [|split].
    + destruct (has_lineb b X) eqn:E; trivial.
      destruct HX. now apply has_lineb_spec.
    + destruct (has_lineb b O) eqn:E; trivial.
      destruct HO. now apply has_lineb_spec.
    + destruct (no_blank b) eqn:E; trivial.
      destruct HF. now apply full_no_blank.
  - intros (Hb & HX & HO & HF). split; trivial.
    split; [now apply has_line_false|].
    split; [now apply has_line_false|].
    intros F. apply (full_no_blank Hb) in F. congruence.
Qed.

Lemma value_at_game_value fuel b i j :
  is_3x3 b -> (blanks b <= fuel)%nat ->
  (i < 3)%nat -> (j < 3)%nat -> at_ b i j = Blank ->
  value_at fuel b i j = game_value (place b i j O) false.
Proof.
  intros Hb Hn Hi Hj E. unfold value_at.
  now rewrite (@game_value_child b i j O false fuel Hb Hn Hi Hj E
                 ltac:(discriminate)).
Qed.

(** The move [getComputerMove] returns is worth the value of the
    position. *)
Lemma computer_move_value fuel b :
  is_3x3 b -> (blanks b <= fuel)%nat ->
  has_lineb b O = false -> has_lineb b X = false -> no_blank b = false ->
  exists i j,
    getComputerMove fuel b = Ok (Some (i, j), b)
    /\ (i < 3)%nat /\ (j < 3)%nat /\ at_ b i j = Blank
    /\ game_value (place b i j O) false = game_value b true.
Proof.
  intros Hb Hn HO HX HF.
  destruct (getComputerMove_selected Hb Hn) as ([best [[i j]|]] & M & S);
    unfold selected in S; cbn [fst snd] in S, M.
  - destruct S as (_ & E & pre & post & Hsplit & Hpre & Hpost).
    assert (In (i, j) positions) as Hin
      by (rewrite Hsplit; apply in_or_app; right; now left).
    pose proof positions_in_range as R. rewrite Forall_forall in R.
    destruct (R _ Hin) as [Hi Hj]. cbn [fst snd] in Hi, Hj.
    exists i, j. repeat (split; trivial).
    destruct (game_value_max Hb HO HX HF) as [Hle (i' & j' & Hi' & Hj' & E' & Heq)].
    apply Z.le_antisymm; [now apply Hle|].
    rewrite <- Heq.
    rewrite <- (value_at_game_value Hb Hn Hi Hj E),
            <- (value_at_game_value Hb Hn Hi' Hj' E').
    assert (In (i', j') positions) as Hin' by now apply in_positions.
    rewrite Hsplit in Hin'. apply in_app_or in Hin'.
    destruct Hin' as [Hp | [Hp | Hp]].
    + specialize (Hpre _ Hp E'). cbn [fst snd] in Hpre. lia.
    + injection Hp as -> ->. lia.
    + specialize (Hpost _ Hp E'). cbn [fst snd] in Hpost. lia.
  - destruct S as (_ & Hnone).
    destruct (no_blank_false Hb HF) as (p & Hin & Hp).
    destruct (Hnone p Hin Hp).
Qed.

Lemma next_flow_cases b p :
  (has_lineb b p = true
   /\ next_flow b p = Break (Winner p) {| board_c := b; turn := p |})
  \/ (has_lineb b p = false /\ no_blank b = true
      /\ next_flow b p = Break Draw {| board_c := b; turn := p |})
  \/ (has_lineb b p = false /\ no_blank b = false
      /\ next_flow b p = Continue {| board_c := b; turn := other p |}).
Proof.
  unfold next_flow. destruct (has_lineb b p); [now left|].
  destruct (no_blank b); [right; now left | right; now right].
Qed.

(** One pass of Part B's loop from a game in progress: what the position
    is worth to O does not go down. *)
Lemma turn_body_value fuel inputs g f rest :
  (9 <= fuel)%nat ->
  in_play (board_c g) -> turn g = X \/ turn g = O ->
  PartB.turn_body fuel inputs g = Ok (f, rest) ->
  match f with
  | Continue g' =>
      in_play (board_c g') /\ (turn g' = X \/ turn g' = O)
      /\ (position_value g <= position_value g')%Z
  | Break v _ => (position_value g <= verdict_value v)%Z
  end.
Proof.
  intros Hf P Ht T. pose proof P as P0.
  apply in_play_iff in P. destruct P as (Hb & HX & HO & HF).
  pose proof (blanks_le_9 Hb) as H9.
  destruct g as [b t]. cbn [board_c turn] in *. unfold position_value.
  cbn [board_c turn].
  destruct Ht as [-> | ->].
  - (* the human *)
    destruct inputs as [|[[row col]|] inputs]; [discriminate| |].
    + destruct (in_range row col
                && mark_eqb (at_ b (Z.to_nat row) (Z.to_nat col)) Blank)
        eqn:V.
      * pose proof (@validateEntry_B {| board_c := b; turn := X |}
                      row col Hb) as VB.
        cbn [board_c] in VB. rewrite V in VB.
        pose proof (eq_trans (eq_sym T)
                      (@turn_body_B_human {| board_c := b; turn := X |}
                         row col fuel inputs Hb eq_refl VB)) as T'.
        cbn [board_c] in T'. injection T' as -> ->. clear T.
        apply andb_true_iff in V. destruct V as [R E].
        destruct (in_range_nat _ _ R) as [Hi Hj]. apply mark_eqb_eq in E.
        set (i := Z.to_nat row) in *. set (j := Z.to_nat col) in *.
        pose proof (place_3x3 i j X Hb) as Hb'.
        pose proof (@has_lineb_place_other b i j X O Hb Hi Hj E
                      ltac:(discriminate) ltac:(discriminate)) as HO'.
        rewrite HO in HO'.
        destruct (game_value_min Hb HO HX HF) as [Hle _].
        specialize (Hle i j Hi Hj E). cbn [mark_eqb].
        pose proof (game_value_terminal true Hb') as TV.
        rewrite HO' in TV.
        destruct (next_flow_cases (place b i j X) X)
          as [(W & ->) | [(W & F & ->) | (W & F & ->)]];
          rewrite W in TV; try rewrite F in TV; cbn [verdict_value].
        -- lia.
        -- lia.
        -- cbn [board_c turn other mark_eqb]. split; [|split; auto].
           apply in_play_iff. auto.
      * unfold PartB.turn_body in T. cbn [turn mark_eqb] in T.
        rewrite validateEntry_B in T by trivial. cbn [board_c] in T.
        rewrite V in T. cbn in T. injection T as <- _.
        cbn [board_c turn]. split; [trivial | split; [now left | lia]].
    + cbn in T. injection T as <- _.
      cbn [board_c turn]. split; [trivial | split; [now left | lia]].
  - (* the computer *)
    destruct (@computer_move_value fuel b Hb ltac:(lia) HO HX HF)
      as (i & j & M & Hi & Hj & E & Hv).
    pose proof (eq_trans (eq_sym T)
                  (@turn_body_B_computer {| board_c := b; turn := O |}
                     i j fuel inputs Hb eq_refl Hi Hj M)) as T'.
    cbn [board_c] in T'. injection T' as -> _. clear T. cbn [mark_eqb].
    pose proof (place_3x3 i j O Hb) as Hb'.
    pose proof (@has_lineb_place_other b i j O X Hb Hi Hj E
                  ltac:(discriminate) ltac:(discriminate)) as HX'.
    rewrite HX in HX'.
    pose proof (game_value_terminal false Hb') as TV.
    destruct (@game_value_ok b true 10 Hb ltac:(lia)) as [_ Hrange].
    destruct (next_flow_cases (place b i j O) O)
      as [(W & ->) | [(W & F & ->) | (W & F & ->)]];
      rewrite W in TV; try rewrite HX' in TV; try rewrite F in TV;
      cbn [verdict_value].
    + lia.
    + lia.
    + cbn [board_c turn other mark_eqb]. split; [|split; [now left | lia]].
      apply in_play_iff. auto.
Qed.

Lemma play_loop_value fuel passes :
  (9 <= fuel)%nat ->
  forall inputs g v g',
    in_play (board_c g) -> turn g = X \/ turn g = O ->
    PartB.play_loop fuel passes inputs g = Ok (v, g') ->
    (position_value g <= verdict_value v)%Z.
Proof.
  intros Hf. induction passes as [|passes IH]; intros inputs g v g' P Ht;
    cbn [PartB.play_loop]; [discriminate|].
  destruct (PartB.turn_body fuel inputs g) as [[f rest]| |] eqn:T;
    cbn [bind]; try discriminate.
  pose proof (@turn_body_value fuel inputs g f rest Hf P Ht T) as H.
  destruct f as [g1 | v1 g1].
  - destruct H as (P1 & Ht1 & Hle). intros L.
    specialize (IH rest g1 v g' P1 Ht1 L). lia.
  - intros [= <- <-]. exact H.
Qed.

End PartB_play.

(** X1.  On a board in progress the value [minimax] returns for the
    maximizer is the value of one of O's moves and no move of O is worth
    more; the value it returns for the minimizer is the value of one of
    X's moves and no move of X is worth less. *)
Theorem minimax_best_child (fuel : nat) (b : board) :
  in_play b -> (blanks b < fuel)%nat ->
  (exists z,
     minimax fuel b true = Ok (Fin z, b)
     /\ (exists i j, (i < 3)%nat /\ (j < 3)%nat /\ cell b i j = Ok Blank
           /\ minimax fuel (place b i j O) false
              = Ok (Fin z, place b i j O))
     /\ (forall i j z', (i < 3)%nat -> (j < 3)%nat ->
           cell b i j = Ok Blank ->
           minimax fuel (place b i j O) false
           = Ok (Fin z', place b i j O) ->
           (z' <= z)%Z))
  /\ (exists z,
        minimax fuel b false = Ok (Fin z, b)
        /\ (exists i j, (i < 3)%nat /\ (j < 3)%nat /\ cell b i j = Ok Blank
              /\ minimax fuel (place b i j X) true
                 = Ok (Fin z, place b i j X))
        /\ (forall i j z', (i < 3)%nat -> (j < 3)%nat ->
              cell b i j = Ok Blank ->
              minimax fuel (place b i j X) true
              = Ok (Fin z', place b i j X) ->
              (z <= z')%Z)).
Proof.
  intros P Hn. apply PartB_play.in_play_iff in P.
  destruct P as (Hb & HX & HO & HF).
  assert (Hcell : forall i j, (i < 3)%nat -> (j < 3)%nat ->
            (cell b i j = Ok Blank <-> at_ b i j = Blank)).
  { intros i j Hi Hj. rewrite (cell_at Hb Hi Hj).
    split; [congruence | intros ->; reflexivity]. }
  assert (Hchild : forall i j who m, (i < 3)%nat -> (j < 3)%nat ->
            at_ b i j = Blank -> who <> Blank ->
            minimax fuel (place b i j who) m
            = Ok (Fin (game_value (place b i j who) m), place b i j who)).
  { intros. apply PartB_play.game_value_child; trivial. lia. }
  split.
  - exists (game_value b true).
    split; [now apply PartB_play.game_value_ok|].
    destruct (PartB_play.game_value_max Hb HO HX HF)
      as [Hle (i & j & Hi & Hj & E & Heq)].
    split.
    + exists i, j. rewrite Hcell by trivial. repeat (split; trivial).
      rewrite <- Heq. apply Hchild; trivial. discriminate.
    + intros i' j' z' Hi' Hj' E' M. apply Hcell in E'; trivial.
      rewrite Hchild in M by (trivial; discriminate).
      injection M as <-. now apply Hle.
  - exists (game_value b false).
    split; [now apply PartB_play.game_value_ok|].
    destruct (PartB_play.game_value_min Hb HO HX HF)
      as [Hle (i & j & Hi & Hj & E & Heq)].
    split.
    + exists i, j. rewrite Hcell by trivial. repeat (split; trivial).
      rewrite <- Heq. apply Hchild; trivial. discriminate.
    + intros i' j' z' Hi' Hj' E' M. apply Hcell in E'; trivial.
      rewrite Hchild in M by (trivial; discriminate).
      injection M as <-. now apply Hle.
Qed.

Lemma in_play_intro b :
  is_3x3 b -> in_playb b = true -> in_play b.
Proof.
  intros Hb H. unfold in_playb in H.
  rewrite !andb_true_iff, !negb_true_iff in H.
  apply PartB_play.in_play_iff. tauto.
Qed.

Lemma minimax_best_child_witness :
  let b := [[X; X; O]; [Blank; O; Blank]; [Blank; Blank; Blank]] in
  (exists z,
     minimax 7 b true = Ok (Fin z, b)
     /\ (exists i j, (i < 3)%nat /\ (j < 3)%nat /\ cell b i j = Ok Blank
           /\ minimax 7 (place b i j O) false
              = Ok (Fin z, place b i j O))
     /\ (forall i j z', (i < 3)%nat -> (j < 3)%nat ->
           cell b i j = Ok Blank ->
           minimax 7 (place b i j O) false
           = Ok (Fin z', place b i j O) ->
           (z' <= z)%Z))
  /\ (exists z,
        minimax 7 b false = Ok (Fin z, b)
        /\ (exists i j, (i < 3)%nat /\ (j < 3)%nat /\ cell b i j = Ok Blank
              /\ minimax 7 (place b i j X) true
                 = Ok (Fin z, place b i j X))
        /\ (forall i j z', (i < 3)%nat -> (j < 3)%nat ->
              cell b i j = Ok Blank ->
              minimax 7 (place b i j X) true
              = Ok (Fin z', place b i j X) ->
              (z <= z')%Z)).
Proof.
  intros b. apply minimax_best_child.
  - apply in_play_intro; [apply is_3x3_intro | reflexivity].
  - vm_compute. lia.
Defined.

(** X2.  In Part B, from a game in progress with fuel for nine levels,
    whatever the human enters, a verdict the loop reaches is worth to O
    at least the minimax value of the position it started from. *)
Theorem computer_secures_value (fuel passes : nat) (inputs : list entry)
    (g g' : Game) (v : verdict) :
  (9 <= fuel)%nat ->
  in_play (board_c g) -> turn g = X \/ turn g = O ->
  PartB.play_loop fuel passes inputs g = Ok (v, g') ->
  (position_value g <= verdict_value v)%Z.
Proof.
  intros Hf P Ht L.
  exact (@PartB_play.play_loop_value fuel passes Hf inputs g v g' P Ht L).
Qed.

Lemma computer_secures_value_witness :
  let g := {| board_c := [[X; X; O]; [Blank; O; Blank];
                          [Blank; Blank; Blank]]; turn := X |} in
  (position_value g <= verdict_value (Winner O))%Z.
Proof.
  intros g.
  apply (@computer_secures_value 9 20 [Some (1, 0); Some (2, 1)]%Z g
           {| board_c := [[X; X; O]; [X; O; Blank]; [O; Blank; Blank]];
              turn := O |} (Winner O)).
  - lia.
  - apply in_play_intro; [apply is_3x3_intro | reflexivity].
  - now left.
  - vm_compute. reflexivity.
Defined.

Lemma init_position_value : position_value Game_init = 0%Z.
Proof. vm_compute. reflexivity. Qed.

(** X3.  In Part B the human never wins: from the empty board, with fuel
    for nine levels, whatever is entered, a verdict the loop reaches is
    a win of the computer or a draw. *)
Theorem computer_never_loses (fuel passes : nat) (inputs : list entry)
    (g' : Game) (v : verdict) :
  (9 <= fuel)%nat ->
  PartB.play_loop fuel passes inputs Game_init = Ok (v, g') ->
  v = Winner O \/ v = Draw.
Proof.
  intros Hf L.
  assert (in_play (board_c Game_init)) as P
    by (apply in_play_intro; [apply is_3x3_intro | reflexivity]).
  pose proof (@PartB_play.play_loop_value fuel passes Hf inputs Game_init
                v g' P (or_introl eq_refl) L) as H.
  rewrite init_position_value in H.
  destruct v as [[| |]|]; cbn [verdict_value] in H; auto; lia.
Qed.

Lemma computer_never_loses_witness :
  Winner O = Winner O \/ Winner O = Draw.
Proof.
  apply (@computer_never_loses 9 20
           [Some (0, 0); None; Some (0, 0); Some (5, 1); Some (0, 1);
            Some (1, 0)]%Z
           {| board_c := [[X; X; O]; [X; O; Blank]; [O; Blank; Blank]];
              turn := O |} (Winner O)).
  - lia.
  - vm_compute. reflexivity.
Defined.

(** X4.  [getComputerMove] returns [None] exactly on a full board, where
    it needs no fuel at all; the board is left as it was. *)
Theorem getComputerMove_none_iff_full (fuel : nat) (b : board) :
  is_3x3 b -> (blanks b <= fuel)%nat ->
  (getComputerMove fuel b = Ok (None, b) <-> full b)
  /\ (full b -> forall fuel', getComputerMove fuel' b = Ok (None, b)).
Proof.
  intros Hb Hn.
  assert (Hfull : full b -> forall fuel',
            getComputerMove fuel' b = Ok (None, b)).
  { intros F fuel'.
    assert (Hrec : forall i j, (i < 3)%nat -> (j < 3)%nat ->
              at_ b i j = Blank ->
              minimax fuel' (place b i j O) false
              = Ok (Fin 0, place b i j O)).
    { intros i j Hi Hj E. destruct (F i j Hi Hj).
      rewrite (cell_at Hb Hi Hj). now f_equal. }
    rewrite (@getComputerMove_fold fuel' b (fun _ _ => 0%Z) Hb Hrec).
    pose proof (@selected_fold b (fun _ _ => 0%Z) positions []
                  (NegInf, None)
                  (conj eq_refl (fun p (H : In p []) => match H with end)))
      as S.
    cbn [app] in S. unfold selected in S.
    destruct (fold_left (select_step b (fun _ _ => 0%Z)) positions
                (NegInf, None)) as [best [[i j]|]]; cbn [fst snd] in *;
      trivial.
    destruct S as (_ & E & pre & post & Hsplit & _).
    assert (In (i, j) positions) as Hin
      by (rewrite Hsplit; apply in_or_app; right; now left).
    pose proof positions_in_range as R. rewrite Forall_forall in R.
    destruct (R _ Hin) as [Hi Hj]. cbn [fst snd] in Hi, Hj.
    destruct (F i j Hi Hj). rewrite (cell_at Hb Hi Hj). now f_equal. }
  split; trivial. split; [|auto].
  intros M. destruct (no_blank b) eqn:E; [now apply full_no_blank|].
  assert (~ full b) as Hnf
    by (intros F; apply (full_no_blank Hb) in F; congruence).
  destruct (getComputerMove_some Hb Hn Hnf) as (i & j & M' & _).
  congruence.
Qed.

Lemma getComputerMove_none_iff_full_witness :
  let b := [[X; O; X]; [X; O; O]; [O; X; X]] in
  (getComputerMove 0 b = Ok (None, b) <-> full b)
  /\ (full b -> forall fuel', getComputerMove fuel' b = Ok (None, b)).
Proof.
  intros b. apply getComputerMove_none_iff_full.
  - apply is_3x3_intro.
  - vm_compute. lia.
Defined.

Lemma turn_body_B_runs fuel inputs g :
  (9 <= fuel)%nat ->
  in_play (board_c g) -> turn g = X \/ turn g = O ->
  (inputs = [] /\ turn g = X
   /\ PartB.turn_body fuel inputs g = Raise EOFError)
  \/ exists f rest,
       PartB.turn_body fuel inputs g = Ok (f, rest)
       /\ match f with
          | Continue g' => (passes_left rest g' < passes_left inputs g)%nat
          | Break _ _ => True
          end.
Proof.
  intros Hf P Ht. apply PartB_play.in_play_iff in P.
  destruct P as (Hb & HX & HO & HF).
  pose proof (blanks_le_9 Hb) as H9.
  destruct g as [b t]. cbn [board_c turn] in *. unfold passes_left.
  destruct Ht as [-> | ->]; cbn [turn mark_eqb].
  - destruct inputs as [|[[row col]|] inputs]; [left; auto| |];
      right; unfold PartB.turn_body; cbn [turn mark_eqb].
    + rewrite validateEntry_B by trivial. cbn [board_c bind].
      destruct (in_range row col
                && mark_eqb (at_ b (Z.to_nat row) (Z.to_nat col)) Blank)
        eqn:V; cbn [negb].
      * apply andb_true_iff in V. destruct V as [R E].
        destruct (in_range_nat _ _ R) as [Hi Hj].
        rewrite (set_cell_place X Hb Hi Hj). cbn [bind].
        rewrite end_of_turn_B by (auto using place_3x3).
        cbn [bind]. eexists. eexists. split; [reflexivity|].
        destruct (PartB_play.next_flow_cases
                    (place b (Z.to_nat row) (Z.to_nat col) X) X)
          as [(_ & ->) | [(_ & _ & ->) | (_ & _ & ->)]]; trivial.
        cbn [turn other mark_eqb length]. lia.
      * eexists. eexists. split; [reflexivity|].
        cbn [turn mark_eqb length]. lia.
    + eexists. eexists. split; [reflexivity|].
      cbn [turn mark_eqb length]. lia.
  - right.
    destruct (@PartB_play.computer_move_value fuel b Hb ltac:(lia)
                HO HX HF) as (i & j & M & Hi & Hj & E & _).
    rewrite (@turn_body_B_computer {| board_c := b; turn := O |}
               i j fuel inputs Hb eq_refl Hi Hj M).
    eexists. eexists. split; [reflexivity|]. cbn [board_c].
    destruct (PartB_play.next_flow_cases (place b i j O) O)
      as [(_ & ->) | [(_ & _ & ->) | (_ & _ & ->)]]; trivial.
    cbn [turn other mark_eqb]. lia.
Qed.

(** X5.  Part B's loop, started on a game in progress with fuel for nine
    levels and more passes than two for each entry and one, stops with a
    verdict or with [EOFError] at the end of the entries: whatever the
    integers entered, no index is out of range and the pass bound is not
    reached. *)
Theorem play_loop_B_ends (fuel passes : nat) (inputs : list entry)
    (g : Game) :
  (9 <= fuel)%nat ->
  in_play (board_c g) -> turn g = X \/ turn g = O ->
  (2 * length inputs + 1 < passes)%nat ->
  (exists v g', PartB.play_loop fuel passes inputs g = Ok (v, g'))
  \/ PartB.play_loop fuel passes inputs g = Raise EOFError.
Proof.
  intros Hf P Ht Hp.
  assert (passes_left inputs g < passes)%nat as Hm
    by (unfold passes_left; destruct (mark_eqb (turn g) O); lia).
  clear Hp. revert inputs g P Ht Hm.
  induction passes as [|passes IH]; intros inputs g P Ht Hm; [lia|].
  cbn [PartB.play_loop].
  destruct (@turn_body_B_runs fuel inputs g Hf P Ht)
    as [(_ & _ & ->) | (f & rest & T & Hless)]; [now right|].
  pose proof (@PartB_play.turn_body_value fuel inputs g f rest Hf P Ht T)
    as H.
  rewrite T. cbn [bind]. destruct f as [g1 | v1 g1].
  - destruct H as (P1 & Ht1 & _). apply IH; trivial. lia.
  - left. eauto.
Qed.

Lemma play_loop_B_ends_witness :
  let g := {| board_c := [[X; X; O]; [Blank; O; Blank];
                          [Blank; Blank; Blank]]; turn := X |} in
  let inputs := [Some (7, 7); None; Some (0, 0); Some (1, 0)]%Z in
  (exists v g', PartB.play_loop 9 10 inputs g = Ok (v, g'))
  \/ PartB.play_loop 9 10 inputs g = Raise EOFError.
Proof.
  intros g inputs. apply play_loop_B_ends.
  - lia.
  - apply in_play_intro; [apply is_3x3_intro | reflexivity].
  - now left.
  - cbn. lia.
Defined.

(** ** Part A: the games as played *)

Module PartA_play.

Lemma has_line_count b t :
  is_3x3 b -> has_line b t -> (3 <= count_mark t b)%nat.
Proof.
  intros Hb (l & Hl & H). board9 Hb. rewrite count_mark_9.
  unfold lines in Hl. cbn [In] in Hl.
  decompose [or] Hl; try contradiction; subst l;
    repeat match goal with
           | H : forall i j, In (i, j) (?p :: ?r) -> _ |- _ =>
               let E := fresh "E" in
               pose proof (H (fst p) (snd p) (or_introl eq_refl)) as E;
               cbn in E; injection E as E;
               assert (forall i j, In (i, j) r ->
                         cell [[a0; a1; a2]; [b0; b1; b2]; [c0; c1; c2]]
                              i j = Ok t)
                 by (intros i j Hij; apply H; now right);
               clear H
           end;
    subst; rewrite ?mark_eqb_refl; lia.
Qed.

Lemma turn_of_balanced g : balanced g -> turn g = X \/ turn g = O.
Proof. intros (_ & [[H _] | [H _]]); auto. Qed.

(** A mark of the player to move on a blank cell, followed by the
    end-of-turn test. *)
Lemma next_flow_step g i j :
  at_head g -> (i < 3)%nat -> (j < 3)%nat -> at_ (board_c g) i j = Blank ->
  match next_flow (place (board_c g) i j (turn g)) (turn g) with
  | Continue g' =>
      at_head g' /\ marks (board_c g') = S (marks (board_c g))
      /\ turn g' = other (turn g)
  | Break v g' =>
      verdict_fits v g' /\ is_3x3 (board_c g')
      /\ marks (board_c g') = S (marks (board_c g))
      /\ ((turn g' = O
           /\ count_mark X (board_c g') = count_mark O (board_c g'))
          \/ (turn g' = X
              /\ count_mark X (board_c g') = S (count_mark O (board_c g'))))
  end.
Proof.
  intros (P & B) Hi Hj E.
  pose proof (turn_of_balanced B) as Ht.
  apply PartB_play.in_play_iff in P. destruct P as (Hb & HX & HO & HF).
  destruct B as (_ & B).
  destruct (place_counts (turn g) Hb Hi Hj E) as [CX CO].
  pose proof (place_3x3 i j (turn g) Hb) as Hb'.
  assert (Hother : has_lineb (place (board_c g) i j (turn g))
                     (other (turn g)) = false).
  { rewrite PartB_play.has_lineb_place_other; trivial;
      destruct Ht as [-> | ->]; cbn [other]; trivial; discriminate. }
  assert (Hmarks : marks (place (board_c g) i j (turn g))
                   = S (marks (board_c g))).
  { unfold marks. rewrite CX, CO.
    destruct Ht as [-> | ->]; cbn [mark_eqb]; lia. }
  assert (Hbal : forall t',
            t' = other (turn g) ->
            balanced {| board_c := place (board_c g) i j (turn g);
                        turn := t' |}).
  { intros t' ->. split; trivial. cbn [board_c turn]. rewrite CX, CO.
    destruct B as [[Ht' C] | [Ht' C]]; rewrite Ht'; cbn [mark_eqb other];
      [right | left]; split; trivial; lia. }
  destruct (PartB_play.next_flow_cases (place (board_c g) i j (turn g))
              (turn g))
    as [(W & ->) | [(W & F & ->) | (W & F & ->)]]; cbn [board_c turn].
  - split; [|split; [trivial | split; [trivial|]]].
    + unfold verdict_fits. cbn [board_c turn].
      split; [trivial | split; [trivial | split]].
      * now apply has_lineb_spec.
      * now apply has_line_false.
    + rewrite CX, CO.
      destruct B as [[Ht' C] | [Ht' C]]; rewrite Ht'; cbn [mark_eqb];
        [right | left]; split; trivial; lia.
  - split; [|split; [trivial | split; [trivial|]]].
    + unfold verdict_fits. cbn [board_c turn].
      split; [now apply full_no_blank|].
      destruct Ht as [Ht | Ht]; rewrite Ht in *; cbn [other] in *;
        split; now apply has_line_false.
    + rewrite CX, CO.
      destruct B as [[Ht' C] | [Ht' C]]; rewrite Ht'; cbn [mark_eqb];
        [right | left]; split; trivial; lia.
  - split; [|split; trivial]. split; [|now apply Hbal].
    cbn [board_c]. apply PartB_play.in_play_iff. split; trivial.
    destruct Ht as [Ht | Ht]; rewrite Ht in *; cbn [other] in *; auto.
Qed.

Lemma turn_body_A_step g inp f :
  at_head g -> PartA.turn_body inp g = Ok f ->
  match f with
  | Continue g' =>
      at_head g' /\ (g' = g \/ marks (board_c g') = S (marks (board_c g)))
  | Break v g' =>
      verdict_fits v g' /\ is_3x3 (board_c g')
      /\ marks (board_c g') = S (marks (board_c g))
      /\ ((turn g' = O
           /\ count_mark X (board_c g') = count_mark O (board_c g'))
          \/ (turn g' = X
              /\ count_mark X (board_c g') = S (count_mark O (board_c g'))))
  end.
Proof.
  intros H T.
  destruct (@turn_body_A_cases g inp f (proj2 H) T)
    as [-> | (i & j & Hi & Hj & E & ->)].
  { split; [trivial | now left]. }
  pose proof (@next_flow_step g i j H Hi Hj E) as S.
  destruct (next_flow _ _); [|exact S].
  destruct S as (S1 & S2 & _). auto.
Qed.

Lemma at_head_init : at_head Game_init.
Proof.
  split.
  - apply in_play_intro; [apply is_3x3_intro | reflexivity].
  - split; [apply is_3x3_intro | left; split; reflexivity].
Qed.

Lemma play_loop_A_fits inputs :
  forall g v g',
    at_head g -> PartA.play_loop inputs g = Ok (v, g') ->
    verdict_fits v g' /\ is_3x3 (board_c g')
    /\ (marks (board_c g) < marks (board_c g'))%nat
    /\ ((turn g' = O
         /\ count_mark X (board_c g') = count_mark O (board_c g'))
        \/ (turn g' = X
            /\ count_mark X (board_c g') = S (count_mark O (board_c g')))).
Proof.
  induction inputs as [|inp inputs IH]; intros g v g' H;
    cbn [PartA.play_loop]; [discriminate|].
  destruct (PartA.turn_body inp g) as [f| |] eqn:T; cbn [bind];
    try discriminate.
  pose proof (@turn_body_A_step g inp f H T) as S.
  destruct f as [g1 | v1 g1].
  - destruct S as [H1 Hm]. intros L.
    destruct (IH g1 v g' H1 L) as (F & Hb & Hlt & C).
    repeat (split; trivial). destruct Hm as [-> | Hm]; lia.
  - intros [= <- <-]. destruct S as (F & Hb & Hm & C).
    repeat (split; trivial). lia.
Qed.

Lemma cell_counts_one (a : mark) :
  ((if mark_eqb X a then 1 else 0) + (if mark_eqb O a then 1 else 0)
   + (if mark_eqb Blank a then 1 else 0) = 1)%nat.
Proof. now destruct a. Qed.

Lemma marks_blanks b : is_3x3 b -> (marks b + blanks b = 9)%nat.
Proof.
  intros Hb. board9 Hb. unfold marks, blanks. rewrite !count_mark_9.
  pose proof (cell_counts_one a0). pose proof (cell_counts_one a1).
  pose proof (cell_counts_one a2). pose proof (cell_counts_one b0).
  pose proof (cell_counts_one b1). pose proof (cell_counts_one b2).
  pose proof (cell_counts_one c0). pose proof (cell_counts_one c1).
  pose proof (cell_counts_one c2). lia.
Qed.

Lemma full_blanks b : is_3x3 b -> full b -> blanks b = 0%nat.
Proof.
  intros Hb F. apply (full_no_blank Hb) in F.
  unfold no_blank in F. unfold blanks, count_mark.
  induction (concat b) as [|a l IH]; trivial.
  cbn [forallb] in F. apply andb_true_iff in F. destruct F as [Fa Fl].
  cbn [filter]. destruct a; try discriminate; cbn [mark_eqb]; auto.
Qed.

Lemma turn_body_A_total g inp :
  at_head g -> exists f, PartA.turn_body inp g = Ok f.
Proof.
  intros (P & B). pose proof (turn_of_balanced B) as Ht.
  destruct P as (Hb & _).
  destruct inp as [[row col]|]; [|eexists; reflexivity].
  destruct (in_range row col
            && mark_eqb (at_ (board_c g) (Z.to_nat row) (Z.to_nat col))
                 Blank) eqn:V.
  - pose proof (validateEntry_A g row col Hb) as VA. rewrite V in VA.
    eexists. now apply turn_body_A.
  - unfold PartA.turn_body. rewrite validateEntry_A, V by trivial.
    eexists. reflexivity.
Qed.

Lemma rejected_turn g inp :
  is_3x3 (board_c g) -> rejected g inp ->
  PartA.turn_body inp g = Ok (Continue g).
Proof.
  intros Hb R. destruct inp as [[row col]|]; [|reflexivity].
  unfold PartA.turn_body. rewrite validateEntry_A by trivial.
  destruct (in_range row col
            && mark_eqb (at_ (board_c g) (Z.to_nat row) (Z.to_nat col))
                 Blank) eqn:V; [|reflexivity].
  destruct R. apply andb_true_iff in V. destruct V as [Rg E].
  destruct (in_range_nat _ _ Rg) as [Hi Hj].
  apply in_range_spec in Rg. apply mark_eqb_eq in E.
  rewrite (cell_at Hb Hi Hj), E. tauto.
Qed.

Lemma awaiting_at_head g : awaiting g -> at_head g.
Proof.
  induction 1 as [|g inp g' _ IH T]; [apply at_head_init|].
  exact (proj1 (@turn_body_A_step g inp (Continue g') IH T)).
Qed.

End PartA_play.

(** X6.  A verdict of Part A fits the board it is announced on: a win is
    announced for the player who has just moved and holds a line, while
    the other player holds none; a draw is announced on a full board on
    which nobody holds a line. *)
Theorem play_loop_A_verdict (inputs : list entry) (v : verdict) (g : Game) :
  PartA.play_loop inputs Game_init = Ok (v, g) -> verdict_fits v g.
Proof.
  intros L.
  exact (proj1 (@PartA_play.play_loop_A_fits inputs Game_init v g
                  PartA_play.at_head_init L)).
Qed.

Lemma play_loop_A_verdict_witness :
  verdict_fits (Winner X)
    {| board_c := [[X; X; X]; [Blank; O; Blank]; [Blank; Blank; O]];
       turn := X |}.
Proof.
  apply (@play_loop_A_verdict
           [Some (0, 0); Some (1, 1); Some (0, 1); Some (2, 2);
            Some (0, 2)]%Z).
  reflexivity.
Defined.

(** X7.  A finished game of Part A has between five and nine marks on
    its board: when X wins X has one mark more than O, when O wins both
    have as many, and a draw shows five X and four O. *)
Theorem finished_game_marks (inputs : list entry) (v : verdict) (g : Game) :
  PartA.play_loop inputs Game_init = Ok (v, g) ->
  (5 <= marks (board_c g) <= 9)%nat
  /\ match v with
     | Winner X => count_mark X (board_c g) = S (count_mark O (board_c g))
     | Winner O => count_mark X (board_c g) = count_mark O (board_c g)
     | Winner Blank => False
     | Draw => count_mark X (board_c g) = 5%nat
               /\ count_mark O (board_c g) = 4%nat
     end.
Proof.
  intros L.
  destruct (@PartA_play.play_loop_A_fits inputs Game_init v g
              PartA_play.at_head_init L) as (F & Hb & _ & C).
  pose proof (PartA_play.marks_blanks Hb) as M.
  unfold marks in *. destruct v as [t|]; cbn [verdict_fits] in F.
  - destruct F as (Ht & Hturn & Hl & _).
    pose proof (PartA_play.has_line_count Hb Hl) as H3.
    destruct C as [[HtO C] | [HtX C]];
      destruct Ht as [-> | ->]; try congruence; split; trivial; lia.
  - destruct F as (F & _).
    pose proof (PartA_play.full_blanks Hb F) as B0.
    destruct C as [[_ C] | [_ C]]; split; lia.
Qed.

Lemma finished_game_marks_witness :
  let g := {| board_c := [[X; O; X]; [X; O; O]; [O; X; X]]; turn := X |} in
  (5 <= marks (board_c g) <= 9)%nat
  /\ count_mark X (board_c g) = 5%nat /\ count_mark O (board_c g) = 4%nat.
Proof.
  intros g.
  apply (@finished_game_marks
           [Some (0, 0); Some (0, 1); Some (0, 2); Some (1, 1); Some (1, 0);
            Some (1, 2); Some (2, 1); Some (2, 0); Some (2, 2)]%Z Draw g).
  reflexivity.
Defined.

(** X8.  Part A's loop raises nothing but [EOFError] at the end of the
    entries, whatever integers are entered; entries it turns down (text
    that does not parse, coordinates out of range, a cell already taken)
    leave the game as it is, so a run that starts with such entries is
    the run without them. *)
Theorem play_loop_A_rejects (pre inputs : list entry) (g : Game) :
  awaiting g -> Forall (rejected g) pre ->
  PartA.play_loop (pre ++ inputs) g = PartA.play_loop inputs g
  /\ ((exists v g', PartA.play_loop inputs g = Ok (v, g'))
      \/ PartA.play_loop inputs g = Raise EOFError).
Proof.
  intros A R. pose proof (PartA_play.awaiting_at_head A) as H.
  split.
  - induction R as [|inp pre Hinp _ IH]; trivial.
    cbn [app PartA.play_loop].
    now rewrite (@PartA_play.rejected_turn g inp (proj1 (proj1 H)) Hinp).
  - clear R A. revert g H.
    induction inputs as [|inp inputs IH]; intros g H; [now right|].
    cbn [PartA.play_loop].
    destruct (@PartA_play.turn_body_A_total g inp H) as (f & T).
    pose proof (@PartA_play.turn_body_A_step g inp f H T) as S.
    rewrite T. cbn [bind]. destruct f as [g1 | v1 g1].
    + apply IH. apply S.
    + left. eauto.
Qed.

Lemma play_loop_A_rejects_witness :
  let pre := [None; Some (3, 0); Some (-1, 1)]%Z in
  let inputs := [Some (1, 1)]%Z in
  PartA.play_loop (pre ++ inputs) Game_init = PartA.play_loop inputs Game_init
  /\ ((exists v g', PartA.play_loop inputs Game_init = Ok (v, g'))
      \/ PartA.play_loop inputs Game_init = Raise EOFError).
Proof.
  intros pre inputs. apply play_loop_A_rejects; [apply aw_init|].
  repeat constructor; cbn; lia.
Defined.

(** X9.  Part A prompts only while the game is open: at the head of its
    loop nobody holds a line, X or O is to move, and some entry is
    accepted. *)
Theorem prompt_in_play (g : Game) :
  awaiting g ->
  in_play (board_c g) /\ (turn g = X \/ turn g = O)
  /\ exists row col, PartA.validateEntry g row col = Ok true.
Proof.
  intros A. destruct (PartA_play.awaiting_at_head A) as (P & B).
  split; trivial. split; [now apply PartA_play.turn_of_balanced|].
  destruct P as (Hb & _ & _ & HF).
  destruct (not_full_blank Hb HF) as ([i j] & Hin & E).
  pose proof positions_in_range as R. rewrite Forall_forall in R.
  destruct (R _ Hin) as [Hi Hj]. cbn [fst snd] in *.
  exists (Z.of_nat i), (Z.of_nat j).
  rewrite validateEntry_A by trivial. f_equal.
  apply andb_true_iff. split.
  - apply in_range_spec. lia.
  - rewrite !Nat2Z.id. now apply mark_eqb_eq.
Qed.

Lemma prompt_in_play_witness :
  let g := {| board_c := [[X; Blank; Blank]; [Blank; O; Blank];
                           [Blank; Blank; Blank]]; turn := X |} in
  in_play (board_c g) /\ (turn g = X \/ turn g = O)
  /\ exists row col, PartA.validateEntry g row col = Ok true.
Proof.
  intros g. apply prompt_in_play.
  apply aw_next with
    (g := {| board_c := [[X; Blank; Blank]; [Blank; Blank; Blank];
                         [Blank; Blank; Blank]]; turn := O |})
    (inp := Some (1, 1)%Z); [|reflexivity].
  apply aw_next with (g := Game_init) (inp := Some (0, 0)%Z);
    [apply aw_init | reflexivity].
Defined.

(** ** Part C: the games as played *)

Module PartC_play.

Lemma checkWin_C g :
  is_3x3 (board_c g) ->
  PartC.checkWin g = Ok (has_lineb (board_c g) (turn g)).
Proof.
  destruct g as [b p]. cbn [board_c turn]. intros Hb. board9 Hb.
  unfold PartC.checkWin, has_lineb. cbn.
  destruct (mark_eqb a0 p), (mark_eqb a1 p), (mark_eqb a2 p),
    (mark_eqb b0 p), (mark_eqb b1 p), (mark_eqb b2 p),
    (mark_eqb c0 p), (mark_eqb c1 p), (mark_eqb c2 p); reflexivity.
Qed.

Lemma end_of_turn_C b p :
  is_3x3 b -> p = X \/ p = O ->
  PartC.end_of_turn {| board_c := b; turn := p |} = Ok (next_flow b p).
Proof.
  intros Hb Ht. unfold PartC.end_of_turn.
  rewrite checkWin_C by trivial. cbn [bind board_c turn].
  unfold next_flow, PartC.checkFull. cbn [board_c].
  destruct (has_lineb b p).
  - now destruct Ht as [-> | ->].
  - destruct (no_blank b); trivial.
    unfold PartC.switchPlayer. cbn [board_c turn].
    now destruct Ht as [-> | ->].
Qed.

(** The cell the computer marks is a blank cell of the board. *)
Lemma computer_cell predict randbelow g :
  is_3x3 (board_c g) -> ~ full (board_c g) ->
  (forall n, (0 < n)%nat -> (randbelow n < n)%nat) ->
  exists i j out,
    PartC.getComputerMove predict randbelow g
    = Ok ((Z.of_nat i, Z.of_nat j), out)
    /\ (i < 3)%nat /\ (j < 3)%nat /\ at_ (board_c g) i j = Blank.
Proof.
  intros Hb Hnf Hr.
  set (idx := predict (PartC.encodeBoard g)).
  destruct (in_range (idx / 3) (idx mod 3)
            && mark_eqb (at_ (board_c g) (Z.to_nat (idx / 3))
                           (Z.to_nat (idx mod 3))) Blank) eqn:V.
  - pose proof (validateEntry_C g (idx / 3) (idx mod 3) Hb) as VC.
    rewrite V in VC. apply andb_true_iff in V. destruct V as [R E].
    destruct (in_range_nat _ _ R) as [Hi Hj]. apply in_range_spec in R.
    apply mark_eqb_eq in E.
    exists (Z.to_nat (idx / 3)), (Z.to_nat (idx mod 3)), [].
    split; [|auto]. unfold PartC.getComputerMove. fold idx.
    rewrite VC. cbn [bind negb]. rewrite !Z2Nat.id by lia. reflexivity.
  - pose proof (validateEntry_C g (idx / 3) (idx mod 3) Hb) as VC.
    rewrite V in VC.
    destruct (@getComputerMove_C_fallback predict randbelow g Hb Hnf Hr VC)
      as (r & c & M & Hin).
    apply (blank_cells_spec r c Hb) in Hin. destruct Hin as (Hi & Hj & E).
    rewrite (cell_at Hb Hi Hj) in E.
    exists r, c, [PartC.fallback_notice]. repeat split; trivial.
    congruence.
Qed.

Lemma turn_body_C_step predict randbelow inputs g :
  at_head g ->
  (forall n, (0 < n)%nat -> (randbelow n < n)%nat) ->
  (inputs = [] /\ turn g = X
   /\ PartC.turn_body predict randbelow inputs g = Raise EOFError)
  \/ exists f rest,
       PartC.turn_body predict randbelow inputs g = Ok (f, rest)
       /\ match f with
          | Continue g' =>
              at_head g'
              /\ (passes_left rest g' < passes_left inputs g)%nat
          | Break v g' =>
              verdict_fits v g' /\ is_3x3 (board_c g')
              /\ ((turn g' = O
                   /\ count_mark X (board_c g') = count_mark O (board_c g'))
                  \/ (turn g' = X
                      /\ count_mark X (board_c g')
                         = S (count_mark O (board_c g'))))
          end.
Proof.
  intros H Hr. pose proof H as (P & B).
  pose proof (PartA_play.turn_of_balanced B) as Ht.
  destruct P as (Hb & _ & _ & HF).
  unfold PartC.turn_body, passes_left.
  destruct Ht as [Ht | Ht]; rewrite Ht; cbn [mark_eqb].
  - destruct inputs as [|[[row col]|] inputs]; [left; auto| |]; right.
    + rewrite validateEntry_C by trivial. cbn [bind].
      destruct (in_range row col
                && mark_eqb (at_ (board_c g) (Z.to_nat row) (Z.to_nat col))
                     Blank) eqn:V; cbn [negb].
      * apply andb_true_iff in V. destruct V as [R E].
        destruct (in_range_nat _ _ R) as [Hi Hj]. apply mark_eqb_eq in E.
        rewrite (set_cell_place X Hb Hi Hj). cbn [bind].
        rewrite end_of_turn_C by (auto using place_3x3).
        cbn [bind]. eexists. eexists. split; [reflexivity|].
        pose proof (@PartA_play.next_flow_step g _ _ H Hi Hj E) as S.
        rewrite Ht in S.
        destruct (next_flow _ _) as [g1 | v1 g1].
        -- destruct S as (S1 & _ & S3). split; trivial.
           rewrite S3. cbn [other mark_eqb length]. lia.
        -- destruct S as (S1 & S2 & _ & S4). auto.
      * eexists. eexists. split; [reflexivity|]. split; trivial.
        rewrite Ht. cbn [mark_eqb length]. lia.
    + eexists. eexists. split; [reflexivity|]. split; trivial.
      rewrite Ht. cbn [mark_eqb length]. lia.
  - right.
    destruct (@computer_cell predict randbelow g Hb HF Hr)
      as (i & j & out & -> & Hi & Hj & E).
    cbn [bind]. rewrite !Nat2Z.id.
    rewrite (set_cell_place O Hb Hi Hj). cbn [bind].
    rewrite end_of_turn_C by (auto using place_3x3).
    cbn [bind]. eexists. eexists. split; [reflexivity|].
    pose proof (@PartA_play.next_flow_step g i j H Hi Hj E) as S.
    rewrite Ht in S.
    destruct (next_flow _ _) as [g1 | v1 g1].
    + destruct S as (S1 & _ & S3). split; trivial.
      rewrite S3. cbn [other mark_eqb]. lia.
    + destruct S as (S1 & S2 & _ & S4). auto.
Qed.

Lemma play_loop_C_fits predict rand passes :
  (forall k n, (0 < n)%nat -> (rand k n < n)%nat) ->
  forall k inputs g v g',
    at_head g ->
    PartC.play_loop predict rand k passes inputs g = Ok (v, g') ->
    verdict_fits v g' /\ is_3x3 (board_c g')
    /\ ((turn g' = O
         /\ count_mark X (board_c g') = count_mark O (board_c g'))
        \/ (turn g' = X
            /\ count_mark X (board_c g') = S (count_mark O (board_c g')))).
Proof.
  intros Hr. induction passes as [|passes IH]; intros k inputs g v g' H;
    cbn [PartC.play_loop]; [discriminate|].
  destruct (@turn_body_C_step predict (rand k) inputs g H (Hr k))
    as [(_ & _ & ->) | (f & rest & -> & S)]; [discriminate|].
  cbn [bind]. destruct f as [g1 | v1 g1].
  - apply IH. apply S.
  - intros [= <- <-]. exact S.
Qed.

Lemma play_loop_C_runs predict rand passes :
  (forall k n, (0 < n)%nat -> (rand k n < n)%nat) ->
  forall k inputs g,
    at_head g -> (passes_left inputs g < passes)%nat ->
    (exists v g', PartC.play_loop predict rand k passes inputs g = Ok (v, g'))
    \/ PartC.play_loop predict rand k passes inputs g = Raise EOFError.
Proof.
  intros Hr. induction passes as [|passes IH]; intros k inputs g H Hm;
    [lia|].
  cbn [PartC.play_loop].
  destruct (@turn_body_C_step predict (rand k) inputs g H (Hr k))
    as [(_ & _ & ->) | (f & rest & -> & S)]; [now right|].
  cbn [bind]. destruct f as [g1 | v1 g1].
  - apply IH; [apply S|]. destruct S as [_ S]. lia.
  - left. eauto.
Qed.

End PartC_play.

(** X10.  In Part C, whatever the predictor answers and whatever the
    random source draws below its bounds, a verdict the loop reaches
    from the empty board fits the board it is announced on, and the
    marks are those of a legal game: no mark was overwritten, so after a
    move of O there are as many X as O and after a move of X one X
    more. *)
Theorem play_loop_C_verdict (predict : list Z -> Z)
    (rand : nat -> nat -> nat) (passes : nat) (inputs : list entry)
    (v : verdict) (g : Game) :
  (forall k n, (0 < n)%nat -> (rand k n < n)%nat) ->
  PartC.play_loop predict rand 0 passes inputs Game_init = Ok (v, g) ->
  verdict_fits v g
  /\ ((turn g = O /\ count_mark X (board_c g) = count_mark O (board_c g))
      \/ (turn g = X
          /\ count_mark X (board_c g) = S (count_mark O (board_c g)))).
Proof.
  intros Hr L.
  destruct (@PartC_play.play_loop_C_fits predict rand passes Hr 0 inputs
              Game_init v g PartA_play.at_head_init L) as (F & _ & C).
  auto.
Qed.

(** X11.  Part C's loop, from the empty board with more passes than two
    for each entry and one, stops with a verdict or with [EOFError] at
    the end of the entries, whatever the predictor answers: a prediction
    out of range or on a taken cell raises nothing. *)
Theorem play_loop_C_ends (predict : list Z -> Z)
    (rand : nat -> nat -> nat) (passes : nat) (inputs : list entry) :
  (forall k n, (0 < n)%nat -> (rand k n < n)%nat) ->
  (2 * length inputs + 1 < passes)%nat ->
  (exists v g,
     PartC.play_loop predict rand 0 passes inputs Game_init = Ok (v, g))
  \/ PartC.play_loop predict rand 0 passes inputs Game_init
     = Raise EOFError.
Proof.
  intros Hr Hp.
  apply PartC_play.play_loop_C_runs; trivial.
  - apply PartA_play.at_head_init.
  - unfold passes_left. cbn [Game_init turn mark_eqb]. lia.
Qed.

Lemma play_loop_C_verdict_witness :
  let g := {| board_c := [[O; X; O]; [Blank; X; Blank]; [Blank; X; Blank]];
              turn := X |} in
  verdict_fits (Winner X) g
  /\ ((turn g = O /\ count_mark X (board_c g) = count_mark O (board_c g))
      \/ (turn g = X
          /\ count_mark X (board_c g) = S (count_mark O (board_c g)))).
Proof.
  intros g.
  apply (@play_loop_C_verdict (fun _ => 0%Z) (fun _ _ => 0%nat) 5
           [Some (1, 1); Some (0, 1); Some (2, 1)]%Z (Winner X) g).
  - intros k n Hn. exact Hn.
  - reflexivity.
Defined.

Lemma play_loop_C_ends_witness :
  let predict := fun _ : list Z => 0%Z in
  let rand := fun _ _ : nat => 0%nat in
  let inputs := [Some (1, 1); Some (0, 1); Some (2, 1)]%Z in
  (exists v g, PartC.play_loop predict rand 0 8 inputs Game_init = Ok (v, g))
  \/ PartC.play_loop predict rand 0 8 inputs Game_init = Raise EOFError.
Proof.
  intros predict rand inputs. apply play_loop_C_ends.
  - intros k n Hn. exact Hn.
  - cbn. lia.
Defined.

(** X12.  On a full board [getComputerMove] of Part C has no cell to
    fall back on: whatever the predictor answers, every prediction is
    turned down and the choice among no cells raises [IndexError]. *)
Theorem getComputerMove_C_full (predict : list Z -> Z)
    (randbelow : nat -> nat) (g : Game) :
  is_3x3 (board_c g) -> full (board_c g) ->
  PartC.getComputerMove predict randbelow g = Raise IndexError.
Proof.
  intros Hb F. unfold PartC.getComputerMove.
  rewrite validateEntry_C by trivial.
  set (idx := predict (PartC.encodeBoard g)).
  assert (in_range (idx / 3) (idx mod 3)
          && mark_eqb (at_ (board_c g) (Z.to_nat (idx / 3))
                         (Z.to_nat (idx mod 3))) Blank = false) as ->.
  { destruct (in_range (idx / 3) (idx mod 3)) eqn:R; trivial.
    destruct (in_range_nat _ _ R) as [Hi Hj]. cbn [andb].
    destruct (mark_eqb _ Blank) eqn:E; trivial.
    apply mark_eqb_eq in E. destruct (F _ _ Hi Hj).
    rewrite (cell_at Hb Hi Hj). now f_equal. }
  cbn [bind negb]. rewrite (available_3x3 Hb). cbn [bind].
  destruct (blank_cells (board_c g)) as [|[i j] l] eqn:E; trivial.
  assert (In (i, j) (blank_cells (board_c g))) as Hin
    by (rewrite E; now left).
  apply (blank_cells_spec i j Hb) in Hin. destruct Hin as (Hi & Hj & Hc).
  destruct (F i j Hi Hj Hc).
Qed.

Lemma getComputerMove_C_full_witness :
  PartC.getComputerMove (fun _ => 4%Z) (fun _ => 0%nat)
    {| board_c := [[X; O; X]; [X; O; O]; [O; X; X]]; turn := O |}
  = Raise IndexError.
Proof.
  apply getComputerMove_C_full.
  - apply is_3x3_intro.
  - apply full_no_blank; [apply is_3x3_intro | reflexivity].
Defined.

(** X13.  [encodeBoard] writes nine integers, the cell [(i, j)] at
    index [3 i + j] as 1 for X, -1 for O and 0 for a blank; it does not
    look at the turn, and two boards with the same encoding are the same
    board. *)
Theorem encodeBoard_faithful (g : Game) :
  is_3x3 (board_c g) ->
  length (PartC.encodeBoard g) = 9%nat
  /\ (forall i j, (i < 3)%nat -> (j < 3)%nat ->
        nth_error (PartC.encodeBoard g) (3 * i + j)
        = Some (code (at_ (board_c g) i j)))
  /\ (forall g', is_3x3 (board_c g') ->
        PartC.encodeBoard g = PartC.encodeBoard g' ->
        board_c g = board_c g').
Proof.
  destruct g as [b t]. cbn [board_c]. intros Hb. board9 Hb.
  assert (Hcode : forall m,
            (if mark_eqb m X then 1
             else if mark_eqb m O then -1 else 0)%Z = code m)
    by (now intros []).
  assert (Hinj : forall m m', code m = code m' -> m = m')
    by (intros [] []; cbn; intros; congruence).
  split; [reflexivity|]. split.
  - intros i j Hi Hj. below3 i Hi; below3 j Hj; cbn; now rewrite Hcode.
  - intros [b' t'] Hb'. cbn [board_c] in *. board9 Hb'.
    unfold PartC.encodeBoard. cbn [board_c flat_map map app].
    rewrite !Hcode. intros E. injection E as E0 E1 E2 E3 E4 E5 E6 E7 E8.
    apply Hinj in E0, E1, E2, E3, E4, E5, E6, E7, E8. now subst.
Qed.

Lemma encodeBoard_faithful_witness :
  let g := {| board_c := [[X; Blank; O]; [Blank; O; Blank]; [X; Blank; X]];
              turn := O |} in
  length (PartC.encodeBoard g) = 9%nat
  /\ (forall i j, (i < 3)%nat -> (j < 3)%nat ->
        nth_error (PartC.encodeBoard g) (3 * i + j)
        = Some (code (at_ (board_c g) i j)))
  /\ (forall g', is_3x3 (board_c g') ->
        PartC.encodeBoard g = PartC.encodeBoard g' ->
        board_c g = board_c g').
Proof. intros g. apply encodeBoard_faithful. apply is_3x3_intro. Defined.

(** ** Part C: more on the loader *)

Module Loader.

Lemma integer_fieldsb_iff line :
  integer_fieldsb line = true <-> integer_fields line.
Proof.
  split; [apply integer_fieldsb_ok|].
  unfold integer_fieldsb, integer_fields. rewrite Forall_forall.
  intros H. apply forallb_forall. intros tok Htok.
  specialize (H tok Htok). now destruct (PartC.parse_int tok).
Qed.

Lemma map_int_bad toks :
  forallb (fun tok => match PartC.parse_int tok with
                      | Some _ => true | None => false end) toks = false ->
  PartC.map_int toks = Raise ValueError.
Proof.
  induction toks as [|tok toks IH]; [discriminate|].
  cbn [forallb PartC.map_int]. unfold PartC.py_int.
  destruct (PartC.parse_int tok); cbn [bind andb]; trivial.
  intros H. now rewrite IH.
Qed.

Lemma map_int_good toks :
  forallb (fun tok => match PartC.parse_int tok with
                      | Some _ => true | None => false end) toks = true ->
  PartC.map_int toks = Ok (map int_of toks).
Proof.
  intros H. apply map_int_ok. apply Forall_forall. intros tok Htok.
  rewrite forallb_forall in H. specialize (H tok Htok).
  now destruct (PartC.parse_int tok).
Qed.

Lemma load_line_faulty line acc :
  kept line = true -> integer_fieldsb line = false ->
  PartC.load_line line acc = Raise ValueError.
Proof.
  unfold kept, integer_fieldsb, PartC.load_line. intros K F.
  destruct acc as [xs ys]. rewrite K. apply Nat.eqb_eq in K.
  rewrite <- (firstn_skipn 9 (PartC.parts_of line)) in F.
  rewrite forallb_app in F.
  destruct (forallb _ (firstn 9 (PartC.parts_of line))) eqn:F9.
  - rewrite (map_int_good _ F9). cbn [bind andb] in *.
    unfold getitem.
    destruct (nth_error (PartC.parts_of line) 9) as [tok|] eqn:E.
    + cbn [bind]. unfold PartC.py_int.
      assert (skipn 9 (PartC.parts_of line) = [tok]) as S.
      { destruct (PartC.parts_of line)
          as [|? [|? [|? [|? [|? [|? [|? [|? [|? [|? [|]]]]]]]]]]];
          try discriminate. cbn in E. now injection E as ->. }
      rewrite S in F. cbn [forallb] in F.
      destruct (PartC.parse_int tok); [discriminate | reflexivity].
    + apply nth_error_None in E. lia.
  - now rewrite (map_int_bad _ F9).
Qed.

Lemma load_loop_cases lines :
  forall xs ys,
    (Exists faulty lines
     /\ for_each PartC.load_line lines (xs, ys) = Raise ValueError)
    \/ (Forall (fun line => kept line = true -> integer_fields line) lines
        /\ for_each PartC.load_line lines (xs, ys)
           = Ok (xs ++ map features_of (filter kept lines),
                 ys ++ map label_of (filter kept lines))).
Proof.
  induction lines as [|line lines IH]; intros xs ys.
  - right. split; [constructor|]. cbn. now rewrite !app_nil_r.
  - cbn [for_each filter].
    destruct (kept line) eqn:K.
    + destruct (integer_fieldsb line) eqn:F.
      * apply integer_fieldsb_iff in F.
        rewrite (load_line_kept xs ys K F). cbn [bind map].
        destruct (IH (xs ++ [features_of line]) (ys ++ [label_of line]))
          as [[E ->] | [G ->]].
        -- left. split; [now apply Exists_cons_tl | reflexivity].
        -- right. split; [constructor; auto|].
           now rewrite <- !app_assoc.
      * left. split.
        -- apply Exists_cons_hd. split; trivial.
           intros H. apply integer_fieldsb_iff in H. congruence.
        -- now rewrite (@load_line_faulty line (xs, ys) K F).
    + rewrite load_line_skipped by trivial. cbn [bind].
      destruct (IH xs ys) as [[E ->] | [G ->]].
      * left. split; [now apply Exists_cons_tl | reflexivity].
      * right. split; [|reflexivity]. constructor; trivial. congruence.
Qed.

Lemma not_both lines :
  Exists faulty lines ->
  Forall (fun line => kept line = true -> integer_fields line) lines ->
  False.
Proof.
  intros E F. rewrite Exists_exists in E. rewrite Forall_forall in F.
  destruct E as (line & Hin & K & N). auto.
Qed.

End Loader.


(** X15.  Loading two files one after the other is loading their lines
    in one file: the examples and the labels of the first come before
    those of the second, and an exception of either is the exception of
    the whole. *)
Theorem load_dataset_app (lines1 lines2 : list string) :
  PartC.load_dataset (lines1 ++ lines2)
  = append_loads (PartC.load_dataset lines1) (PartC.load_dataset lines2).
Proof.
  unfold PartC.load_dataset, append_loads.
  destruct (Loader.load_loop_cases (lines1 ++ lines2) [] [])
    as [[E H] | [G H]];
    destruct (Loader.load_loop_cases lines1 [] []) as [[E1 H1] | [G1 H1]];
    destruct (Loader.load_loop_cases lines2 [] []) as [[E2 H2] | [G2 H2]];
    rewrite H, H1, H2; cbn [bind app]; try reflexivity;
    try (apply Forall_app in G; destruct G as [Ga Gb]);
    try (apply Exists_app in E; destruct E as [E | E]);
    try solve [exfalso; eauto using Loader.not_both].
  now rewrite filter_app, !map_app.
Qed.

Module Fields.
Import PartC.

Lemma split_ws_spaces w :
  Forall (fun c => is_space c = true) w ->
  forall cur,
    split_ws cur w = match cur with [] => [] | _ => [rev cur] end.
Proof.
  induction 1 as [|c w Hc _ IH]; intros cur; cbn [split_ws]; trivial.
  rewrite Hc. destruct cur; rewrite IH; reflexivity.
Qed.

Lemma split_ws_trailing w s :
  Forall (fun c => is_space c = true) w ->
  forall cur, split_ws cur (s ++ w) = split_ws cur s.
Proof.
  intros Hw. induction s as [|c s IH]; intros cur; cbn [app split_ws].
  - now apply split_ws_spaces.
  - destruct (is_space c); [destruct cur|]; now rewrite IH.
Qed.

Lemma split_ws_lstrip s : split_ws [] (lstrip s) = split_ws [] s.
Proof.
  induction s as [|c s IH]; trivial. cbn [lstrip split_ws].
  destruct (is_space c) eqn:E; trivial. cbn [split_ws]. now rewrite E.
Qed.

Lemma lstrip_decomp u :
  exists w, Forall (fun c => is_space c = true) w /\ u = w ++ lstrip u.
Proof.
  induction u as [|c u (w & Hw & E)]; [exists []; auto|].
  cbn [lstrip]. destruct (is_space c) eqn:Ec.
  - exists (c :: w). split; [now constructor|]. cbn [app]. now f_equal.
  - exists []. auto.
Qed.

Lemma split_ws_strip s : split_ws [] (strip s) = split_ws [] s.
Proof.
  unfold strip. rewrite <- (split_ws_lstrip s).
  destruct (lstrip_decomp (rev (lstrip s))) as (w & Hw & E).
  apply (f_equal (@rev ascii)) in E. rewrite rev_involutive, rev_app_distr in E.
  rewrite E at 2. symmetry. apply split_ws_trailing.
  apply Forall_rev. exact Hw.
Qed.

Lemma split_ws_tokens s :
  forall cur,
    Forall (fun c => is_space c = false) cur ->
    Forall (fun tok => tok <> [] /\ Forall (fun c => is_space c = false) tok)
      (split_ws cur s).
Proof.
  induction s as [|c s IH]; intros cur Hcur; cbn [split_ws].
  - destruct cur as [|a cur]; constructor; [|constructor].
    split; [|now apply Forall_rev].
    intros E. apply (f_equal (@length ascii)) in E.
    rewrite length_rev in E. discriminate.
  - destruct (is_space c) eqn:Ec.
    + destruct cur as [|a cur]; [now apply IH|].
      constructor; [|now apply IH]. split; [|now apply Forall_rev].
      intros E. apply (f_equal (@length ascii)) in E.
      rewrite length_rev in E. discriminate.
    + apply IH. now constructor.
Qed.

Lemma split_ws_join s1 c s2 :
  is_space c = true ->
  forall cur,
    split_ws cur (s1 ++ c :: s2) = split_ws cur s1 ++ split_ws [] s2.
Proof.
  intros Hc. induction s1 as [|a s1 IH]; intros cur; cbn [app split_ws].
  - rewrite Hc. now destruct cur.
  - destruct (is_space a); [destruct cur|]; rewrite IH; reflexivity.
Qed.

End Fields.

(** X16.  The fields of a line are its maximal runs of characters that
    are not white space: stripping the line first changes nothing, no
    field is empty or holds white space, a line of white space only has
    no field, and two lines joined by a white space character have the
    fields of the first followed by those of the second. *)
Theorem fields_of_line (line : string) :
  PartC.parts_of line = PartC.split_ws [] (list_ascii_of_string line)
  /\ Forall (fun tok => tok <> []
                        /\ Forall (fun c => PartC.is_space c = false) tok)
       (PartC.parts_of line)
  /\ (Forall (fun c => PartC.is_space c = true) (list_ascii_of_string line)
      -> PartC.parts_of line = [] /\ kept line = false)
  /\ (forall c line2, PartC.is_space c = true ->
        PartC.parts_of (line ++ String c line2)
        = PartC.parts_of line ++ PartC.parts_of line2).
Proof.
  assert (E : forall l, PartC.parts_of l
                        = PartC.split_ws [] (list_ascii_of_string l))
    by (intros; apply Fields.split_ws_strip).
  split; [apply E|]. split; [|split].
  - rewrite E. apply Fields.split_ws_tokens. constructor.
  - intros W. unfold kept. rewrite E.
    rewrite (Fields.split_ws_spaces W []). auto.
  - intros c line2 Hc. rewrite !E.
    assert (list_ascii_of_string (line ++ String c line2)
            = list_ascii_of_string line ++ c :: list_ascii_of_string line2)
      as ->.
    { induction line as [|a line IH]; cbn; [reflexivity | now f_equal]. }
    now apply Fields.split_ws_join.
Qed.

(** ** The entries typed at the prompt *)

Module Prompt_facts.
Import PartC Prompt.
















(** *** White space around a text *)






(** *** Commas *)



Lemma split_comma_length s :
  forall cur, length (split_comma cur s) = S (commas s).
Proof.
  unfold commas.
  induction s as [|c s IH]; intros cur; cbn [split_comma filter]; trivial.
  destruct (Ascii.eqb c ","); cbn [length]; now rewrite IH.
Qed.

Lemma space_no_comma c : is_space c = true -> Ascii.eqb c "," = false.
Proof.
  intros H. destruct (Ascii.eqb c ",") eqn:E; trivial.
  apply Ascii.eqb_eq in E. subst. discriminate.
Qed.

Lemma commas_app s t : commas (s ++ t) = (commas s + commas t)%nat.
Proof. unfold commas. now rewrite filter_app, length_app. Qed.

Lemma commas_spaces w :
  Forall (fun c => is_space c = true) w -> commas w = 0%nat.
Proof.
  unfold commas. induction 1 as [|c w Hc _ IH]; trivial.
  cbn [filter]. now rewrite (space_no_comma _ Hc).
Qed.

Lemma commas_rev s : commas (rev s) = commas s.
Proof.
  induction s as [|c s IH]; trivial. cbn [rev].
  rewrite commas_app, IH. unfold commas. cbn [filter].
  destruct (Ascii.eqb c ","); cbn [length]; lia.
Qed.

Lemma commas_lstrip s : commas (lstrip s) = commas s.
Proof.
  destruct (Fields.lstrip_decomp s) as (w & Hw & E).
  rewrite E at 2. rewrite commas_app, (commas_spaces Hw). reflexivity.
Qed.

Lemma commas_strip s : commas (strip s) = commas s.
Proof.
  unfold strip. now rewrite commas_rev, commas_lstrip, commas_rev,
    commas_lstrip.
Qed.

End Prompt_facts.



(** X18.  A text that does not hold exactly one comma is read as no
    entry. *)
Theorem read_entry_commas (text : string) :
  commas (list_ascii_of_string text) <> 1%nat ->
  Prompt.read_entry text = None.
Proof.
  intros H. unfold Prompt.read_entry.
  pose proof (Prompt_facts.split_comma_length
                (PartC.strip (list_ascii_of_string text)) []) as L.
  rewrite Prompt_facts.commas_strip in L.
  destruct (Prompt.split_comma [] (PartC.strip (list_ascii_of_string text)))
    as [|a [|b [|d l]]]; trivial.
  cbn [length] in L. lia.
Qed.

Lemma read_entry_commas_witness :
  Prompt.read_entry "1,2,3" = None /\ Prompt.read_entry "12" = None.
Proof.
  split; apply read_entry_commas; cbn; lia.
Defined.

(** ** The tests at the end of a turn *)

(** X19.  On a three-by-three board the three versions of [checkWin]
    and [checkWinState] for the player to move return the same boolean
    and raise nothing; it is true exactly when that player holds a row,
    a column or a diagonal. *)
Theorem checkWin_agree (g : Game) :
  is_3x3 (board_c g) ->
  exists w,
    PartA.checkWin g = Ok w /\ PartB.checkWin g = Ok w
    /\ PartC.checkWin g = Ok w
    /\ PartB.checkWinState (board_c g) (turn g) = Ok w
    /\ (w = true <-> has_line (board_c g) (turn g)).
Proof.
  intros Hb. exists (has_lineb (board_c g) (turn g)).
  split; [now apply checkWin_A|]. split; [now apply checkWin_B|].
  split; [now apply PartC_play.checkWin_C|].
  split; [now apply checkWinState_3x3|].
  now apply has_lineb_spec.
Qed.

Lemma checkWin_agree_witness :
  let g := {| board_c := [[O; X; Blank]; [X; O; Blank]; [X; Blank; O]];
              turn := O |} in
  exists w,
    PartA.checkWin g = Ok w /\ PartB.checkWin g = Ok w
    /\ PartC.checkWin g = Ok w
    /\ PartB.checkWinState (board_c g) (turn g) = Ok w
    /\ (w = true <-> has_line (board_c g) (turn g)).
Proof. intros g. apply checkWin_agree. apply is_3x3_intro. Defined.

(** X20.  On a three-by-three board [checkFull] holds exactly when the
    board shows nine marks, and [checkEnd] of Parts A and B returns true
    exactly when the player to move holds a line or the board is
    full. *)
Theorem checkEnd_iff (g : Game) :
  is_3x3 (board_c g) ->
  (PartA.checkFull g = true <-> marks (board_c g) = 9%nat)
  /\ (PartA.checkFull g = true <-> full (board_c g))
  /\ PartB.checkFull g = PartA.checkFull g
  /\ PartC.checkFull g = PartA.checkFull g
  /\ exists e,
       PartA.checkEnd g = Ok e /\ PartB.checkEnd g = Ok e
       /\ (e = true <-> has_line (board_c g) (turn g) \/ full (board_c g)).
Proof.
  intros Hb. pose proof (PartA_play.marks_blanks Hb) as M.
  assert (Hfull : PartA.checkFull g = true <-> full (board_c g))
    by (now apply full_no_blank).
  split; [|split; [exact Hfull | split; [reflexivity | split;
    [reflexivity|]]]].
  - rewrite Hfull. split.
    + intros F. rewrite (PartA_play.full_blanks Hb F) in M. lia.
    + intros E. apply full_no_blank; trivial.
      destruct (no_blank (board_c g)) eqn:N; trivial.
      destruct (no_blank_false Hb N) as ([i j] & Hin & Eb).
      pose proof positions_in_range as R. rewrite Forall_forall in R.
      destruct (R _ Hin) as [Hi Hj]. cbn [fst snd] in *.
      pose proof (@blanks_place (board_c g) i j X Hb Hi Hj Eb
                    ltac:(discriminate)). lia.
  - unfold PartA.checkEnd, PartB.checkEnd.
    rewrite checkWin_A, checkWin_B by trivial. cbn [bind].
    change (PartB.checkFull g) with (PartA.checkFull g).
    destruct (has_lineb (board_c g) (turn g)) eqn:W.
    + exists true. repeat split; trivial. intros _. left.
      now apply has_lineb_spec.
    + exists (PartA.checkFull g). repeat split; trivial.
      * intros E. right. now apply Hfull.
      * intros [L | F]; [|now apply Hfull].
        apply (has_lineb_spec (turn g) Hb) in L. congruence.
Qed.

Lemma checkEnd_iff_witness :
  let g := {| board_c := [[X; O; X]; [X; O; O]; [O; X; X]]; turn := X |} in
  (PartA.checkFull g = true <-> marks (board_c g) = 9%nat)
  /\ (PartA.checkFull g = true <-> full (board_c g))
  /\ PartB.checkFull g = PartA.checkFull g
  /\ PartC.checkFull g = PartA.checkFull g
  /\ exists e,
       PartA.checkEnd g = Ok e /\ PartB.checkEnd g = Ok e
       /\ (e = true <-> has_line (board_c g) (turn g) \/ full (board_c g)).
Proof. intros g. apply checkEnd_iff. apply is_3x3_intro. Defined.

(** X21.  In Part B, when the computer is to move on a board in progress
    and some blank cell would complete a line of O, a verdict the loop
    reaches is the computer's win, whatever the human enters. *)
Theorem computer_takes_win (fuel passes : nat) (inputs : list entry)
    (g g' : Game) (v : verdict) (i j : nat) :
  (9 <= fuel)%nat ->
  in_play (board_c g) -> turn g = O ->
  (i < 3)%nat -> (j < 3)%nat -> cell (board_c g) i j = Ok Blank ->
  has_line (place (board_c g) i j O) O ->
  PartB.play_loop fuel passes inputs g = Ok (v, g') ->
  v = Winner O.
Proof.
  intros Hf P Ht Hi Hj Hc Hl L.
  pose proof (@PartB_play.play_loop_value fuel passes Hf inputs g v g' P
                (or_intror Ht) L) as H.
  pose proof P as P'. apply PartB_play.in_play_iff in P'.
  destruct P' as (Hb & HX & HO & HF).
  rewrite (cell_at Hb Hi Hj) in Hc.
  assert (at_ (board_c g) i j = Blank) as E by congruence.
  destruct (PartB_play.game_value_max Hb HO HX HF) as [Hle _].
  specialize (Hle i j Hi Hj E).
  pose proof (place_3x3 i j O Hb) as Hb'.
  rewrite (PartB_play.game_value_terminal false Hb') in Hle.
  apply (has_lineb_spec O Hb') in Hl. rewrite Hl in Hle.
  unfold position_value in H. rewrite Ht in H. cbn [mark_eqb] in H.
  destruct v as [[| |]|]; cbn [verdict_value] in H; trivial; lia.
Qed.

Lemma computer_takes_win_witness : Winner O = Winner O.
Proof.
  apply (@computer_takes_win 9 5 []
           {| board_c := [[X; X; O]; [X; O; Blank]; [Blank; Blank; Blank]];
              turn := O |}
           {| board_c := [[X; X; O]; [X; O; Blank]; [O; Blank; Blank]];
              turn := O |} (Winner O) 2 0).
  - lia.
  - apply in_play_intro; [apply is_3x3_intro | reflexivity].
  - reflexivity.
  - lia.
  - lia.
  - reflexivity.
  - apply has_lineb_spec; [apply is_3x3_intro | reflexivity].
  - vm_compute. reflexivity.
Defined.

(** ** Part B: the verdicts *)

Module PartB_fits.

Lemma turn_body_B_step fuel inputs g f rest :
  (9 <= fuel)%nat -> at_head g ->
  PartB.turn_body fuel inputs g = Ok (f, rest) ->
  match f with
  | Continue g' => at_head g'
  | Break v g' =>
      verdict_fits v g' /\ is_3x3 (board_c g')
      /\ ((turn g' = O
           /\ count_mark X (board_c g') = count_mark O (board_c g'))
          \/ (turn g' = X
              /\ count_mark X (board_c g') = S (count_mark O (board_c g'))))
  end.
Proof.
  intros Hf H T. pose proof H as (P & B).
  pose proof (PartA_play.turn_of_balanced B) as Ht.
  pose proof P as P'. apply PartB_play.in_play_iff in P'.
  destruct P' as (Hb & HX & HO & HF).
  pose proof (blanks_le_9 Hb) as H9.
  unfold PartB.turn_body in T.
  destruct Ht as [Ht | Ht]; rewrite Ht in T; cbn [mark_eqb] in T.
  - destruct inputs as [|[[row col]|] inputs]; [discriminate| |].
    + rewrite validateEntry_B in T by trivial. cbn [bind] in T.
      destruct (in_range row col
                && mark_eqb (at_ (board_c g) (Z.to_nat row) (Z.to_nat col))
                     Blank) eqn:V; cbn [negb] in T.
      * apply andb_true_iff in V. destruct V as [R E].
        destruct (in_range_nat _ _ R) as [Hi Hj]. apply mark_eqb_eq in E.
        rewrite (set_cell_place X Hb Hi Hj) in T. cbn [bind] in T.
        rewrite end_of_turn_B in T by (auto using place_3x3).
        cbn [bind] in T. injection T as <- _.
        pose proof (@PartA_play.next_flow_step g _ _ H Hi Hj E) as S.
        rewrite Ht in S.
        destruct (next_flow _ _) as [g1 | v1 g1].
        -- apply S.
        -- destruct S as (S1 & S2 & _ & S4). auto.
      * injection T as <- _. exact H.
    + injection T as <- _. exact H.
  - destruct (@PartB_play.computer_move_value fuel (board_c g) Hb
                ltac:(lia) HO HX HF) as (i & j & M & Hi & Hj & E & _).
    rewrite M in T. cbn [bind] in T.
    rewrite (set_cell_place O Hb Hi Hj) in T. cbn [bind] in T.
    rewrite end_of_turn_B in T by (auto using place_3x3).
    cbn [bind] in T. injection T as <- _.
    pose proof (@PartA_play.next_flow_step g i j H Hi Hj E) as S.
    rewrite Ht in S.
    destruct (next_flow _ _) as [g1 | v1 g1].
    + apply S.
    + destruct S as (S1 & S2 & _ & S4). auto.
Qed.

End PartB_fits.

(** X22.  In Part B, with fuel for nine levels, a verdict the loop
    reaches from the empty board fits the board it is announced on, and
    the marks are those of a legal game: the computer's mark went on a
    blank cell, so after a move of O there are as many X as O and after
    a move of X one X more. *)
Theorem play_loop_B_verdict (fuel passes : nat) (inputs : list entry)
    (v : verdict) (g : Game) :
  (9 <= fuel)%nat ->
  PartB.play_loop fuel passes inputs Game_init = Ok (v, g) ->
  verdict_fits v g
  /\ ((turn g = O /\ count_mark X (board_c g) = count_mark O (board_c g))
      \/ (turn g = X
          /\ count_mark X (board_c g) = S (count_mark O (board_c g)))).
Proof.
  intros Hf. generalize PartA_play.at_head_init.
  generalize Game_init as g0. revert inputs.
  induction passes as [|passes IH]; intros inputs g0 H;
    cbn [PartB.play_loop]; [discriminate|].
  destruct (PartB.turn_body fuel inputs g0) as [[f rest]| |] eqn:T;
    cbn [bind]; try discriminate.
  pose proof (@PartB_fits.turn_body_B_step fuel inputs g0 f rest Hf H T)
    as S.
  destruct f as [g1 | v1 g1].
  - apply IH. exact S.
  - intros [= <- <-]. destruct S as (S1 & _ & S3). auto.
Qed.

Lemma play_loop_B_verdict_witness :
  let g := {| board_c := [[X; X; O]; [X; O; Blank]; [O; Blank; Blank]];
              turn := O |} in
  verdict_fits (Winner O) g
  /\ ((turn g = O /\ count_mark X (board_c g) = count_mark O (board_c g))
      \/ (turn g = X
          /\ count_mark X (board_c g) = S (count_mark O (board_c g)))).
Proof.
  intros g.
  apply (@play_loop_B_verdict 9 20
           [Some (0, 0); Some (0, 1); Some (1, 0)]%Z (Winner O) g).
  - lia.
  - vm_compute. reflexivity.
Defined.

(** ** The display of the board *)

Module Display_facts.
Import Display.

Lemma row_text_inj a b c a' b' c' :
  join " | " (map mark_text [a; b; c])
  = join " | " (map mark_text [a'; b'; c']) ->
  a = a' /\ b = b' /\ c = c'.
Proof.
  destruct a, b, c, a', b', c'; cbn; intros E;
    try discriminate E; auto.
Qed.

End Display_facts.

(** X23.  On a three-by-three board [printBoard] raises nothing and
    makes seven calls of [print]: the header, the three rows with a rule
    after the first and the second, and an empty line.  What it prints
    tells the board: two boards printed alike are the same board. *)
Theorem printBoard_shows (b : board) :
  is_3x3 b ->
  (exists r0 r1 r2,
     Display.printBoard b
     = Ok [Display.header; r0; Display.rule; r1; Display.rule; r2;
           ""%string])
  /\ (forall b', is_3x3 b' ->
        Display.printBoard b = Display.printBoard b' -> b = b').
Proof.
  intros Hb. board9 Hb. split.
  - do 3 eexists. reflexivity.
  - intros b' Hb'. board9 Hb'.
    unfold Display.printBoard. cbn [for_each range3 getitem nth_error bind
                                    Nat.ltb Nat.leb app].
    intros E. injection E as E0 E1 E2.
    apply Display_facts.row_text_inj in E0, E1, E2.
    destruct E0 as (-> & -> & ->), E1 as (-> & -> & ->),
      E2 as (-> & -> & ->).
    reflexivity.
Qed.

Lemma printBoard_shows_witness :
  let b := [[X; Blank; O]; [Blank; O; Blank]; [X; Blank; X]] in
  (exists r0 r1 r2,
     Display.printBoard b
     = Ok [Display.header; r0; Display.rule; r1; Display.rule; r2;
           ""%string])
  /\ (forall b', is_3x3 b' ->
        Display.printBoard b = Display.printBoard b' -> b = b').
Proof. intros b. apply printBoard_shows. apply is_3x3_intro. Defined.
